(** * A change-propagation runtime: scheduler, array interception and
      async-component resolution

    Shallow embedding of
      - [src/core/observer/scheduler.js]
      - [src/core/observer/array.js]
      - [src/core/vdom/helpers/resolve-async-component.js]
    followed by the properties established about them. *)

From Stdlib Require Import ZArith Sorting.Sorted Sorting.Permutation.
From stdpp Require Import gmap strings list pretty.

Local Open Scope Z_scope.
Local Open Scope string_scope.
Local Open Scope list_scope.

(** ** Results of computations that may need unboundedly many steps

    The flush loop of the scheduler has no static bound (watchers may keep
    enqueueing watchers), so it is run with fuel.  Running out of fuel keeps
    the state reached so far, so that safety properties can be stated about
    every prefix of an execution. *)

Inductive Outcome (A : Type) : Type :=
| Done (a : A)
| OutOfFuel (a : A).
Arguments Done {A} a.
Arguments OutOfFuel {A} a.

Definition obind {A} (m : Outcome A) (k : A -> Outcome A) : Outcome A :=
  match m with
  | Done a => k a
  | OutOfFuel a => OutOfFuel a
  end.

Definition outcome_state {A} (m : Outcome A) : A :=
  match m with Done a | OutOfFuel a => a end.

Definition finished {A} (m : Outcome A) : bool :=
  match m with Done _ => true | OutOfFuel _ => false end.

(** ** The update scheduler ([scheduler.js]) *)

Module Scheduler.

(** Build and configuration switches read by the scheduler. *)
Record Config := {
  production : bool;      (* process.env.NODE_ENV === 'production' *)
  async : bool;           (* config.async *)
  devtools : bool         (* devtools && config.devtools *)
}.

(** Component instances, as far as the scheduler reads them.  The render
    watcher [vm._watcher] is referred to by its id. *)
Record Component := {
  cname : string;
  _watcher : option Z;
  _isMounted : bool;
  _isDestroyed : bool;
  _inactive : bool
}.

Record Watcher := {
  id : Z;
  user : bool;
  expression : string;
  vm : Component
}.

#[global] Instance Component_eq_dec : EqDecision Component.
Proof. solve_decision. Defined.
#[global] Instance Watcher_eq_dec : EqDecision Watcher.
Proof. solve_decision. Defined.

(** Everything observable that the scheduler does to its collaborators. *)
Inductive Event :=
| EvBefore (w : Watcher)                  (* watcher.before() *)
| EvRun (w : Watcher)                     (* watcher.run() *)
| EvWarn (msg : string) (c : Component)   (* warn(msg, vm) *)
| EvNextTick                              (* nextTick(flushSchedulerQueue) *)
| EvActivated (c : Component)             (* activateChildComponent(vm, true) *)
| EvUpdated (c : Component)               (* callHook(vm, 'updated') *)
| EvDevtoolsFlush.                        (* devtools.emit('flush') *)

#[global] Instance Event_eq_dec : EqDecision Event.
Proof. solve_decision. Defined.

(** User code ([run], [before]) can reach the scheduler only through its two
    exported functions; its behaviour is the list of such calls it makes,
    which may depend on everything that happened before. *)
Inductive Call :=
| QueueWatcher (w : Watcher)
| QueueActivatedComponent (c : Component).

Definition Behaviour := list Event -> list Call.

(** The values an entry of [has] takes: [has[id] = true] in [queueWatcher],
    [has[id] = null] in the flush loop; an absent key reads [undefined]. *)
Inductive HasVal := HasTrue | HasNull.

(** [has[id] == null]: true of [undefined] and of [null]. *)
Definition is_nullish (v : option HasVal) : bool :=
  match v with
  | Some HasTrue => false
  | Some HasNull | None => true
  end.

Definition MAX_UPDATE_COUNT : nat := 100.

(** The module-level variables of [scheduler.js], and the trace of events. *)
Record Sched := {
  queue : list Watcher;
  activatedChildren : list Component;
  has : gmap Z HasVal;
  circular : gmap Z nat;
  waiting : bool;
  flushing : bool;
  index : nat;
  trace : list Event
}.

Definition initial : Sched :=
  {| queue := []; activatedChildren := []; has := ∅; circular := ∅;
     waiting := false; flushing := false; index := 0; trace := [] |}.

Definition set_queue (q : list Watcher) (s : Sched) : Sched :=
  {| queue := q; activatedChildren := activatedChildren s; has := has s;
     circular := circular s; waiting := waiting s; flushing := flushing s;
     index := index s; trace := trace s |}.

Definition set_activatedChildren (a : list Component) (s : Sched) : Sched :=
  {| queue := queue s; activatedChildren := a; has := has s;
     circular := circular s; waiting := waiting s; flushing := flushing s;
     index := index s; trace := trace s |}.

Definition set_has (h : gmap Z HasVal) (s : Sched) : Sched :=
  {| queue := queue s; activatedChildren := activatedChildren s; has := h;
     circular := circular s; waiting := waiting s; flushing := flushing s;
     index := index s; trace := trace s |}.

Definition set_circular (c : gmap Z nat) (s : Sched) : Sched :=
  {| queue := queue s; activatedChildren := activatedChildren s; has := has s;
     circular := c; waiting := waiting s; flushing := flushing s;
     index := index s; trace := trace s |}.

Definition set_waiting (b : bool) (s : Sched) : Sched :=
  {| queue := queue s; activatedChildren := activatedChildren s; has := has s;
     circular := circular s; waiting := b; flushing := flushing s;
     index := index s; trace := trace s |}.

Definition set_flushing (b : bool) (s : Sched) : Sched :=
  {| queue := queue s; activatedChildren := activatedChildren s; has := has s;
     circular := circular s; waiting := waiting s; flushing := b;
     index := index s; trace := trace s |}.

Definition set_index (i : nat) (s : Sched) : Sched :=
  {| queue := queue s; activatedChildren := activatedChildren s; has := has s;
     circular := circular s; waiting := waiting s; flushing := flushing s;
     index := i; trace := trace s |}.

Definition emit (e : Event) (s : Sched) : Sched :=
  {| queue := queue s; activatedChildren := activatedChildren s; has := has s;
     circular := circular s; waiting := waiting s; flushing := flushing s;
     index := index s; trace := trace s ++ [e] |}.

(** [resetSchedulerState] *)
Definition resetSchedulerState (cfg : Config) (s : Sched) : Sched :=
  {| queue := []; activatedChildren := []; has := ∅;
     circular := if negb (production cfg) then ∅ else circular s;
     waiting := false; flushing := false; index := 0; trace := trace s |}.

(** [queue.sort((a, b) => a.id - b.id)]: a stable sort, ascending by id. *)
Fixpoint sort_insert (w : Watcher) (l : list Watcher) : list Watcher :=
  match l with
  | [] => [w]
  | x :: r => if (id w <=? id x)%Z then w :: x :: r else x :: sort_insert w r
  end.

Definition sort_by_id (l : list Watcher) : list Watcher :=
  foldr sort_insert [] l.

(** [queue.splice(p, 0, w)] *)
Definition splice_in (p : nat) (w : Watcher) (q : list Watcher) : list Watcher :=
  take p q ++ w :: drop p q.

(** The backward scan of [queueWatcher]:
    [let i = queue.length - 1; while (i > index && queue[i].id > watcher.id) i--].
    The argument [p] stands for [i + 1], so that the scan ends with the
    position [i + 1] given to [splice] (and [i = -1] needs no integer). *)
Fixpoint scan_back (q : list Watcher) (idx : nat) (wid : Z) (p : nat) : nat :=
  match p with
  | O => O
  | S i =>
      if (idx <? i)%nat then
        match q !! i with
        | Some qi => if (wid <? id qi)%Z then scan_back q idx wid i else S i
        | None => S i
        end
      else S i
  end.

(** [queueActivatedComponent] *)
Definition queueActivatedComponent (c : Component) (s : Sched) : Sched :=
  let c' := {| cname := cname c; _watcher := _watcher c;
               _isMounted := _isMounted c; _isDestroyed := _isDestroyed c;
               _inactive := false |} in
  set_activatedChildren (activatedChildren s ++ [c']) s.

(** The message of the circular-update diagnostic. *)
Definition dquote : string := String (Ascii.ascii_of_nat 34) EmptyString.

Definition loop_message (w : Watcher) : string :=
  "You may have an infinite update loop " +:+
  (if user w
   then "in watcher with expression " +:+ dquote +:+ expression w +:+ dquote
   else "in a component render function.").

(** [callActivatedHooks] *)
Definition callActivatedHooks (a : list Component) (s : Sched) : Sched :=
  foldl (fun s c =>
           emit (EvActivated {| cname := cname c; _watcher := _watcher c;
                                _isMounted := _isMounted c;
                                _isDestroyed := _isDestroyed c;
                                _inactive := true |}) s) s a.

(** [callUpdatedHooks]: from the last watcher of the flushed queue down to
    the first. *)
Definition is_render_watcher_of_live_vm (w : Watcher) : bool :=
  bool_decide (_watcher (vm w) = Some (id w))
  && _isMounted (vm w) && negb (_isDestroyed (vm w)).

Definition callUpdatedHooks (q : list Watcher) (s : Sched) : Sched :=
  foldl (fun s w =>
           if is_render_watcher_of_live_vm w then emit (EvUpdated (vm w)) s
           else s) s (reverse q).

Section Flush.
Variable cfg : Config.
Variable run : Watcher -> Behaviour.
Variable before : Watcher -> option Behaviour.

Section Body.
(** The flush that [queueWatcher] starts itself in the synchronous
    diagnostic configuration. *)
Variable flushRec : Sched -> Outcome Sched.

Definition queueWatcher (watcher : Watcher) (s : Sched) : Outcome Sched :=
  let id := id watcher in
  if is_nullish (has s !! id) then
    let s := set_has (<[id := HasTrue]> (has s)) s in
    let s :=
      if negb (flushing s) then set_queue (queue s ++ [watcher]) s
      else
        let p := scan_back (queue s) (index s) id (length (queue s)) in
        set_queue (splice_in p watcher (queue s)) s in
    if negb (waiting s) then
      let s := set_waiting true s in
      if negb (production cfg) && negb (async cfg) then flushRec s
      else Done (emit EvNextTick s)
    else Done s
  else Done s.

Definition call (c : Call) (s : Sched) : Outcome Sched :=
  match c with
  | QueueWatcher w => queueWatcher w s
  | QueueActivatedComponent c => Done (queueActivatedComponent c s)
  end.

Fixpoint callAll (cs : list Call) (s : Sched) : Outcome Sched :=
  match cs with
  | [] => Done s
  | c :: cs => obind (call c s) (callAll cs)
  end.

(** What happens after [watcher.run()] returned, at the end of an
    iteration: the circular-update check, then [index++] or [break]. *)
Definition after_run (watcher : Watcher) (s : Sched) : Sched * bool :=
  let id := id watcher in
  if negb (production cfg) && negb (is_nullish (has s !! id)) then
    let c := (default O (circular s !! id) + 1)%nat in
    let s := set_circular (<[id := c]> (circular s)) s in
    if (MAX_UPDATE_COUNT <? c)%nat
    then (emit (EvWarn (loop_message watcher) (vm watcher)) s, true)
    else (s, false)
  else (s, false).

(** The body of the loop up to and including [watcher.run()]. *)
Definition run_watcher (watcher : Watcher) (s : Sched) : Outcome Sched :=
  obind (match before watcher with
         | Some b => let s := emit (EvBefore watcher) s in
                     callAll (b (trace s)) s
         | None => Done s
         end) (fun s =>
  let s := set_has (<[id watcher := HasNull]> (has s)) s in
  let s := emit (EvRun watcher) s in
  callAll (run watcher (trace s)) s).

(** The loop [for (...; index < queue.length; index++)], from the test
    of its condition on. *)
Fixpoint flushLoop (fuel : nat) (s : Sched) : Outcome Sched :=
  match queue s !! index s with
  | None => Done s
  | Some watcher =>
      match fuel with
      | O => OutOfFuel s
      | S fuel =>
          obind (run_watcher watcher s) (fun s =>
          let '(s, stop) := after_run watcher s in
          if stop then Done s
          else flushLoop fuel (set_index (S (index s)) s))
      end
  end.

Definition flushBody (fuel : nat) (s : Sched) : Outcome Sched :=
  let s := set_flushing true s in
  let s := set_queue (sort_by_id (queue s)) s in
  obind (flushLoop fuel (set_index O s)) (fun s =>
  let activatedQueue := activatedChildren s in
  let updatedQueue := queue s in
  let s := resetSchedulerState cfg s in
  let s := callActivatedHooks activatedQueue s in
  let s := callUpdatedHooks updatedQueue s in
  Done (if devtools cfg then emit EvDevtoolsFlush s else s)).
End Body.

(** [flushSchedulerQueue], with the fuel of its loop and of the flushes
    nested in it. *)
Fixpoint flushSchedulerQueue (fuel : nat) (s : Sched) : Outcome Sched :=
  match fuel with
  | O => OutOfFuel s
  | S fuel => flushBody (flushSchedulerQueue fuel) fuel s
  end.

(** The exported [queueWatcher], called for each of [ws] in turn. *)
Definition enqueueAll (fuel : nat) (ws : list Watcher) (s : Sched) : Outcome Sched :=
  callAll (flushSchedulerQueue fuel) (map QueueWatcher ws) s.
End Flush.

(** The watchers run, in order, among a list of events. *)
Definition runs_of (evs : list Event) : list Watcher :=
  omap (fun e => match e with EvRun w => Some w | _ => None end) evs.

Definition warnings_of (evs : list Event) : list string :=
  omap (fun e => match e with EvWarn m _ => Some m | _ => None end) evs.

(** How often a watcher with the id [i] ran. *)
Definition run_count (i : Z) (evs : list Event) : nat :=
  length (filter (fun w => id w = i) (runs_of evs)).

(** How often the watcher [w] ran. *)
Definition times_run (w : Watcher) (evs : list Event) : nat :=
  length (filter (fun x => x = w) (runs_of evs)).

(** Between two flushes, before anything was enqueued. *)
Definition idle (s : Sched) : Prop :=
  queue s = [] /\ has s = ∅ /\ flushing s = false.

End Scheduler.

(** ** The intercepted array mutators ([array.js]) *)

Module ArrayMethods.

(** The entries of [methodsToPatch]. *)
Inductive Method := Push | Pop | Shift | Unshift | Splice | Sort | Reverse.

Definition methodsToPatch : list Method :=
  [Push; Pop; Shift; Unshift; Splice; Sort; Reverse].

Definition method_name (m : Method) : string :=
  match m with
  | Push => "push" | Pop => "pop" | Shift => "shift" | Unshift => "unshift"
  | Splice => "splice" | Sort => "sort" | Reverse => "reverse"
  end.

Section Mutator.
(** JavaScript values; the interceptor never inspects them. *)
Variable Value : Type.

(** [arrayProto[method]], the native operation cached as [original]: from
    the elements of [this] and the arguments to the elements of [this]
    afterwards and the value returned. *)
Variable original : Method -> list Value -> list Value -> list Value * Value.

(** What an intercepted call does to the collaborators of the array:
    the native operation, [ob.observeArray] and [ob.dep.notify]. *)
Inductive Event :=
| EvOriginal (m : Method) (args : list Value)
| EvObserveArray (inserted : list Value)
| EvNotify.

(** An observed array: its elements, and the events at its observer
    [this.__ob__], oldest first. *)
Record ObservedArray := {
  elements : list Value;
  events : list Event
}.

Definition emit (e : Event) (a : ObservedArray) : ObservedArray :=
  {| elements := elements a; events := events a ++ [e] |}.

(** The [switch (method)]: [inserted] stays [undefined] ([None]) unless
    the method is one of the three cases. *)
Definition inserted_of (method : Method) (args : list Value) : option (list Value) :=
  match method with
  | Push | Unshift => Some args
  | Splice => Some (drop 2 args)
  | _ => None
  end.

(** [function mutator (...args)] installed for [method]. *)
Definition mutator (method : Method) (args : list Value) (this : ObservedArray)
  : ObservedArray * Value :=
  let '(elems, result) := original method (elements this) args in
  let this := emit (EvOriginal method args)
                   {| elements := elems; events := events this |} in
  let inserted := inserted_of method args in
  let this := match inserted with
              | Some ins => emit (EvObserveArray ins) this  (* an array is truthy *)
              | None => this
              end in
  let this := emit EvNotify this in
  (this, result).
End Mutator.

Arguments EvOriginal {Value} m args.
Arguments EvObserveArray {Value} inserted.
Arguments EvNotify {Value}.
Arguments elements {Value} o.
Arguments events {Value} o.

(** The elements handed to [observeArray], and the number of notifications,
    among a list of events. *)
Definition observed_elements {Value} (evs : list (Event Value)) : list Value :=
  concat (omap (fun e => match e with EvObserveArray ins => Some ins | _ => None end) evs).

Definition notifications {Value} (evs : list (Event Value)) : nat :=
  length (omap (fun e => match e with EvNotify => Some tt | _ => None end) evs).

End ArrayMethods.

(** ** Resolution of async components ([resolve-async-component.js]) *)

Module AsyncComponent.

(** The base constructor [baseCtor] and the rendering contexts (consumers)
    are known by name only. *)
Definition Base := string.
Definition Context := nat.

(** What a producer hands to [resolve], or puts in the [error] and [loading]
    fields of its descriptor: a constructor function (not an object), a plain
    options object, or a module wrapper ([__esModule], or
    [Symbol.toStringTag === 'Module']) with its [default] export, if any. *)
#[warnings="-register-all"]
Inductive Raw :=
| RawCtor (name : string)
| RawOptions (name : string)
| RawModule (dflt : option Raw).

(** Component constructors: [base.extend(options)], or a value taken as it
    is. *)
Inductive Ctor :=
| Extend (base : Base) (options : Raw)
| AsIs (c : Raw).

(** Modelled from the spec: [isObject], [isDef], [isUndef], [isTrue] of
    core/util are not under src/; an object is any non-null value of type
    object (functions are not), and a value is defined when it is neither
    [undefined] nor [null]. *)
Definition isObject (c : Raw) : bool :=
  match c with
  | RawCtor _ => false
  | RawOptions _ | RawModule _ => true
  end.

Definition isDef {A} (v : option A) : bool :=
  match v with Some _ => true | None => false end.

Definition isUndef {A} (v : option A) : bool := negb (isDef v).

(** [ensureCtor]; the result is [undefined] ([None]) when a module wrapper
    has no default export. *)
Definition ensureCtor (comp : Raw) (base : Base) : option Ctor :=
  let comp := match comp with
              | RawModule d => d
              | _ => Some comp
              end in
  match comp with
  | Some c => Some (if isObject c then Extend base c else AsIs c)
  | None => None
  end.

Inductive Timer := LoadingTimer | TimeoutTimer.

#[global] Instance Timer_eq_dec : EqDecision Timer.
Proof. solve_decision. Defined.

(** What the resolver does to its collaborators. *)
Inductive Event :=
| EvInvoke                         (* factory(resolve, reject) *)
| EvForceUpdate (c : Context)      (* contexts[i].$forceUpdate() *)
| EvWarn (msg : string)            (* warn(msg) *)
| EvThen                           (* promise.then(resolve, reject) *)
| EvSetTimeout (t : Timer) (ms : Z).

(** The fields set on the factory function ([error] ... [contexts]); the
    variables of the closure made by the first call ([sync], [baseCtor] and
    the flags of the two run-once guards); the timers set and not yet fired;
    the events so far.  The closure variable [contexts] and
    [factory.contexts] are one array; it is never replaced, so one field
    stands for both.  [factory.error] and [factory.loading] are only ever
    [undefined] or [true]. *)
Record State := {
  error : bool;
  errorComp : option Ctor;
  resolved : option Ctor;
  loading : bool;
  loadingComp : option Ctor;
  contexts : option (list Context);
  sync : bool;
  baseCtor : Base;
  resolveCalled : bool;
  rejectCalled : bool;
  timers : list (Timer * Z);
  events : list Event
}.

Definition fresh : State :=
  {| error := false; errorComp := None; resolved := None; loading := false;
     loadingComp := None; contexts := None; sync := false;
     baseCtor := EmptyString; resolveCalled := false; rejectCalled := false;
     timers := []; events := [] |}.

Definition set_error (v : bool) (st : State) : State :=
  {| error := v; errorComp := errorComp st; resolved := resolved st;
     loading := loading st; loadingComp := loadingComp st;
     contexts := contexts st; sync := sync st; baseCtor := baseCtor st;
     resolveCalled := resolveCalled st; rejectCalled := rejectCalled st;
     timers := timers st; events := events st |}.

Definition set_errorComp (v : option Ctor) (st : State) : State :=
  {| error := error st; errorComp := v; resolved := resolved st;
     loading := loading st; loadingComp := loadingComp st;
     contexts := contexts st; sync := sync st; baseCtor := baseCtor st;
     resolveCalled := resolveCalled st; rejectCalled := rejectCalled st;
     timers := timers st; events := events st |}.

Definition set_resolved (v : option Ctor) (st : State) : State :=
  {| error := error st; errorComp := errorComp st; resolved := v;
     loading := loading st; loadingComp := loadingComp st;
     contexts := contexts st; sync := sync st; baseCtor := baseCtor st;
     resolveCalled := resolveCalled st; rejectCalled := rejectCalled st;
     timers := timers st; events := events st |}.

Definition set_loading (v : bool) (st : State) : State :=
  {| error := error st; errorComp := errorComp st; resolved := resolved st;
     loading := v; loadingComp := loadingComp st; contexts := contexts st;
     sync := sync st; baseCtor := baseCtor st;
     resolveCalled := resolveCalled st; rejectCalled := rejectCalled st;
     timers := timers st; events := events st |}.

Definition set_loadingComp (v : option Ctor) (st : State) : State :=
  {| error := error st; errorComp := errorComp st; resolved := resolved st;
     loading := loading st; loadingComp := v; contexts := contexts st;
     sync := sync st; baseCtor := baseCtor st;
     resolveCalled := resolveCalled st; rejectCalled := rejectCalled st;
     timers := timers st; events := events st |}.

Definition set_contexts (v : option (list Context)) (st : State) : State :=
  {| error := error st; errorComp := errorComp st; resolved := resolved st;
     loading := loading st; loadingComp := loadingComp st; contexts := v;
     sync := sync st; baseCtor := baseCtor st;
     resolveCalled := resolveCalled st; rejectCalled := rejectCalled st;
     timers := timers st; events := events st |}.

Definition set_sync (v : bool) (st : State) : State :=
  {| error := error st; errorComp := errorComp st; resolved := resolved st;
     loading := loading st; loadingComp := loadingComp st;
     contexts := contexts st; sync := v; baseCtor := baseCtor st;
     resolveCalled := resolveCalled st; rejectCalled := rejectCalled st;
     timers := timers st; events := events st |}.

Definition set_baseCtor (v : Base) (st : State) : State :=
  {| error := error st; errorComp := errorComp st; resolved := resolved st;
     loading := loading st; loadingComp := loadingComp st;
     contexts := contexts st; sync := sync st; baseCtor := v;
     resolveCalled := resolveCalled st; rejectCalled := rejectCalled st;
     timers := timers st; events := events st |}.

Definition set_resolveCalled (v : bool) (st : State) : State :=
  {| error := error st; errorComp := errorComp st; resolved := resolved st;
     loading := loading st; loadingComp := loadingComp st;
     contexts := contexts st; sync := sync st; baseCtor := baseCtor st;
     resolveCalled := v; rejectCalled := rejectCalled st;
     timers := timers st; events := events st |}.

Definition set_rejectCalled (v : bool) (st : State) : State :=
  {| error := error st; errorComp := errorComp st; resolved := resolved st;
     loading := loading st; loadingComp := loadingComp st;
     contexts := contexts st; sync := sync st; baseCtor := baseCtor st;
     resolveCalled := resolveCalled st; rejectCalled := v;
     timers := timers st; events := events st |}.

Definition set_timers (v : list (Timer * Z)) (st : State) : State :=
  {| error := error st; errorComp := errorComp st; resolved := resolved st;
     loading := loading st; loadingComp := loadingComp st;
     contexts := contexts st; sync := sync st; baseCtor := baseCtor st;
     resolveCalled := resolveCalled st; rejectCalled := rejectCalled st;
     timers := v; events := events st |}.

Definition set_events (v : list Event) (st : State) : State :=
  {| error := error st; errorComp := errorComp st; resolved := resolved st;
     loading := loading st; loadingComp := loadingComp st;
     contexts := contexts st; sync := sync st; baseCtor := baseCtor st;
     resolveCalled := resolveCalled st; rejectCalled := rejectCalled st;
     timers := timers st; events := v |}.


Definition emit (e : Event) (st : State) : State :=
  set_events (events st ++ [e]) st.

(** What a producer does when it is called: the callbacks it calls before
    it returns, and the value it returns. *)
Inductive Callback :=
| CbResolve (res : Raw)
| CbReject (reason : option string).

(** The resource descriptor [{ component, error, loading, delay, timeout }]
    with [component] a promise; [delay] and [timeout] in whole
    milliseconds. *)
Record Descriptor := {
  d_error : option Raw;
  d_loading : option Raw;
  d_delay : option Z;
  d_timeout : option Z
}.

Inductive Returned :=
| RetOther                          (* no object, or an object of neither shape *)
| RetPromise                        (* isPromise(res) *)
| RetDescriptor (d : Descriptor).   (* isPromise(res.component) *)

Record Producer := {
  pname : string;                   (* String(factory) *)
  syncCalls : list Callback;
  returned : Returned
}.

Definition newline : string := String (Ascii.ascii_of_nat 10) EmptyString.

(** A reason is truthy unless it is absent or the empty string. *)
Definition truthy_reason (reason : option string) : option string :=
  match reason with
  | Some EmptyString | None => None
  | Some r => Some r
  end.

Definition fail_message (name : string) (reason : option string) : string :=
  "Failed to resolve async component: " +:+ name +:+
  match truthy_reason reason with
  | Some r => newline +:+ "Reason: " +:+ r
  | None => EmptyString
  end.

(** [`${n}`], the text of the number [n] in a template literal.  How a
    number is written is the JS engine's business, not the resolver's (the
    digits of a small integer; an exponent from 1e21 on), so it is left
    open. *)
Class NumberText := number_text : Z -> string.

(** The reason given by the timeout timer:
    [process.env.NODE_ENV !== 'production' ? `timeout (${res.timeout}ms)` : null]. *)
Definition timeout_reason {NT : NumberText} (production : bool) (ms : Z)
  : option string :=
  if negb production
  then Some ("timeout (" +:+ number_text ms +:+ "ms)")
  else None.

(** Modelled from the spec: [once] of core/util is not under src/; it is the
    run-once guard of the completion and failure callbacks: only the first
    invocation of the guarded function has an effect. *)
Definition once (called : State -> bool) (mark : State -> State)
    (fn : State -> State) (st : State) : State :=
  if called st then st else fn (mark st).

Section Resolver.
Context {NT : NumberText}.
Variable production : bool.      (* process.env.NODE_ENV === 'production' *)
Variable factory : Producer.

(** [forceRender]; the length of [contexts] is read once, and
    [$forceUpdate] does not run the resolver. *)
Definition forceRender (renderCompleted : bool) (st : State) : State :=
  let st := foldl (fun st c => emit (EvForceUpdate c) st) st
                  (default [] (contexts st)) in
  if renderCompleted then set_contexts (Some []) st else st.

Definition resolve (res : Raw) : State -> State :=
  once resolveCalled (set_resolveCalled true) (fun st =>
    let st := set_resolved (ensureCtor res (baseCtor st)) st in
    if negb (sync st) then forceRender true st
    else set_contexts (Some []) st).

Definition reject (reason : option string) : State -> State :=
  once rejectCalled (set_rejectCalled true) (fun st =>
    let st := if negb production
              then emit (EvWarn (fail_message (pname factory) reason)) st
              else st in
    if isDef (errorComp st) then forceRender true (set_error true st)
    else st).

Definition callback (cb : Callback) : State -> State :=
  match cb with
  | CbResolve res => resolve res
  | CbReject reason => reject reason
  end.

Definition setTimeout (t : Timer) (ms : Z) (st : State) : State :=
  emit (EvSetTimeout t ms) (set_timers (timers st ++ [(t, ms)]) st).

(** The callback of the loading timer. *)
Definition loading_timer (st : State) : State :=
  if isUndef (resolved st) && negb (error st)
  then forceRender false (set_loading true st)
  else st.

(** The callback of the timeout timer set with [res.timeout = ms]. *)
Definition timeout_timer (ms : Z) (st : State) : State :=
  if isUndef (resolved st) then reject (timeout_reason production ms) st
  else st.

(** The part of [resolveAsyncComponent] after [const res = factory(...)],
    up to [sync = false]. *)
Definition after_factory (baseCtor : Base) (st : State) : State :=
  match returned factory with
  | RetOther => st
  | RetPromise =>
      if isUndef (resolved st) then emit EvThen st else st
  | RetDescriptor res =>
      let st := emit EvThen st in
      let st := match d_error res with
                | Some e => set_errorComp (ensureCtor e baseCtor) st
                | None => st
                end in
      let st := match d_loading res with
                | Some l =>
                    let st := set_loadingComp (ensureCtor l baseCtor) st in
                    match d_delay res with
                    | Some 0 => set_loading true st
                    | Some ms => setTimeout LoadingTimer ms st
                    | None => setTimeout LoadingTimer 200 st
                    end
                | None => st
                end in
      match d_timeout res with
      | Some ms => setTimeout TimeoutTimer ms st
      | None => st
      end
  end.

Definition resolveAsyncComponent (baseCtor : Base) (context : Context)
    (st : State) : State * option Ctor :=
  if error st && isDef (errorComp st) then (st, errorComp st)
  else if isDef (resolved st) then (st, resolved st)
  else if loading st && isDef (loadingComp st) then (st, loadingComp st)
  else
    match contexts st with
    | Some cs =>
        (* already pending *)
        (set_contexts (Some (cs ++ [context])) st, None)
    | None =>
        let st := set_contexts (Some [context]) st in
        let st := set_sync true (set_baseCtor baseCtor st) in
        (* const resolve = once(...), const reject = once(...) *)
        let st := set_resolveCalled false (set_rejectCalled false st) in
        (* const res = factory(resolve, reject) *)
        let st := emit EvInvoke st in
        let st := foldl (fun st cb => callback cb st) st (syncCalls factory) in
        let st := after_factory baseCtor st in
        let st := set_sync false st in
        (st, if loading st then loadingComp st else resolved st)
    end.

(** A timer set earlier fires: it leaves the pending timers and its
    callback runs. *)
Fixpoint take_timer (t : Timer) (ts : list (Timer * Z))
  : option (Z * list (Timer * Z)) :=
  match ts with
  | [] => None
  | (t', ms) :: ts =>
      if bool_decide (t = t') then Some (ms, ts)
      else match take_timer t ts with
           | Some (ms', ts') => Some (ms', (t', ms) :: ts')
           | None => None
           end
  end.

Definition fire (t : Timer) (st : State) : State :=
  match take_timer t (timers st) with
  | Some (ms, ts) =>
      let st := set_timers ts st in
      match t with
      | LoadingTimer => loading_timer st
      | TimeoutTimer => timeout_timer ms st
      end
  | None => st
  end.

(** What can happen to a producer over time: a render asks for it, one of
    the two callbacks is called (by the producer itself or by the promise
    it returned), or a timer fires.  The callbacks exist once the producer
    has been called. *)
Inductive Action :=
| Request (baseCtor : Base) (context : Context)
| Resolve (res : Raw)
| Reject (reason : option string)
| Fire (t : Timer).

Definition step (st : State) (a : Action) : State :=
  match a with
  | Request baseCtor context => (resolveAsyncComponent baseCtor context st).1
  | Resolve res => if isDef (contexts st) then resolve res st else st
  | Reject reason => if isDef (contexts st) then reject reason st else st
  | Fire t => fire t st
  end.

Definition steps (st : State) (actions : list Action) : State :=
  foldl step st actions.
End Resolver.

(** The consumers asked to re-render, and the number of calls of the
    producer, among a list of events. *)
Definition forced (evs : list Event) : list Context :=
  omap (fun e => match e with EvForceUpdate c => Some c | _ => None end) evs.

Definition invocations (evs : list Event) : nat :=
  length (omap (fun e => match e with EvInvoke => Some tt | _ => None end) evs).

Definition warnings (evs : list Event) : list string :=
  omap (fun e => match e with EvWarn m => Some m | _ => None end) evs.

End AsyncComponent.


(** ** Concrete watchers, configurations and producers

    The inputs at which the properties below are evaluated. *)

Module Scenarios.
Import Scheduler.

Definition app : Component :=
  {| cname := "app"; _watcher := None; _isMounted := true;
     _isDestroyed := false; _inactive := false |}.

(** A user watcher with the given id. *)
Definition watcher (i : Z) : Watcher :=
  {| id := i; user := true; expression := "count"; vm := app |}.

(** The default development build, and the production build. *)
Definition dev : Config :=
  {| production := false; async := true; devtools := false |}.
Definition prod : Config :=
  {| production := true; async := true; devtools := false |}.

Definition no_before (w : Watcher) : option Behaviour := None.

(** Watchers that never call back into the scheduler. *)
Definition quiet : Watcher -> Behaviour := fun _ _ => [].

(** The watcher 5 enqueues the watchers 2 and 8 when it runs. *)
Definition five_enqueues_2_and_8 : Watcher -> Behaviour :=
  fun w _ =>
    if bool_decide (id w = 5)
    then [QueueWatcher (watcher 2); QueueWatcher (watcher 8)]
    else [].

(** Every watcher enqueues itself again whenever it runs. *)
Definition self_enqueue : Watcher -> Behaviour :=
  fun w _ => [QueueWatcher w].

(** The watcher 2 enqueues itself again whenever it runs; the other
    watchers enqueue nothing. *)
Definition second_enqueues_itself : Watcher -> Behaviour :=
  fun w _ => if bool_decide (id w = 2) then [QueueWatcher w] else [].

(** The state before the flush, after the watchers [ws] were enqueued, in
    that order, from the initial state. *)
Definition enqueued (cfg : Config) (ws : list Watcher) : Sched :=
  outcome_state (enqueueAll cfg quiet no_before 0 ws initial).

(** Watcher 5 is enqueued; the flush runs it, and it enqueues 2 and 8;
    then a second flush. *)
Definition mid_flush_first : Outcome Sched :=
  flushSchedulerQueue dev five_enqueues_2_and_8 no_before 10
    (enqueued dev [watcher 5]).

Definition mid_flush_second : Outcome Sched :=
  flushSchedulerQueue dev five_enqueues_2_and_8 no_before 10
    (outcome_state mid_flush_first).

(** The watchers run by the first flush, and those run by the second. *)
Definition first_runs : list Watcher :=
  runs_of (trace (outcome_state mid_flush_first)).

Definition second_runs : list Watcher :=
  drop (length first_runs) (runs_of (trace (outcome_state mid_flush_second))).

(** The watcher 1 enqueues itself again whenever it runs. *)
Definition first_enqueues_itself : Watcher -> Behaviour :=
  fun w _ => if bool_decide (id w = 1) then [QueueWatcher w] else [].

(** The watcher 3 enqueues the watcher 2 when it runs. *)
Definition three_enqueues_2 : Watcher -> Behaviour :=
  fun w _ => if bool_decide (id w = 3) then [QueueWatcher (watcher 2)] else [].

(** Watcher 2 is enqueued twice and watcher 1 once, then the flush, with
    watcher 1 enqueueing itself. *)
Definition dedup_then_abort : Outcome Sched :=
  flushSchedulerQueue dev first_enqueues_itself no_before 200
    (enqueued dev [watcher 2; watcher 2; watcher 1]).

(** Watcher 2 is enqueued twice and watcher 3 once, then the flush, with
    watcher 3 enqueueing watcher 2. *)
Definition dedup_then_requeue : Outcome Sched :=
  flushSchedulerQueue dev three_enqueues_2 no_before 10
    (enqueued dev [watcher 2; watcher 2; watcher 3]).

(** The watchers 6 and 7 enqueue each other when they run. *)
Definition ping_pong : Watcher -> Behaviour :=
  fun w _ =>
    if bool_decide (id w = 6) then [QueueWatcher (watcher 7)]
    else if bool_decide (id w = 7) then [QueueWatcher (watcher 6)]
    else [].

(** The watchers 6 and 8 are enqueued, then the flush, in the development
    build. *)
Definition ping_pong_flush (fuel : nat) : Outcome Sched :=
  flushSchedulerQueue dev ping_pong no_before fuel
    (enqueued dev [watcher 6; watcher 8]).

(** A flush under way: the watchers 3 and 5 have been taken from the queue,
    5 is running, 9 is still to run. *)
Definition running_5 : Sched :=
  {| queue := [watcher 3; watcher 5; watcher 9];
     activatedChildren := [];
     has := {[ 3 := HasNull; 5 := HasNull; 9 := HasTrue ]};
     circular := ∅;
     waiting := true; flushing := true; index := 1;
     trace := [EvNextTick; EvRun (watcher 3); EvRun (watcher 5)] |}.

(** A flush of one self-enqueueing watcher, in the production build. *)
Definition self_loop_in_production (fuel : nat) : Outcome Sched :=
  flushSchedulerQueue prod self_enqueue no_before fuel
    (enqueued prod [watcher 1]).

End Scenarios.

(** Producers of async components and what happens to them. *)
Module AsyncScenarios.
Import AsyncComponent.

Definition compA : Raw := RawOptions "A".
Definition compB : Raw := RawOptions "B".
Definition loadingView : Raw := RawOptions "Loading".
Definition errorView : Raw := RawOptions "Error".

(** [(resolve, reject) => { ... }]: the callbacks are kept for later. *)
Definition plain : Producer :=
  {| pname := "AsyncComp"; syncCalls := []; returned := RetOther |}.

(** [() => ({ component: promise, loading: Loading, delay })] *)
Definition with_loading (delay : option Z) : Producer :=
  {| pname := "AsyncComp"; syncCalls := [];
     returned := RetDescriptor {| d_error := None; d_loading := Some loadingView;
                                  d_delay := delay; d_timeout := None |} |}.

(** [() => ({ component: promise, error: Error, timeout: 100 })] *)
Definition with_error : Producer :=
  {| pname := "AsyncComp"; syncCalls := [];
     returned := RetDescriptor {| d_error := Some errorView; d_loading := None;
                                  d_delay := None; d_timeout := Some 100 |} |}.

(** [(resolve) => resolve(A)]: the producer completes before it returns. *)
Definition immediate : Producer :=
  {| pname := "AsyncComp"; syncCalls := [CbResolve compA]; returned := RetOther |}.

(** The numbers of the producers above are small integers, which are
    written with their decimal digits. *)
#[export] Instance digits : NumberText := fun n => pretty n.

(** The development build is meant throughout. *)
Definition run (factory : Producer) (actions : list Action) : State :=
  steps false factory fresh actions.

End AsyncScenarios.
(** * Properties of the scheduler *)

Module SchedulerProps.
Import Scheduler.

(** ** The sort before a flush *)

Definition id_le (a b : Watcher) : Prop := (id a <= id b)%Z.

Lemma sort_insert_perm w l : Permutation (sort_insert w l) (w :: l).
Proof.
  induction l as [|x r IH]; simpl; [done|].
  destruct (id w <=? id x)%Z; [done|].
  rewrite IH. apply perm_swap.
Qed.

Lemma sort_by_id_perm l : Permutation (sort_by_id l) l.
Proof.
  induction l as [|x r IH]; simpl; [done|].
  rewrite sort_insert_perm. by constructor.
Qed.

Lemma sort_insert_hd w l x :
  HdRel id_le x l -> id_le x w -> HdRel id_le x (sort_insert w l).
Proof.
  intros Hl Hw. destruct l as [|y r]; simpl; [by constructor|].
  destruct (id w <=? id y)%Z; constructor; [done|].
  by inversion Hl.
Qed.

Lemma sort_insert_sorted w l :
  Sorted id_le l -> Sorted id_le (sort_insert w l).
Proof.
  induction 1 as [|x r Hs IH Hhd]; simpl.
  - repeat constructor.
  - destruct (id w <=? id x)%Z eqn:E.
    + apply Z.leb_le in E. repeat constructor; done.
    + apply Z.leb_gt in E. constructor; [done|].
      apply sort_insert_hd; [done|]. unfold id_le. lia.
Qed.

Lemma sort_by_id_sorted l : Sorted id_le (sort_by_id l).
Proof.
  induction l; simpl; [constructor|]. by apply sort_insert_sorted.
Qed.

Lemma sort_by_id_length l : length (sort_by_id l) = length l.
Proof. apply Permutation_length, sort_by_id_perm. Qed.

(** ** Events *)

Lemma runs_of_app a b : runs_of (a ++ b) = runs_of a ++ runs_of b.
Proof. apply omap_app. Qed.

Lemma warnings_of_app a b : warnings_of (a ++ b) = warnings_of a ++ warnings_of b.
Proof. apply omap_app. Qed.

Lemma callActivatedHooks_trace a s :
  exists evs, trace (callActivatedHooks a s) = trace s ++ evs
              /\ runs_of evs = [] /\ warnings_of evs = [].
Proof.
  unfold callActivatedHooks. revert s.
  induction a as [|c a IH]; intros s; simpl.
  - exists []. by rewrite app_nil_r.
  - destruct (IH (emit (EvActivated
        {| cname := cname c; _watcher := _watcher c; _isMounted := _isMounted c;
           _isDestroyed := _isDestroyed c; _inactive := true |}) s))
      as (evs & -> & Hr & Hw).
    eexists (_ :: evs). simpl. rewrite <- app_assoc. split; [done|].
    by rewrite <- Hr, <- Hw.
Qed.

Lemma callUpdatedHooks_trace q s :
  exists evs, trace (callUpdatedHooks q s) = trace s ++ evs
              /\ runs_of evs = [] /\ warnings_of evs = [].
Proof.
  unfold callUpdatedHooks. generalize (reverse q) as l. intros l. revert s.
  induction l as [|w l IH]; intros s; simpl.
  - exists []. by rewrite app_nil_r.
  - destruct (is_render_watcher_of_live_vm w); [|apply IH].
    destruct (IH (emit (EvUpdated (vm w)) s)) as (evs & -> & Hr & Hw).
    eexists (_ :: evs). simpl. rewrite <- app_assoc. split; [done|].
    by rewrite <- Hr, <- Hw.
Qed.

Lemma callActivatedHooks_fields a s :
  queue (callActivatedHooks a s) = queue s
  /\ has (callActivatedHooks a s) = has s
  /\ waiting (callActivatedHooks a s) = waiting s
  /\ flushing (callActivatedHooks a s) = flushing s
  /\ circular (callActivatedHooks a s) = circular s.
Proof.
  unfold callActivatedHooks. revert s.
  induction a as [|c a IH]; intros s; simpl; [done|].
  by destruct (IH (emit (EvActivated
        {| cname := cname c; _watcher := _watcher c; _isMounted := _isMounted c;
           _isDestroyed := _isDestroyed c; _inactive := true |}) s))
      as (-> & -> & -> & -> & ->).
Qed.

Lemma callUpdatedHooks_fields q s :
  queue (callUpdatedHooks q s) = queue s
  /\ has (callUpdatedHooks q s) = has s
  /\ waiting (callUpdatedHooks q s) = waiting s
  /\ flushing (callUpdatedHooks q s) = flushing s
  /\ circular (callUpdatedHooks q s) = circular s.
Proof.
  unfold callUpdatedHooks. generalize (reverse q) as l. intros l. revert s.
  induction l as [|w l IH]; intros s; simpl; [done|].
  destruct (is_render_watcher_of_live_vm w); [|apply IH].
  by destruct (IH (emit (EvUpdated (vm w)) s)) as (-> & -> & -> & -> & ->).
Qed.

(** ** The backward scan and the insertion of [queueWatcher] *)

Lemma scan_back_le q idx wid p : (scan_back q idx wid p <= p)%nat.
Proof.
  induction p as [|i IH]; simpl; [lia|].
  destruct (idx <? i)%nat; [|lia].
  destruct (q !! i); [|lia].
  destruct (wid <? id w)%Z; lia.
Qed.

Lemma scan_back_after_cursor q idx wid p :
  (idx < p)%nat -> (idx < scan_back q idx wid p)%nat.
Proof.
  induction p as [|i IH]; simpl; [lia|]. intros Hp.
  destruct (idx <? i)%nat eqn:E; [|lia].
  apply Nat.ltb_lt in E.
  destruct (q !! i); [|lia].
  destruct (wid <? id w)%Z; [auto|lia].
Qed.

(** Everything the scan passed over has a larger id. *)
Lemma scan_back_passed q idx wid p j x :
  (scan_back q idx wid p <= j < p)%nat -> q !! j = Some x -> (wid < id x)%Z.
Proof.
  induction p as [|i IH]; simpl; [lia|]. intros Hj Hx.
  destruct (idx <? i)%nat eqn:E; [|lia].
  destruct (q !! i) as [qi|] eqn:Hi; [|lia].
  destruct (wid <? id qi)%Z eqn:Hlt; [|lia].
  destruct (decide (j = i)) as [->|Hne].
  - rewrite Hi in Hx. injection Hx as <-. by apply Z.ltb_lt.
  - apply IH; [lia|done].
Qed.

(** Where the scan stops: right after the cursor, or right after a watcher
    whose id is not larger. *)
Lemma scan_back_stop q idx wid p :
  (idx < p <= length q)%nat ->
  scan_back q idx wid p = S idx
  \/ exists y, (idx < scan_back q idx wid p - 1)%nat
               /\ q !! (scan_back q idx wid p - 1)%nat = Some y
               /\ (id y <= wid)%Z.
Proof.
  induction p as [|i IH]; simpl; [lia|]. intros Hp.
  destruct (idx <? i)%nat eqn:E.
  - apply Nat.ltb_lt in E.
    destruct (q !! i) as [qi|] eqn:Hi.
    + destruct (wid <? id qi)%Z eqn:Hlt.
      * apply IH. lia.
      * right. exists qi. simpl. rewrite Nat.sub_0_r.
        split; [done|]. split; [done|]. apply Z.ltb_ge in Hlt. lia.
    + apply lookup_ge_None in Hi. lia.
  - apply Nat.ltb_ge in E. left. f_equal. lia.
Qed.

Lemma splice_in_length p w q : length (splice_in p w q) = S (length q).
Proof.
  unfold splice_in. rewrite length_app. simpl.
  rewrite <- (take_drop p q) at 3. rewrite length_app. lia.
Qed.

Lemma splice_in_take k p w q :
  (k <= p <= length q)%nat -> take k (splice_in p w q) = take k q.
Proof.
  intros H. unfold splice_in.
  rewrite take_app_le by (rewrite length_take; lia).
  rewrite take_take. f_equal. lia.
Qed.

Lemma splice_in_drop k p w q :
  (k <= p <= length q)%nat ->
  drop k (splice_in p w q) = take (p - k) (drop k q) ++ w :: drop p q.
Proof.
  intros H. unfold splice_in.
  rewrite drop_app_le by (rewrite length_take; lia).
  rewrite take_drop_commute. by replace (k + (p - k))%nat with p by lia.
Qed.

Lemma splice_in_sublist k p w q :
  (k <= p <= length q)%nat -> drop k q `sublist_of` drop k (splice_in p w q).
Proof.
  intros H. rewrite splice_in_drop by done.
  rewrite <- (take_drop (p - k) (drop k q)) at 1.
  apply sublist_app; [done|].
  rewrite drop_drop. replace (k + (p - k))%nat with p by lia.
  by apply sublist_cons.
Qed.

Lemma splice_in_lookup p w q : (p <= length q)%nat -> splice_in p w q !! p = Some w.
Proof.
  intros H. unfold splice_in.
  rewrite lookup_app_r by (rewrite length_take; lia).
  rewrite length_take. by replace (p - p `min` length q)%nat with O by lia.
Qed.

(** ** Calls into the scheduler while a flush is scheduled or running

    While [waiting] is set, [queueWatcher] starts no flush: it only marks
    the id and puts the watcher in the queue, behind the cursor when a flush
    is running. *)

Record extends (s s' : Sched) : Prop := {
  ext_waiting : waiting s' = true;
  ext_flushing : flushing s' = flushing s;
  ext_index : index s' = index s;
  ext_circular : circular s' = circular s;
  ext_trace : trace s' = trace s;
  ext_has : forall i, has s !! i = Some HasTrue -> has s' !! i = Some HasTrue;
  ext_length : (length (queue s) <= length (queue s'))%nat;
  ext_prefix :
    (index s < length (queue s))%nat ->
    take (S (index s)) (queue s') = take (S (index s)) (queue s);
  ext_pending :
    (index s < length (queue s))%nat ->
    drop (S (index s)) (queue s) `sublist_of` drop (S (index s)) (queue s')
}.

Lemma extends_refl s : waiting s = true -> extends s s.
Proof. intros H. by split. Qed.

Lemma extends_trans s1 s2 s3 : extends s1 s2 -> extends s2 s3 -> extends s1 s3.
Proof.
  intros [] []. split; try congruence; auto.
  - lia.
  - intros L. rewrite <- ext_prefix0 by done.
    rewrite <- ext_index0. apply ext_prefix1. lia.
  - intros L. etrans; [by apply ext_pending0|].
    rewrite <- ext_index0. apply ext_pending1. lia.
Qed.

Section Calls.
Variable cfg : Config.
Variable flushRec : Sched -> Outcome Sched.

Lemma queueWatcher_extends w s :
  waiting s = true ->
  exists s', queueWatcher cfg flushRec w s = Done s'
             /\ extends s s' /\ has s' !! id w = Some HasTrue.
Proof.
  intros W. unfold queueWatcher.
  destruct (is_nullish (has s !! id w)) eqn:N.
  - simpl. destruct (flushing s) eqn:F; simpl; rewrite W; simpl;
      eexists; (split; [reflexivity|]);
      (split; [|simpl; apply lookup_insert_eq]);
      split; simpl; try done.
    all: try (intros i Hi; destruct (decide (id w = i)) as [->|Hne];
              [apply lookup_insert_eq|by rewrite lookup_insert_ne]).
    all: try (rewrite splice_in_length; lia).
    all: try (rewrite length_app; lia).
    all: intros L;
      pose proof (scan_back_after_cursor (queue s) (index s) (id w) _ L);
      pose proof (scan_back_le (queue s) (index s) (id w) (length (queue s))).
    + apply splice_in_take. lia.
    + apply splice_in_sublist. lia.
    + by rewrite take_app_le by lia.
    + rewrite drop_app_le by lia. by apply sublist_inserts_r.
  - exists s. split; [done|]. split; [by apply extends_refl|].
    destruct (has s !! id w) as [[]|]; done.
Qed.

Lemma call_extends c s :
  waiting s = true ->
  exists s', call cfg flushRec c s = Done s' /\ extends s s'
             /\ forall w, c = QueueWatcher w -> has s' !! id w = Some HasTrue.
Proof.
  intros W. destruct c as [w|c]; simpl.
  - destruct (queueWatcher_extends w s W) as (s' & E & X & H).
    exists s'. split; [done|]. split; [done|]. by intros ? [= <-].
  - eexists. split; [done|]. split; [|done]. by split.
Qed.

Lemma callAll_extends cs s :
  waiting s = true ->
  exists s', callAll cfg flushRec cs s = Done s' /\ extends s s'
             /\ forall w, QueueWatcher w ∈ cs -> has s' !! id w = Some HasTrue.
Proof.
  revert s. induction cs as [|c cs IH]; intros s W; simpl.
  - exists s. split; [done|]. split; [by apply extends_refl|].
    intros w Hw. by apply elem_of_nil in Hw.
  - destruct (call_extends c s W) as (s1 & -> & X1 & H1). simpl.
    destruct (IH s1 (ext_waiting _ _ X1)) as (s2 & -> & X2 & H2).
    exists s2. split; [done|]. split; [by eapply extends_trans|].
    intros w Hw. apply elem_of_cons in Hw as [Hc|Hw]; [|by apply H2].
    apply (ext_has _ _ X2). apply H1. by symmetry.
Qed.
End Calls.

(** ** One iteration of the flush loop *)

(** What [before] and [run] of the watcher at the cursor leave behind, when
    a flush is scheduled (as it is whenever the loop runs). *)
Record ran (run : Watcher -> Behaviour) (w : Watcher) (s s' : Sched) : Prop := {
  ran_waiting : waiting s' = true;
  ran_flushing : flushing s' = flushing s;
  ran_index : index s' = index s;
  ran_circular : circular s' = circular s;
  ran_trace : exists evs, trace s' = trace s ++ evs
                          /\ runs_of evs = [w] /\ warnings_of evs = [];
  ran_self : (forall h, QueueWatcher w ∈ run w h) -> has s' !! id w = Some HasTrue;
  ran_length : (length (queue s) <= length (queue s'))%nat;
  ran_prefix :
    (index s < length (queue s))%nat ->
    take (S (index s)) (queue s') = take (S (index s)) (queue s);
  ran_pending :
    (index s < length (queue s))%nat ->
    drop (S (index s)) (queue s) `sublist_of` drop (S (index s)) (queue s')
}.

Section Iteration.
Variable cfg : Config.
Variable run : Watcher -> Behaviour.
Variable before : Watcher -> option Behaviour.
Variable flushRec : Sched -> Outcome Sched.

Lemma flushLoop_unfold fuel s :
  flushLoop cfg run before flushRec fuel s =
  match queue s !! index s with
  | None => Done s
  | Some watcher =>
      match fuel with
      | O => OutOfFuel s
      | S fuel =>
          obind (run_watcher cfg run before flushRec watcher s) (fun s =>
          let '(s, stop) := after_run cfg watcher s in
          if stop then Done s
          else flushLoop cfg run before flushRec fuel (set_index (S (index s)) s))
      end
  end.
Proof. by destruct fuel. Qed.

Lemma run_watcher_ran w s :
  waiting s = true ->
  exists s', run_watcher cfg run before flushRec w s = Done s' /\ ran run w s s'.
Proof.
  intros W. unfold run_watcher.
  match goal with |- context [obind ?m _] => set (mm := m) end.
  assert (exists s1 evs1, mm = Done s1
            /\ trace s1 = trace s ++ evs1 /\ runs_of evs1 = []
            /\ warnings_of evs1 = [] /\ waiting s1 = true
            /\ flushing s1 = flushing s /\ index s1 = index s
            /\ circular s1 = circular s
            /\ (length (queue s) <= length (queue s1))%nat
            /\ ((index s < length (queue s))%nat ->
                take (S (index s)) (queue s1) = take (S (index s)) (queue s))
            /\ ((index s < length (queue s))%nat ->
                drop (S (index s)) (queue s) `sublist_of`
                drop (S (index s)) (queue s1)))
    as (s1 & evs1 & -> & T1 & R1 & N1 & W1 & F1 & I1 & C1 & L1 & P1 & D1).
  { subst mm. destruct (before w) as [b|].
    - simpl.
      destruct (callAll_extends cfg flushRec (b (trace s ++ [EvBefore w]))
                  (emit (EvBefore w) s) W) as (s1 & E & [] & _).
      exists s1, [EvBefore w]. simpl in *. by rewrite E.
    - exists s, []. rewrite app_nil_r. by repeat split. }
  cbn [obind].
  set (s2 := emit (EvRun w) (set_has (<[id w:=HasNull]> (has s1)) s1)).
  destruct (callAll_extends cfg flushRec (run w (trace s2)) s2 W1)
    as (s3 & -> & [] & H3).
  exists s3. split; [done|]. simpl in *.
  split; try congruence.
  - exists (evs1 ++ [EvRun w]). rewrite ext_trace0, T1, app_assoc.
    split; [done|]. rewrite runs_of_app, warnings_of_app, R1, N1. done.
  - intros Hself. apply H3, Hself.
  - lia.
  - intros L. rewrite <- P1 by done. rewrite <- I1.
    apply ext_prefix0. lia.
  - intros L. etrans; [by apply D1|]. rewrite <- I1.
    apply ext_pending0. lia.
Qed.
End Iteration.

(** ** A flush in which no watcher calls back into the scheduler *)

Section Quiet.
Variable cfg : Config.
Variable run : Watcher -> Behaviour.
Variable before : Watcher -> option Behaviour.
Variable flushRec : Sched -> Outcome Sched.
Hypothesis run_quiet : forall w h, run w h = [].
Hypothesis before_quiet : forall w b h, before w = Some b -> b h = [].

Lemma run_watcher_quiet w s :
  exists s', run_watcher cfg run before flushRec w s = Done s'
    /\ queue s' = queue s /\ index s' = index s
    /\ activatedChildren s' = activatedChildren s
    /\ has s' !! id w = Some HasNull
    /\ exists evs, trace s' = trace s ++ evs
                   /\ runs_of evs = [w] /\ warnings_of evs = [].
Proof.
  unfold run_watcher. destruct (before w) as [b|] eqn:B.
  - cbn [obind]. rewrite (before_quiet w b _ B). cbn [callAll obind].
    rewrite run_quiet. cbn [callAll].
    eexists. split; [done|]. simpl. repeat split.
    + apply lookup_insert_eq.
    + exists [EvBefore w; EvRun w]. by rewrite <- app_assoc.
  - cbn [obind]. rewrite run_quiet. cbn [callAll].
    eexists. split; [done|]. simpl. repeat split.
    + apply lookup_insert_eq.
    + by exists [EvRun w].
Qed.

Lemma after_run_null w s :
  has s !! id w = Some HasNull -> after_run cfg w s = (s, false).
Proof.
  intros H. unfold after_run. rewrite H. simpl.
  by rewrite andb_false_r.
Qed.

Lemma flushLoop_quiet fuel s :
  (length (queue s) - index s <= fuel)%nat ->
  exists s', flushLoop cfg run before flushRec fuel s = Done s'
    /\ queue s' = queue s
    /\ activatedChildren s' = activatedChildren s
    /\ exists evs, trace s' = trace s ++ evs
                   /\ runs_of evs = drop (index s) (queue s)
                   /\ warnings_of evs = [].
Proof.
  revert s. induction fuel as [|fuel IH]; intros s Hf;
    rewrite flushLoop_unfold;
    destruct (queue s !! index s) as [w|] eqn:Hw.
  - apply lookup_lt_Some in Hw. lia.
  - exists s. repeat split. exists []. rewrite app_nil_r.
    apply lookup_ge_None in Hw. by rewrite drop_ge.
  - destruct (run_watcher_quiet w s)
      as (s1 & -> & Q1 & I1 & A1 & H1 & evs1 & T1 & R1 & N1).
    cbn [obind]. rewrite (after_run_null _ _ H1).
    destruct (IH (set_index (S (index s1)) s1))
      as (s2 & -> & Q2 & A2 & evs2 & T2 & R2 & N2).
    { simpl. rewrite Q1, I1. lia. }
    simpl in *. exists s2. split; [done|].
    split; [congruence|]. split; [congruence|].
    exists (evs1 ++ evs2). rewrite T2, T1, app_assoc.
    split; [done|].
    rewrite runs_of_app, warnings_of_app, R1, R2, N1, N2, Q1, I1.
    split; [|done]. simpl. symmetry. by apply drop_S.
  - exists s. repeat split. exists []. rewrite app_nil_r.
    apply lookup_ge_None in Hw. by rewrite drop_ge.
Qed.

Lemma flushBody_quiet fuel s :
  (length (queue s) <= fuel)%nat ->
  exists s', flushBody cfg run before flushRec fuel s = Done s'
    /\ queue s' = [] /\ has s' = ∅
    /\ waiting s' = false /\ flushing s' = false
    /\ exists evs, trace s' = trace s ++ evs
                   /\ runs_of evs = sort_by_id (queue s)
                   /\ warnings_of evs = [].
Proof.
  intros Hf. unfold flushBody.
  destruct (flushLoop_quiet fuel
              (set_index 0 (set_queue
                              (sort_by_id (queue (set_flushing true s)))
                              (set_flushing true s))))
    as (s1 & -> & Q1 & A1 & evs1 & T1 & R1 & N1).
  { simpl. rewrite sort_by_id_length. lia. }
  cbn [obind]. simpl in Q1, A1, T1, R1.
  set (s2 := resetSchedulerState cfg s1).
  destruct (callActivatedHooks_trace (activatedChildren s1) s2)
    as (evs2 & T2 & R2 & N2).
  destruct (callActivatedHooks_fields (activatedChildren s1) s2)
    as (Q2 & H2 & W2 & F2 & _).
  set (s3 := callActivatedHooks (activatedChildren s1) s2) in *.
  destruct (callUpdatedHooks_trace (queue s1) s3) as (evs3 & T3 & R3 & N3).
  destruct (callUpdatedHooks_fields (queue s1) s3) as (Q3 & H3 & W3 & F3 & _).
  set (s4 := callUpdatedHooks (queue s1) s3) in *.
  exists (if devtools cfg then emit EvDevtoolsFlush s4 else s4).
  split; [done|].
  assert (trace s4 = trace s ++ evs1 ++ evs2 ++ evs3) as T4.
  { rewrite T3, T2. subst s2. simpl. rewrite T1.
    by rewrite <- !app_assoc. }
  assert (runs_of (evs1 ++ evs2 ++ evs3) = sort_by_id (queue s)) as R4.
  { rewrite !runs_of_app, R1, R2, R3. by rewrite !app_nil_r. }
  assert (warnings_of (evs1 ++ evs2 ++ evs3) = []) as N4.
  { by rewrite !warnings_of_app, N1, N2, N3. }
  destruct (devtools cfg); simpl;
    (split; [by rewrite Q3, Q2|]); (split; [by rewrite H3, H2|]);
    (split; [by rewrite W3, W2|]); (split; [by rewrite F3, F2|]).
  - exists ((evs1 ++ evs2 ++ evs3) ++ [EvDevtoolsFlush]).
    split; [by rewrite T4, <- !app_assoc|].
    rewrite runs_of_app, warnings_of_app, R4, N4. simpl.
    by rewrite app_nil_r.
  - by exists (evs1 ++ evs2 ++ evs3).
Qed.

End Quiet.

Lemma flushSchedulerQueue_quiet cfg run before fuel s :
  (forall w h, run w h = []) ->
  (forall w b h, before w = Some b -> b h = []) ->
  (length (queue s) < fuel)%nat ->
  exists s', flushSchedulerQueue cfg run before fuel s = Done s'
    /\ queue s' = [] /\ has s' = ∅
    /\ waiting s' = false /\ flushing s' = false
    /\ exists evs, trace s' = trace s ++ evs
                   /\ runs_of evs = sort_by_id (queue s)
                   /\ warnings_of evs = [].
Proof.
  intros Hr Hb Hf. destruct fuel as [|f]; [lia|]. simpl.
  apply flushBody_quiet; [done|done|lia].
Qed.

(** ** Enqueueing between two flushes *)

(** The presence set and the queue agree, and no id is queued twice. *)
Definition tracked (s : Sched) : Prop :=
  flushing s = false
  /\ NoDup (map id (queue s))
  /\ forall i, is_nullish (has s !! i) = false <-> i ∈ map id (queue s).

Lemma idle_tracked s : idle s -> tracked s.
Proof.
  intros (Q & H & F). split; [done|]. rewrite Q, H.
  split; [constructor|]. intros i. rewrite lookup_empty. simpl.
  split; [done|]. intros X. by apply elem_of_nil in X.
Qed.

Section Deferred.
Variable cfg : Config.
Variable flushRec : Sched -> Outcome Sched.
Hypothesis deferred : production cfg || async cfg = true.

Lemma queueWatcher_present w s :
  has s !! id w = Some HasTrue -> queueWatcher cfg flushRec w s = Done s.
Proof. intros H. unfold queueWatcher. by rewrite H. Qed.

Lemma tracked_push w s s' :
  tracked s -> is_nullish (has s !! id w) = true ->
  flushing s' = false -> queue s' = queue s ++ [w] ->
  has s' = <[id w := HasTrue]> (has s) ->
  tracked s'
  /\ id w ∈ map id (queue s')
  /\ (forall x, x ∈ queue s' -> x ∈ queue s \/ x = w)
  /\ (forall i, i ∈ map id (queue s) -> i ∈ map id (queue s'))
  /\ (length (queue s') <= S (length (queue s)))%nat.
Proof.
  intros (F & ND & T) N F' Q' H'.
  assert (id w ∉ map id (queue s)) as Hnew.
  { intros X. apply T in X. congruence. }
  unfold tracked. rewrite Q', H', map_app. simpl. repeat split.
  - done.
  - apply NoDup_app. split; [done|]. split; [|apply NoDup_singleton].
    intros i Hi Hi'. apply list_elem_of_singleton in Hi'. by subst.
  - intros X. apply elem_of_app.
    destruct (decide (id w = i)) as [->|Hne].
    + right. by apply list_elem_of_singleton.
    + left. apply T. by rewrite lookup_insert_ne in X.
  - intros X. destruct (decide (id w = i)) as [->|Hne].
    + by rewrite lookup_insert_eq.
    + rewrite lookup_insert_ne by done. apply T.
      apply elem_of_app in X as [X|X]; [done|].
      apply list_elem_of_singleton in X. by subst.
  - apply elem_of_app. right. by apply list_elem_of_singleton.
  - intros x Hx. apply elem_of_app in Hx as [Hx|Hx]; [by left|].
    right. by apply list_elem_of_singleton in Hx.
  - intros i Hi. apply elem_of_app. by left.
  - rewrite length_app. simpl. lia.
Qed.

Lemma queueWatcher_tracked w s :
  tracked s ->
  exists s', queueWatcher cfg flushRec w s = Done s'
    /\ tracked s'
    /\ id w ∈ map id (queue s')
    /\ (forall x, x ∈ queue s' -> x ∈ queue s \/ x = w)
    /\ (forall i, i ∈ map id (queue s) -> i ∈ map id (queue s'))
    /\ (length (queue s') <= S (length (queue s)))%nat.
Proof.
  intros T. pose proof T as (F & ND & T'). unfold queueWatcher.
  destruct (is_nullish (has s !! id w)) eqn:N.
  - assert (negb (production cfg) && negb (async cfg) = false) as ->.
    { destruct (production cfg), (async cfg); done. }
    simpl. rewrite F. simpl.
    destruct (waiting s); simpl; eexists; (split; [reflexivity|]);
      by apply (tracked_push w s).
  - exists s. split; [done|]. split; [done|].
    split; [by apply T'|]. split; [by left|]. split; [done|lia].
Qed.

Lemma enqueue_tracked ws s :
  tracked s ->
  exists s', callAll cfg flushRec (map QueueWatcher ws) s = Done s'
    /\ tracked s'
    /\ (forall w, w ∈ ws -> id w ∈ map id (queue s'))
    /\ (forall x, x ∈ queue s' -> x ∈ queue s \/ x ∈ ws)
    /\ (forall i, i ∈ map id (queue s) -> i ∈ map id (queue s'))
    /\ (length (queue s') <= length (queue s) + length ws)%nat.
Proof.
  revert s. induction ws as [|w ws IH]; intros s T; simpl.
  - exists s. split; [done|]. split; [done|].
    split; [|split; [|split]].
    + intros w Hw. by apply elem_of_nil in Hw.
    + intros x Hx. by left.
    + done.
    + lia.
  - destruct (queueWatcher_tracked w s T)
      as (s1 & -> & T1 & I1 & S1 & M1 & L1).
    simpl. destruct (IH s1 T1) as (s2 & -> & T2 & I2 & S2 & M2 & L2).
    exists s2. split; [done|]. split; [done|].
    split; [|split; [|split]].
    + intros x Hx. apply elem_of_cons in Hx as [->|Hx]; [|by apply I2].
      by apply M2.
    + intros x Hx. destruct (S2 x Hx) as [Hx'|Hx'].
      * destruct (S1 x Hx') as [?| ->]; [by left|].
        right. apply elem_of_cons. by left.
      * right. apply elem_of_cons. by right.
    + intros i Hi. by apply M2, M1.
    + lia.
Qed.
End Deferred.

(** ** Flushes in which some watchers call back into the scheduler *)

(** The watcher [x] enqueues nothing, neither when it runs nor in its
    [before] hook. *)
Definition enqueues_nothing (run : Watcher -> Behaviour)
    (before : Watcher -> option Behaviour) (x : Watcher) : Prop :=
  (forall h, run x h = []) /\ (forall b h, before x = Some b -> b h = []).

(** The watchers with the id [i] in a queue. *)
Definition with_id (i : Z) (q : list Watcher) : list Watcher :=
  filter (fun x => id x = i) q.

Lemma with_id_app i a b : with_id i (a ++ b) = with_id i a ++ with_id i b.
Proof. apply filter_app. Qed.

Lemma with_id_other i y q : id y <> i -> with_id i (y :: q) = with_id i q.
Proof. intros H. unfold with_id. by rewrite filter_cons_False. Qed.

Lemma with_id_cons_length i y q :
  length (with_id i (y :: q))
  = (length (with_id i [y]) + length (with_id i q))%nat.
Proof. change (y :: q) with ([y] ++ q). by rewrite with_id_app, length_app. Qed.

Lemma run_count_app i a b :
  run_count i (a ++ b) = (run_count i a + run_count i b)%nat.
Proof. unfold run_count. by rewrite runs_of_app, filter_app, length_app. Qed.

Lemma run_count_norun i evs : runs_of evs = [] -> run_count i evs = 0%nat.
Proof. unfold run_count. by intros ->. Qed.

Lemma run_count_one i x evs :
  runs_of evs = [x] ->
  run_count i evs = length (with_id i [x]).
Proof. unfold run_count. by intros ->. Qed.

Section Partial.
Variable cfg : Config.
Variable run : Watcher -> Behaviour.
Variable before : Watcher -> option Behaviour.
Variable flushRec : Sched -> Outcome Sched.

Lemma after_run_fields x s :
  queue (after_run cfg x s).1 = queue s
  /\ index (after_run cfg x s).1 = index s
  /\ waiting (after_run cfg x s).1 = waiting s
  /\ trace (after_run cfg x s).1
     = trace s ++ (if (after_run cfg x s).2
                   then [EvWarn (loop_message x) (vm x)] else []).
Proof.
  unfold after_run.
  destruct (negb (production cfg) && negb (is_nullish (has s !! id x)));
    [|by rewrite app_nil_r].
  destruct (MAX_UPDATE_COUNT <? _)%nat; simpl; by rewrite ?app_nil_r.
Qed.

(** The loop only adds to the trace. *)
Lemma flushLoop_trace fuel s :
  waiting s = true ->
  exists evs,
    trace (outcome_state (flushLoop cfg run before flushRec fuel s))
    = trace s ++ evs.
Proof.
  revert s. induction fuel as [|fuel IH]; intros s W;
    rewrite flushLoop_unfold; destruct (queue s !! index s) as [x|];
    try (exists []; by rewrite app_nil_r).
  destruct (run_watcher_ran cfg run before flushRec x s W)
    as (s1 & -> & [W1 _ _ _ (evs1 & T1 & _ & _) _ _ _ _]).
  cbn [obind].
  destruct (after_run_fields x s1) as (_ & _ & W2 & T2).
  destruct (after_run cfg x s1) as [s2 stop]. simpl in W2, T2.
  destruct stop.
  - eexists. simpl. by rewrite T2, T1, <- app_assoc.
  - destruct (IH (set_index (S (index s2)) s2)) as (evs2 & T3).
    { simpl. congruence. }
    exists (evs1 ++ evs2). rewrite T3. simpl.
    by rewrite T2, T1, app_nil_r, app_assoc.
Qed.

(** One iteration for a watcher that enqueues nothing. *)
Lemma run_watcher_quiet_at x s :
  enqueues_nothing run before x ->
  exists s',
    run_watcher cfg run before flushRec x s = Done s'
    /\ queue s' = queue s /\ index s' = index s
    /\ waiting s' = waiting s /\ flushing s' = flushing s
    /\ circular s' = circular s
    /\ activatedChildren s' = activatedChildren s
    /\ has s' !! id x = Some HasNull
    /\ exists evs, trace s' = trace s ++ evs
                   /\ runs_of evs = [x] /\ warnings_of evs = [].
Proof.
  intros [Hr Hb]. unfold run_watcher. destruct (before x) as [b|] eqn:B.
  - cbn [obind]. rewrite (Hb b _ eq_refl). cbn [callAll obind].
    rewrite Hr. cbn [callAll].
    eexists. split; [done|]. simpl. repeat split.
    + apply lookup_insert_eq.
    + exists [EvBefore x; EvRun x]. by rewrite <- app_assoc.
  - cbn [obind]. rewrite Hr. cbn [callAll].
    eexists. split; [done|]. simpl. repeat split.
    + apply lookup_insert_eq.
    + by exists [EvRun x].
Qed.

(** The loop runs the watchers at and behind the cursor that enqueue
    nothing one after the other, up to the first one that may enqueue. *)
Lemma flushLoop_quiet_prefix ahead :
  forall fuel s rest,
    drop (index s) (queue s) = ahead ++ rest ->
    (forall x, x ∈ ahead -> enqueues_nothing run before x) ->
    exists s1 evs,
      flushLoop cfg run before flushRec (length ahead + fuel) s
      = flushLoop cfg run before flushRec fuel s1
      /\ queue s1 = queue s /\ index s1 = (index s + length ahead)%nat
      /\ waiting s1 = waiting s /\ flushing s1 = flushing s
      /\ circular s1 = circular s
      /\ activatedChildren s1 = activatedChildren s
      /\ trace s1 = trace s ++ evs
      /\ runs_of evs = ahead /\ warnings_of evs = [].
Proof.
  induction ahead as [|x ahead IH]; intros fuel s rest D Q.
  - exists s, []. simpl. rewrite Nat.add_0_r, app_nil_r. by repeat split.
  - assert (queue s !! index s = Some x) as Hx.
    { rewrite <- (Nat.add_0_r (index s)), <- lookup_drop, D. done. }
    cbn [length Nat.add]. rewrite flushLoop_unfold, Hx.
    destruct (run_watcher_quiet_at x s)
      as (s1 & -> & Q1 & I1 & W1 & F1 & C1 & A1 & H1 & evs1 & T1 & R1 & N1).
    { apply Q. apply elem_of_cons. by left. }
    cbn [obind]. rewrite (after_run_null cfg _ _ H1).
    destruct (IH fuel (set_index (S (index s1)) s1) rest)
      as (s2 & evs2 & E2 & Q2 & I2 & W2 & F2 & C2 & A2 & T2 & R2 & N2).
    { simpl. rewrite Q1, I1. rewrite (drop_S _ _ _ Hx) in D.
      by injection D. }
    { intros y Hy. apply Q. apply elem_of_cons. by right. }
    simpl in *. exists s2, (evs1 ++ evs2). rewrite E2.
    split; [done|]. split; [congruence|]. split; [lia|].
    split; [congruence|]. split; [congruence|]. split; [congruence|].
    split; [congruence|]. split; [by rewrite T2, T1, app_assoc|].
    by rewrite runs_of_app, warnings_of_app, R1, R2, N1, N2.
Qed.

(** What follows the loop: the state is reset and the hooks are called;
    they run no watcher and give no diagnostic. *)
Lemma flushBody_done fuel s s1 :
  flushLoop cfg run before flushRec fuel
    (set_index 0 (set_queue (sort_by_id (queue s)) (set_flushing true s)))
  = Done s1 ->
  exists s' evs,
    flushBody cfg run before flushRec fuel s = Done s'
    /\ queue s' = [] /\ has s' = ∅
    /\ circular s' = (if negb (production cfg) then ∅ else circular s1)
    /\ waiting s' = false /\ flushing s' = false
    /\ trace s' = trace s1 ++ evs
    /\ runs_of evs = [] /\ warnings_of evs = [].
Proof.
  intros E. unfold flushBody. simpl. rewrite E. cbn [obind].
  set (s2 := resetSchedulerState cfg s1).
  destruct (callActivatedHooks_trace (activatedChildren s1) s2)
    as (evs2 & T2 & R2 & N2).
  destruct (callActivatedHooks_fields (activatedChildren s1) s2)
    as (Q2 & H2 & W2 & F2 & C2).
  set (s3 := callActivatedHooks (activatedChildren s1) s2) in *.
  destruct (callUpdatedHooks_trace (queue s1) s3) as (evs3 & T3 & R3 & N3).
  destruct (callUpdatedHooks_fields (queue s1) s3) as (Q3 & H3 & W3 & F3 & C3).
  set (s4 := callUpdatedHooks (queue s1) s3) in *.
  assert (trace s4 = trace s1 ++ evs2 ++ evs3) as T4.
  { rewrite T3, T2. subst s2. simpl. by rewrite <- !app_assoc. }
  exists (if devtools cfg then emit EvDevtoolsFlush s4 else s4).
  exists ((evs2 ++ evs3) ++ (if devtools cfg then [EvDevtoolsFlush] else [])).
  split; [done|].
  rewrite runs_of_app, warnings_of_app, runs_of_app, warnings_of_app,
    R2, R3, N2, N3.
  destruct (devtools cfg); simpl;
    rewrite Q3, Q2, H3, H2, W3, W2, F3, F2, C3, C2, T4;
    repeat split; try done; by rewrite ?app_nil_r, <- ?app_assoc.
Qed.

Lemma flushBody_trace fuel s evs1 :
  trace (outcome_state
           (flushLoop cfg run before flushRec fuel
              (set_index 0 (set_queue (sort_by_id (queue s))
                              (set_flushing true s)))))
  = trace s ++ evs1 ->
  exists evs2,
    trace (outcome_state (flushBody cfg run before flushRec fuel s))
    = trace s ++ evs1 ++ evs2
    /\ runs_of evs2 = [] /\ warnings_of evs2 = [].
Proof.
  intros T.
  destruct (flushLoop cfg run before flushRec fuel
              (set_index 0 (set_queue (sort_by_id (queue s))
                              (set_flushing true s)))) as [s1|s1] eqn:E.
  - destruct (flushBody_done fuel s s1 E)
      as (s' & evs2 & -> & _ & _ & _ & _ & _ & T' & R' & N').
    exists evs2. simpl in *. by rewrite T', T, <- app_assoc.
  - exists []. unfold flushBody. simpl in *. rewrite E. simpl.
    by rewrite T, app_nil_r.
Qed.
End Partial.

(** ** Ordering and deduplication *)

Lemma filter_id_absent q i :
  i ∉ map id q -> filter (fun x => id x = i) q = [].
Proof.
  induction q as [|x q IH]; simpl; intros Hi; [done|].
  rewrite filter_cons. destruct (decide (id x = i)) as [E|E].
  - exfalso. apply Hi. apply elem_of_cons. by left.
  - apply IH. intros X. apply Hi. apply elem_of_cons. by right.
Qed.

Lemma run_count_unique q i :
  NoDup (map id q) -> i ∈ map id q ->
  length (filter (fun x => id x = i) q) = 1%nat.
Proof.
  induction q as [|x q IH]; simpl; intros ND Hi.
  - by apply elem_of_nil in Hi.
  - apply NoDup_cons in ND as [Hx ND].
    rewrite filter_cons. destruct (decide (id x = i)) as [E|E].
    + simpl. rewrite filter_id_absent; [done|by subst].
    + apply IH; [done|]. apply elem_of_cons in Hi as [?|?]; [congruence|done].
Qed.



(** *** Watchers that nobody enqueues during the flush *)

Section AtMostOnce.
Variable cfg : Config.
Variable run : Watcher -> Behaviour.
Variable before : Watcher -> option Behaviour.
Variable flushRec : Sched -> Outcome Sched.
Variable i : Z.
Hypothesis run_other : forall x h y, QueueWatcher y ∈ run x h -> id y <> i.
Hypothesis before_other :
  forall x b h y, before x = Some b -> QueueWatcher y ∈ b h -> id y <> i.

Lemma queueWatcher_other y s :
  waiting s = true -> id y <> i ->
  exists s', queueWatcher cfg flushRec y s = Done s'
             /\ waiting s' = true
             /\ with_id i (queue s') = with_id i (queue s).
Proof.
  intros W Hy. unfold queueWatcher.
  destruct (is_nullish (has s !! id y)); [|by exists s].
  simpl. destruct (flushing s); simpl; rewrite W; simpl;
    eexists; (split; [reflexivity|]); simpl; (split; [done|]).
  - unfold splice_in. rewrite with_id_app, with_id_other by done.
    by rewrite <- with_id_app, take_drop.
  - rewrite with_id_app, with_id_other by done. apply app_nil_r.
Qed.

Lemma callAll_other cs s :
  waiting s = true ->
  (forall y, QueueWatcher y ∈ cs -> id y <> i) ->
  exists s', callAll cfg flushRec cs s = Done s'
             /\ waiting s' = true
             /\ with_id i (queue s') = with_id i (queue s).
Proof.
  revert s. induction cs as [|c cs IH]; intros s W H; simpl.
  - by exists s.
  - assert (exists s1, call cfg flushRec c s = Done s1 /\ waiting s1 = true
              /\ with_id i (queue s1) = with_id i (queue s))
      as (s1 & -> & W1 & Q1).
    { destruct c as [y|c]; simpl.
      - apply queueWatcher_other; [done|]. apply H. apply elem_of_cons.
        by left.
      - by eexists. }
    simpl. destruct (IH s1 W1) as (s2 & -> & W2 & Q2).
    { intros y Hy. apply H. apply elem_of_cons. by right. }
    exists s2. split; [done|]. split; [done|]. congruence.
Qed.

Lemma run_watcher_other x s :
  waiting s = true ->
  exists s', run_watcher cfg run before flushRec x s = Done s'
             /\ with_id i (queue s') = with_id i (queue s).
Proof.
  intros W. unfold run_watcher.
  match goal with |- context [obind ?m _] => set (mm := m) end.
  assert (exists s1, mm = Done s1 /\ waiting s1 = true
            /\ with_id i (queue s1) = with_id i (queue s))
    as (s1 & -> & W1 & Q1).
  { subst mm. destruct (before x) as [b|] eqn:B; [|by exists s].
    simpl. apply (callAll_other _ (emit (EvBefore x) s)); [done|].
    intros y. by apply (before_other x b). }
  cbn [obind].
  match goal with
  | |- context [callAll _ _ _ ?st] =>
      destruct (callAll_other (run x (trace st)) st) as (s2 & -> & _ & Q2);
      [done|intros y; apply (run_other x)|]
  end.
  exists s2. split; [done|]. simpl in Q2. congruence.
Qed.

(** However long the loop goes on, the watchers with the id [i] run at
    most as often as they are in the queue at or behind the cursor. *)
Lemma flushLoop_at_most fuel s :
  waiting s = true ->
  exists evs,
    trace (outcome_state (flushLoop cfg run before flushRec fuel s))
    = trace s ++ evs
    /\ (run_count i evs <= length (with_id i (drop (index s) (queue s))))%nat.
Proof.
  revert s. induction fuel as [|fuel IH]; intros s W;
    rewrite flushLoop_unfold; destruct (queue s !! index s) as [x|] eqn:Hx;
    try (exists []; rewrite app_nil_r; split; [done|];
         unfold run_count; simpl; lia).
  destruct (run_watcher_ran cfg run before flushRec x s W)
    as (s1 & E1 & [W1 _ I1 _ (evs1 & T1 & R1 & _) _ _ P1 _]).
  destruct (run_watcher_other x s W) as (s1' & E1' & Q1).
  rewrite E1 in E1'. injection E1' as <-. rewrite E1. cbn [obind].
  pose proof (lookup_lt_Some _ _ _ Hx) as L.
  assert (with_id i (drop (S (index s)) (queue s1))
          = with_id i (drop (S (index s)) (queue s))) as D1.
  { assert (forall q, with_id i q
                      = with_id i (take (S (index s)) q)
                        ++ with_id i (drop (S (index s)) q)) as Hq.
    { intros q. by rewrite <- with_id_app, take_drop. }
    rewrite (Hq (queue s1)), (Hq (queue s)), (P1 L) in Q1.
    by apply app_inv_head in Q1. }
  destruct (after_run_fields cfg x s1) as (Q2 & I2 & W2 & T2).
  destruct (after_run cfg x s1) as [s2 stop]. simpl in Q2, I2, W2, T2.
  rewrite (drop_S _ _ _ Hx), with_id_cons_length.
  rewrite <- (run_count_one i x evs1 R1).
  destruct stop.
  - eexists. simpl. rewrite T2, T1, <- app_assoc. split; [done|].
    rewrite run_count_app, (run_count_norun i [_]) by done. lia.
  - destruct (IH (set_index (S (index s2)) s2)) as (evs2 & T3 & B3).
    { simpl. congruence. }
    simpl in B3. rewrite Q2, I2, I1, D1 in B3.
    exists (evs1 ++ evs2). rewrite T3. simpl.
    rewrite T2, T1, app_nil_r, app_assoc. split; [done|].
    rewrite run_count_app. unfold with_id in *. lia.
Qed.

Lemma flushBody_at_most fuel s :
  waiting s = true ->
  exists evs,
    trace (outcome_state (flushBody cfg run before flushRec fuel s))
    = trace s ++ evs
    /\ (run_count i evs <= length (with_id i (queue s)))%nat.
Proof.
  intros W.
  destruct (flushLoop_at_most fuel
              (set_index 0 (set_queue (sort_by_id (queue s))
                              (set_flushing true s))))
    as (evs1 & T1 & B1); [done|].
  simpl in T1, B1.
  destruct (flushBody_trace cfg run before flushRec fuel s evs1 T1)
    as (evs2 & T2 & R2 & _).
  exists (evs1 ++ evs2). split; [exact T2|].
  rewrite run_count_app, (run_count_norun i evs2 R2).
  rewrite drop_0 in B1. unfold with_id in *.
  rewrite (sort_by_id_perm (queue s)) in B1. lia.
Qed.
End AtMostOnce.

Lemma flushSchedulerQueue_at_most cfg run before i fuel s :
  (forall x h y, QueueWatcher y ∈ run x h -> id y <> i) ->
  (forall x b h y, before x = Some b -> QueueWatcher y ∈ b h -> id y <> i) ->
  waiting s = true ->
  exists evs,
    trace (outcome_state (flushSchedulerQueue cfg run before fuel s))
    = trace s ++ evs
    /\ (run_count i evs <= length (with_id i (queue s)))%nat.
Proof.
  intros Hr Hb W. destruct fuel as [|fuel]; simpl.
  - exists []. rewrite app_nil_r. split; [done|]. unfold run_count. simpl. lia.
  - by apply flushBody_at_most.
Qed.

(** With the flush deferred, enqueueing from the idle state schedules the
    flush. *)
Lemma enqueue_schedules cfg flushRec w ws s0 s1 :
  production cfg || async cfg = true -> idle s0 ->
  callAll cfg flushRec (map QueueWatcher (w :: ws)) s0 = Done s1 ->
  waiting s1 = true.
Proof.
  intros Hd (Q0 & H0 & F0). simpl. unfold queueWatcher at 1.
  rewrite H0, lookup_empty. simpl. rewrite F0. simpl.
  assert (negb (production cfg) && negb (async cfg) = false) as ->.
  { destruct (production cfg), (async cfg); done. }
  destruct (waiting s0) eqn:W0; cbn [negb obind];
    match goal with
    | |- callAll _ _ _ ?st = _ -> _ =>
        destruct (callAll_extends cfg flushRec (map QueueWatcher ws) st)
          as (s' & E & X & _); [by simpl|]
    end; rewrite E; intros [= <-]; apply (ext_waiting _ _ X).
Qed.

(** C6 (as stated, refuted): the watcher 2 is enqueued twice and the
    watcher 1 once before the flush, none of the enqueues during a run of
    watcher 2.  With watcher 1 enqueueing itself whenever it runs, the
    flush runs watcher 1 for 101 times, the circular guard leaves the loop,
    and watcher 2 has not run at all.  (And with a watcher 3 that enqueues
    watcher 2, enqueued before the flush, watcher 2 runs twice in the
    flush.) *)
Lemma C6_counterexample :
  finished Scenarios.dedup_then_abort = true
  /\ run_count 1 (trace (outcome_state Scenarios.dedup_then_abort)) = 101%nat
  /\ run_count 2 (trace (outcome_state Scenarios.dedup_then_abort)) = 0%nat
  /\ run_count 2 (trace (outcome_state Scenarios.dedup_then_abort)) <> 1%nat
  /\ finished Scenarios.dedup_then_requeue = true
  /\ map id (runs_of (trace (outcome_state Scenarios.dedup_then_requeue)))
     = [2; 3; 2]%Z.
Proof.
  assert (run_count 2 (trace (outcome_state Scenarios.dedup_then_abort))
          = 0%nat) as E by (by vm_compute).
  split; [by vm_compute|]. split; [by vm_compute|]. split; [exact E|].
  split; [by rewrite E|]. split; by vm_compute.
Qed.

(** C6 (amended): enqueueing a watcher any number of times between two
    flushes (the flush being deferred to the next tick, as it is unless the
    synchronous diagnostic configuration is on) puts it in the queue once,
    enqueueing an id that is in the presence set changing nothing.  In the
    flush that follows, however long it goes on, the watchers with its id
    run at most once as long as no watcher enqueues that id during the
    flush; and exactly once when no watcher enqueues anything during the
    flush, which then comes to its end and leaves the scheduler idle, as
    it was before the enqueues. *)
Theorem C6_one_run_per_flush cfg run before fuel ws w s0 :
  production cfg || async cfg = true ->
  idle s0 ->
  w ∈ ws ->
  exists s1,
    enqueueAll cfg run before fuel ws s0 = Done s1
    /\ length (with_id (id w) (queue s1)) = 1%nat
    /\ ((forall x h y, QueueWatcher y ∈ run x h -> id y <> id w) ->
        (forall x b h y,
            before x = Some b -> QueueWatcher y ∈ b h -> id y <> id w) ->
        forall fuel', exists evs,
          trace (outcome_state (flushSchedulerQueue cfg run before fuel' s1))
          = trace s1 ++ evs
          /\ (run_count (id w) evs <= 1)%nat)
    /\ ((forall x h, run x h = []) ->
        (forall x b h, before x = Some b -> b h = []) ->
        (length ws < fuel)%nat ->
        exists s2 evs,
          flushSchedulerQueue cfg run before fuel s1 = Done s2
          /\ trace s2 = trace s1 ++ evs
          /\ run_count (id w) evs = 1%nat
          /\ idle s2 /\ waiting s2 = false)
    /\ (forall flushRec x s,
          has s !! id x = Some HasTrue -> queueWatcher cfg flushRec x s = Done s).
Proof.
  intros Hd Hi Hw.
  destruct (enqueue_tracked cfg (flushSchedulerQueue cfg run before fuel)
              Hd ws s0 (idle_tracked _ Hi))
    as (s1 & E1 & (F1 & ND1 & T1) & I1 & _ & _ & L1).
  assert (length (with_id (id w) (queue s1)) = 1%nat) as U.
  { apply run_count_unique; [done|]. by apply I1. }
  exists s1. split; [exact E1|]. split; [exact U|]. split; [|split].
  - intros Hr Hb fuel'.
    destruct (flushSchedulerQueue_at_most cfg run before (id w) fuel' s1 Hr Hb)
      as (evs & T & B).
    { destruct ws as [|w0 ws]; [by apply elem_of_nil in Hw|].
      by apply (enqueue_schedules cfg (flushSchedulerQueue cfg run before fuel)
                  w0 ws s0 s1). }
    exists evs. split; [exact T|]. lia.
  - intros Hr Hb Hf.
    destruct Hi as (Q0 & _ & _). rewrite Q0 in L1. simpl in L1.
    destruct (flushSchedulerQueue_quiet cfg run before fuel s1 Hr Hb)
      as (s2 & E2 & Q2 & H2 & W2 & F2 & evs & T2 & R2 & _); [lia|].
    exists s2, evs. split; [exact E2|]. split; [exact T2|].
    split; [|by repeat split].
    unfold run_count. rewrite R2.
    rewrite (sort_by_id_perm (queue s1)). exact U.
  - intros flushRec x s H. by apply queueWatcher_present.
Qed.

(** The watcher 7 is enqueued three times, among others; it is in the queue
    once, and runs once. *)
Lemma C6_witness :
  exists s1,
    enqueueAll Scenarios.dev Scenarios.quiet Scenarios.no_before 6
      [Scenarios.watcher 7; Scenarios.watcher 4; Scenarios.watcher 7;
       Scenarios.watcher 9; Scenarios.watcher 7] initial = Done s1
    /\ length (with_id 7 (queue s1)) = 1%nat
    /\ (forall fuel', exists evs,
          trace (outcome_state
                   (flushSchedulerQueue Scenarios.dev Scenarios.quiet
                      Scenarios.no_before fuel' s1))
          = trace s1 ++ evs
          /\ (run_count 7 evs <= 1)%nat)
    /\ exists s2 evs,
         flushSchedulerQueue Scenarios.dev Scenarios.quiet Scenarios.no_before
           6 s1 = Done s2
         /\ trace s2 = trace s1 ++ evs
         /\ run_count 7 evs = 1%nat
         /\ idle s2 /\ waiting s2 = false.
Proof.
  destruct (C6_one_run_per_flush Scenarios.dev Scenarios.quiet
              Scenarios.no_before 6
              [Scenarios.watcher 7; Scenarios.watcher 4; Scenarios.watcher 7;
               Scenarios.watcher 9; Scenarios.watcher 7]
              (Scenarios.watcher 7) initial)
    as (s1 & E & U & A & H & _).
  - reflexivity.
  - repeat split.
  - apply elem_of_cons. by left.
  - exists s1. split; [exact E|]. split; [exact U|]. split.
    + apply A.
      * intros x h y Hy. by apply elem_of_nil in Hy.
      * intros x b h y B. discriminate B.
    + apply H.
      * reflexivity.
      * intros x b h B. discriminate B.
      * simpl. lia.
Defined.

(** ** The guard against circular updates *)

Lemma times_run_app w a b : times_run w (a ++ b) = (times_run w a + times_run w b)%nat.
Proof. unfold times_run. by rewrite runs_of_app, filter_app, length_app. Qed.

Lemma times_run_norun w evs : runs_of evs = [] -> times_run w evs = 0%nat.
Proof. unfold times_run. by intros ->. Qed.

Lemma times_run_one w x evs :
  runs_of evs = [x] -> times_run w evs = if decide (x = w) then 1%nat else 0%nat.
Proof.
  unfold times_run. intros ->. rewrite filter_cons, filter_nil.
  by destruct (decide (x = w)).
Qed.

Section Circular.
Variable cfg : Config.
Variable run : Watcher -> Behaviour.
Variable before : Watcher -> option Behaviour.
Variable flushRec : Sched -> Outcome Sched.
Variable w : Watcher.
Hypothesis diagnostic_build : production cfg = false.
Hypothesis self : forall h, QueueWatcher w ∈ run w h.

Definition counter (s : Sched) : nat := default 0%nat (circular s !! id w).

(** However long the loop runs, the runs of [w] and its counter together
    stay within the threshold plus one. *)
Lemma flushLoop_bound fuel s :
  waiting s = true -> (counter s <= MAX_UPDATE_COUNT)%nat ->
  exists evs,
    trace (outcome_state (flushLoop cfg run before flushRec fuel s))
    = trace s ++ evs
    /\ (times_run w evs + counter s <= S MAX_UPDATE_COUNT)%nat.
Proof.
  unfold MAX_UPDATE_COUNT.
  revert s. induction fuel as [|fuel IH]; intros s W C;
    rewrite flushLoop_unfold; destruct (queue s !! index s) as [x|] eqn:Hx;
    try (exists []; rewrite app_nil_r; split; [done|];
         unfold times_run; simpl; lia).
  destruct (run_watcher_ran cfg run before flushRec x s W)
    as (s1 & -> & [W1 F1 I1 C1 (evs1 & T1 & R1 & N1) S1 _ _ _]).
  cbn [obind]. unfold after_run. rewrite diagnostic_build.
  cbn [negb andb].
  destruct (is_nullish (has s1 !! id x)) eqn:N; cbn [negb].
  - (* no re-enqueue of this id: [x] is not [w] *)
    assert (x <> w) as Hne.
    { intros ->. rewrite (S1 self) in N. discriminate N. }
    destruct (IH (set_index (S (index s1)) s1)) as (evs2 & T2 & B2).
    { done. }
    { unfold counter in *. simpl. by rewrite C1. }
    exists (evs1 ++ evs2). rewrite T2. simpl. rewrite T1, app_assoc.
    split; [done|]. rewrite times_run_app, (times_run_one _ _ _ R1).
    destruct (decide (x = w)); [done|].
    unfold counter in *. simpl in B2. rewrite C1 in B2. lia.
  - set (c := (default 0%nat (circular s1 !! id x) + 1)%nat).
    destruct (MAX_UPDATE_COUNT <? c)%nat eqn:Hc; unfold MAX_UPDATE_COUNT in Hc.
    + (* the threshold is exceeded: the loop is left *)
      cbn [outcome_state]. exists (evs1 ++ [EvWarn (loop_message x) (vm x)]).
      simpl. rewrite T1, app_assoc. split; [done|].
      rewrite times_run_app, (times_run_one _ _ _ R1).
      rewrite (times_run_norun w [_]) by done.
      destruct (decide (x = w)); lia.
    + apply Nat.ltb_ge in Hc. cbn beta iota zeta.
      match goal with
      | |- context [flushLoop _ _ _ _ _ ?st] =>
          destruct (IH st) as (evs2 & T2 & B2)
      end.
      { done. }
      { unfold counter in *. simpl.
        destruct (decide (id x = id w)) as [E|E].
        - rewrite E, lookup_insert_eq. simpl. lia.
        - rewrite lookup_insert_ne by done. by rewrite C1. }
      exists (evs1 ++ evs2). rewrite T2. simpl. rewrite T1, app_assoc.
      split; [done|]. rewrite times_run_app, (times_run_one _ _ _ R1).
      unfold counter in *. simpl in B2.
      destruct (decide (x = w)) as [->|Hne].
      * rewrite lookup_insert_eq in B2. simpl in B2.
        subst c. rewrite C1 in B2. lia.
      * destruct (decide (id x = id w)) as [E|E].
        -- rewrite E, lookup_insert_eq in B2. simpl in B2.
           subst c. rewrite E, C1 in B2. lia.
        -- rewrite lookup_insert_ne in B2 by done. rewrite C1 in B2. lia.
Qed.

Lemma flushBody_bound fuel s :
  waiting s = true -> circular s !! id w = None ->
  exists evs,
    trace (outcome_state (flushBody cfg run before flushRec fuel s))
    = trace s ++ evs
    /\ (times_run w evs <= S MAX_UPDATE_COUNT)%nat.
Proof.
  intros W C. unfold flushBody.
  set (s0 := set_index 0 _).
  destruct (flushLoop_bound fuel s0) as (evs1 & T1 & B1).
  { done. }
  { unfold counter. subst s0. simpl. rewrite C. simpl. lia. }
  destruct (flushLoop cfg run before flushRec fuel s0) as [s1|s1];
    cbn [obind outcome_state] in *.
  - set (s2 := resetSchedulerState cfg s1).
    destruct (callActivatedHooks_trace (activatedChildren s1) s2)
      as (evs2 & T2 & R2 & _).
    set (s3 := callActivatedHooks (activatedChildren s1) s2) in *.
    destruct (callUpdatedHooks_trace (queue s1) s3) as (evs3 & T3 & R3 & _).
    set (s4 := callUpdatedHooks (queue s1) s3) in *.
    assert (trace s4 = trace s ++ evs1 ++ evs2 ++ evs3) as T4.
    { rewrite T3, T2. subst s2. simpl. rewrite T1. subst s0. simpl.
      by rewrite <- !app_assoc. }
    assert (times_run w (evs1 ++ evs2 ++ evs3) = times_run w evs1) as E4.
    { rewrite !times_run_app, (times_run_norun w evs2 R2),
        (times_run_norun w evs3 R3). lia. }
    destruct (devtools cfg).
    + exists ((evs1 ++ evs2 ++ evs3) ++ [EvDevtoolsFlush]). simpl.
      rewrite T4. split; [by rewrite <- !app_assoc|].
      rewrite times_run_app, E4, (times_run_norun w [_]) by done. lia.
    + exists (evs1 ++ evs2 ++ evs3). split; [done|]. lia.
  - exists evs1. split; [done|]. lia.
Qed.
End Circular.

Lemma flushSchedulerQueue_bound cfg run before w fuel s :
  production cfg = false ->
  (forall h, QueueWatcher w ∈ run w h) ->
  waiting s = true -> circular s !! id w = None ->
  exists evs,
    trace (outcome_state (flushSchedulerQueue cfg run before fuel s))
    = trace s ++ evs
    /\ (times_run w evs <= S MAX_UPDATE_COUNT)%nat.
Proof.
  intros D S W C. destruct fuel as [|fuel]; simpl.
  - exists []. rewrite app_nil_r. split; [done|]. unfold times_run. simpl. lia.
  - by apply flushBody_bound.
Qed.

(** A queue holding one watcher that enqueues itself, and nothing else,
    whenever it runs. *)
Section SelfLoop.
Variable cfg : Config.
Variable run : Watcher -> Behaviour.
Variable before : Watcher -> option Behaviour.
Variable flushRec : Sched -> Outcome Sched.
Variable w : Watcher.
Hypothesis run_self : forall h, run w h = [QueueWatcher w].
Hypothesis before_quiet : forall b h, before w = Some b -> b h = [].

Lemma splice_self k :
  splice_in (scan_back (replicate (S k) w) k (id w) (S k)) w (replicate (S k) w)
  = replicate (S (S k)) w.
Proof.
  cbn [scan_back]. rewrite Nat.ltb_irrefl. unfold splice_in.
  rewrite take_ge, drop_ge by (rewrite length_replicate; lia).
  by rewrite <- replicate_cons_app.
Qed.

Lemma run_watcher_self k s :
  queue s = replicate (S k) w -> index s = k ->
  waiting s = true -> flushing s = true ->
  exists s1 evs,
    run_watcher cfg run before flushRec w s = Done s1
    /\ queue s1 = replicate (S (S k)) w /\ index s1 = k
    /\ waiting s1 = true /\ flushing s1 = true
    /\ circular s1 = circular s
    /\ activatedChildren s1 = activatedChildren s
    /\ has s1 !! id w = Some HasTrue
    /\ trace s1 = trace s ++ evs
    /\ runs_of evs = [w] /\ warnings_of evs = [].
Proof.
  intros Q I W F. unfold run_watcher.
  destruct (before w) as [b|] eqn:B.
  - cbn [obind]. rewrite (before_quiet b _ eq_refl). cbn [callAll obind].
    rewrite run_self. cbn [callAll call obind]. unfold queueWatcher.
    simpl. rewrite lookup_insert_eq. simpl. rewrite F. simpl. rewrite W. simpl.
    eexists. exists [EvBefore w; EvRun w]. split; [reflexivity|]. simpl.
    rewrite Q, I, length_replicate, splice_self, lookup_insert_eq.
    repeat split; try done. by rewrite <- app_assoc.
  - cbn [obind]. rewrite run_self. cbn [callAll call obind].
    unfold queueWatcher.
    simpl. rewrite lookup_insert_eq. simpl. rewrite F. simpl. rewrite W. simpl.
    eexists. exists [EvRun w]. split; [reflexivity|]. simpl.
    rewrite Q, I, length_replicate, splice_self, lookup_insert_eq.
    repeat split; done.
Qed.
End SelfLoop.

(** A watcher that enqueues itself, and nothing else, whenever it runs,
    among other watchers: [pre] ahead of it in the sorted queue, [post]
    behind it, with larger ids. *)
Section SelfLoopAmong.
Variable cfg : Config.
Variable run : Watcher -> Behaviour.
Variable before : Watcher -> option Behaviour.
Variable flushRec : Sched -> Outcome Sched.
Variable w : Watcher.
Variables pre post : list Watcher.
Hypothesis diagnostic_build : production cfg = false.
Hypothesis run_self : forall h, run w h = [QueueWatcher w].
Hypothesis before_quiet : forall b h, before w = Some b -> b h = [].
Hypothesis post_larger : forall x, x ∈ post -> (id w < id x)%Z.

(** The backward scan passes [post] and stops at the cursor. *)
Lemma splice_self_among k :
  splice_in (scan_back (pre ++ replicate (S k) w ++ post) (length pre + k)
               (id w) (length (pre ++ replicate (S k) w ++ post)))
    w (pre ++ replicate (S k) w ++ post)
  = pre ++ replicate (S (S k)) w ++ post.
Proof.
  set (q := pre ++ replicate (S k) w ++ post).
  assert (length q = length pre + S k + length post)%nat as L.
  { subst q. rewrite !length_app, length_replicate. lia. }
  assert (scan_back q (length pre + k) (id w) (length q)
          = S (length pre + k)) as ->.
  { destruct (scan_back_stop q (length pre + k) (id w) (length q))
      as [E|(y & Hi & Hy & Hle)]; [lia|done|].
    exfalso. assert (id w < id y)%Z; [|lia]. apply post_larger.
    subst q. rewrite lookup_app_r in Hy by lia.
    rewrite lookup_app_r in Hy by (rewrite length_replicate; lia).
    by apply list_elem_of_lookup_2 in Hy. }
  unfold splice_in. subst q. rewrite app_assoc.
  assert (length (pre ++ replicate (S k) w) = S (length pre + k)) as L'.
  { rewrite length_app, length_replicate. lia. }
  rewrite <- L', take_app_length, drop_app_length.
  change (w :: post) with ([w] ++ post).
  rewrite <- !app_assoc, (app_assoc (replicate (S k) w) [w]).
  by rewrite <- replicate_cons_app.
Qed.

Lemma run_watcher_self_among k s :
  queue s = pre ++ replicate (S k) w ++ post ->
  index s = (length pre + k)%nat ->
  waiting s = true -> flushing s = true ->
  exists s1 evs,
    run_watcher cfg run before flushRec w s = Done s1
    /\ queue s1 = pre ++ replicate (S (S k)) w ++ post
    /\ index s1 = (length pre + k)%nat
    /\ waiting s1 = true /\ flushing s1 = true
    /\ circular s1 = circular s
    /\ activatedChildren s1 = activatedChildren s
    /\ has s1 !! id w = Some HasTrue
    /\ trace s1 = trace s ++ evs
    /\ runs_of evs = [w] /\ warnings_of evs = [].
Proof.
  intros Q I W F. unfold run_watcher.
  destruct (before w) as [b|] eqn:B.
  - cbn [obind]. rewrite (before_quiet b _ eq_refl). cbn [callAll obind].
    rewrite run_self. cbn [callAll call obind]. unfold queueWatcher.
    simpl. rewrite lookup_insert_eq. simpl. rewrite F. simpl. rewrite W. simpl.
    eexists. exists [EvBefore w; EvRun w]. split; [reflexivity|]. simpl.
    rewrite Q, I, splice_self_among, lookup_insert_eq.
    repeat split; try done. by rewrite <- app_assoc.
  - cbn [obind]. rewrite run_self. cbn [callAll call obind].
    unfold queueWatcher.
    simpl. rewrite lookup_insert_eq. simpl. rewrite F. simpl. rewrite W. simpl.
    eexists. exists [EvRun w]. split; [reflexivity|]. simpl.
    rewrite Q, I, splice_self_among, lookup_insert_eq.
    repeat split; done.
Qed.

(** From the [k]-th re-run on, the loop runs the watcher until its counter
    exceeds the threshold, and stops there with the diagnostic; it does not
    get to [post]. *)
Lemma flushLoop_self_among n k fuel s :
  queue s = pre ++ replicate (S k) w ++ post ->
  index s = (length pre + k)%nat ->
  waiting s = true -> flushing s = true ->
  default 0%nat (circular s !! id w) = k ->
  (k + n = MAX_UPDATE_COUNT)%nat -> (n < fuel)%nat ->
  exists s' evs,
    flushLoop cfg run before flushRec fuel s = Done s'
    /\ trace s' = trace s ++ evs
    /\ runs_of evs = replicate (S n) w
    /\ warnings_of evs = [loop_message w].
Proof.
  unfold MAX_UPDATE_COUNT.
  revert k fuel s. induction n as [|n IH]; intros k fuel s Q I W F C K Hf;
    (destruct fuel as [|fuel]; [lia|]);
    (assert (queue s !! index s = Some w) as Hw
       by (rewrite Q, I, lookup_app_r by lia;
           rewrite lookup_app_l by (rewrite length_replicate; lia);
           apply lookup_replicate_2; lia));
    rewrite flushLoop_unfold, Hw;
    destruct (run_watcher_self_among k s Q I W F)
      as (s1 & evs1 & -> & Q1 & I1 & W1 & F1 & C1 & A1 & H1 & T1 & R1 & N1);
    cbn [obind]; unfold after_run; rewrite diagnostic_build, H1;
    cbn [negb andb is_nullish]; rewrite C1, C; unfold MAX_UPDATE_COUNT.
  - replace (100 <? k + 1)%nat with true by (symmetry; apply Nat.ltb_lt; lia).
    eexists. exists (evs1 ++ [EvWarn (loop_message w) (vm w)]).
    split; [reflexivity|]. simpl. rewrite T1, app_assoc.
    repeat split; try done.
    + by rewrite runs_of_app, R1.
    + by rewrite warnings_of_app, N1.
  - replace (100 <? k + 1)%nat with false by (symmetry; apply Nat.ltb_ge; lia).
    match goal with
    | |- context [flushLoop _ _ _ _ _ ?st] =>
        destruct (IH (S k) fuel st) as (s2 & evs2 & -> & T2 & R2 & N2)
    end; simpl; try done; try lia; try (rewrite I1; lia);
      try (rewrite lookup_insert_eq; simpl; lia).
    exists s2, (evs1 ++ evs2). split; [done|]. simpl in *.
    rewrite T2, T1, app_assoc. repeat split; try done.
    + by rewrite runs_of_app, R1, R2.
    + by rewrite warnings_of_app, N1, N2.
Qed.

(** The flush of a queue that holds such a watcher, the watchers ahead of
    it enqueueing nothing: they run, then the watcher runs until the guard
    leaves the loop, and the state is reset. *)
Lemma flushBody_self_among fuel s :
  sort_by_id (queue s) = pre ++ w :: post ->
  (forall x, x ∈ pre -> enqueues_nothing run before x) ->
  waiting s = true -> circular s !! id w = None ->
  (length pre + MAX_UPDATE_COUNT < fuel)%nat ->
  exists s' evs,
    flushBody cfg run before flushRec fuel s = Done s'
    /\ queue s' = [] /\ has s' = ∅ /\ circular s' = ∅
    /\ waiting s' = false /\ flushing s' = false
    /\ trace s' = trace s ++ evs
    /\ runs_of evs = pre ++ replicate (S MAX_UPDATE_COUNT) w
    /\ warnings_of evs = [loop_message w].
Proof.
  intros Hs Hq W C Hf.
  set (s0 := set_index 0 (set_queue (sort_by_id (queue s))
                            (set_flushing true s))).
  destruct (flushLoop_quiet_prefix cfg run before flushRec pre
              (fuel - length pre) s0 (w :: post))
    as (s1 & evs1 & E1 & Q1 & I1 & W1 & F1 & C1 & _ & T1 & R1 & N1);
    [done|done|].
  replace (length pre + (fuel - length pre))%nat with fuel in E1 by lia.
  destruct (flushLoop_self_among MAX_UPDATE_COUNT 0 (fuel - length pre) s1)
    as (s2 & evs2 & E2 & T2 & R2 & N2).
  { rewrite Q1. subst s0. simpl. by rewrite Hs. }
  { rewrite I1. subst s0. simpl. lia. }
  { by rewrite W1. }
  { by rewrite F1. }
  { rewrite C1. subst s0. simpl. by rewrite C. }
  { done. }
  { lia. }
  rewrite E2 in E1.
  destruct (flushBody_done cfg run before flushRec fuel s s2 E1)
    as (s' & evs3 & -> & Q3 & H3 & C3 & W3 & F3 & T3 & R3 & N3).
  exists s', ((evs1 ++ evs2) ++ evs3). split; [done|].
  rewrite diagnostic_build in C3.
  repeat (split; [done|]). split.
  - rewrite T3, T2, T1. subst s0. simpl. by rewrite <- !app_assoc.
  - by rewrite !runs_of_app, !warnings_of_app, R1, R2, R3, N1, N2, N3,
      !app_nil_r.
Qed.
End SelfLoopAmong.

(** ** Watchers enqueued while the queue is being flushed *)

Section Pending.
Variable cfg : Config.
Variable run : Watcher -> Behaviour.
Variable before : Watcher -> option Behaviour.
Variable flushRec : Sched -> Outcome Sched.

(** Unless the circular guard leaves the loop, every watcher in the queue
    at or behind the cursor has run when the loop ends. *)
Lemma flushLoop_runs_pending fuel s s' :
  waiting s = true ->
  flushLoop cfg run before flushRec fuel s = Done s' ->
  warnings_of (trace s') = warnings_of (trace s) ->
  exists evs, trace s' = trace s ++ evs
              /\ forall x, x ∈ drop (index s) (queue s) -> x ∈ runs_of evs.
Proof.
  revert s. induction fuel as [|fuel IH]; intros s W;
    rewrite flushLoop_unfold;
    destruct (queue s !! index s) as [y|] eqn:Hy; try discriminate.
  - intros [= <-] _. exists []. rewrite app_nil_r. split; [done|].
    apply lookup_ge_None in Hy. rewrite drop_ge by done.
    intros x Hx. by apply elem_of_nil in Hx.
  - destruct (run_watcher_ran cfg run before flushRec y s W)
      as (s1 & -> & [W1 F1 I1 C1 (evs1 & T1 & R1 & N1) _ L1 _ P1]).
    cbn [obind].
    destruct (after_run_fields cfg y s1) as (Q2 & I2 & W2 & T2).
    destruct (after_run cfg y s1) as [s2 stop]. simpl in Q2, I2, W2, T2.
    pose proof (lookup_lt_Some _ _ _ Hy) as Lt.
    destruct stop.
    + intros [= <-] Hw. exfalso.
      rewrite T2, T1, !warnings_of_app, N1 in Hw. simpl in Hw.
      rewrite app_nil_r in Hw.
      apply (f_equal length) in Hw. rewrite length_app in Hw.
      simpl in Hw. lia.
    + rewrite app_nil_r in T2. intros E Hw.
      destruct (IH (set_index (S (index s2)) s2)) as (evs2 & T3 & H3).
      { simpl. congruence. }
      { exact E. }
      { simpl. by rewrite Hw, T2, T1, warnings_of_app, N1, app_nil_r. }
      simpl in T3, H3.
      exists (evs1 ++ evs2). rewrite T3, T2, T1, app_assoc.
      split; [done|]. intros x Hx. rewrite runs_of_app, R1.
      rewrite (drop_S _ _ _ Hy) in Hx.
      apply elem_of_cons in Hx as [->|Hx].
      * apply elem_of_cons. by left.
      * apply elem_of_cons. right. apply H3.
        rewrite Q2, I2, I1. eapply elem_of_sublist; [exact Hx|].
        by apply P1.
  - intros [= <-] _. exists []. rewrite app_nil_r. split; [done|].
    apply lookup_ge_None in Hy. rewrite drop_ge by done.
    intros x Hx. by apply elem_of_nil in Hx.
Qed.

(** The loop gets to a watcher behind the cursor when the watchers ahead
    of it enqueue nothing: it runs right after them, whatever it and the
    watchers behind it do then. *)
Lemma flushLoop_reaches ahead w rest fuel s :
  waiting s = true ->
  drop (index s) (queue s) = ahead ++ w :: rest ->
  (forall x, x ∈ ahead -> enqueues_nothing run before x) ->
  (length ahead < fuel)%nat ->
  exists evs,
    trace (outcome_state (flushLoop cfg run before flushRec fuel s))
    = trace s ++ evs
    /\ take (S (length ahead)) (runs_of evs) = ahead ++ [w].
Proof.
  intros W D Q Hf.
  replace fuel with (length ahead + S (fuel - S (length ahead)))%nat by lia.
  destruct (flushLoop_quiet_prefix cfg run before flushRec ahead
              (S (fuel - S (length ahead))) s (w :: rest) D Q)
    as (s1 & evs1 & -> & Q1 & I1 & W1 & _ & _ & _ & T1 & R1 & _).
  assert (queue s1 !! index s1 = Some w) as Hw.
  { rewrite Q1, I1, <- lookup_drop, D, lookup_app_r by lia.
    by rewrite Nat.sub_diag. }
  rewrite flushLoop_unfold, Hw.
  destruct (run_watcher_ran cfg run before flushRec w s1)
    as (s2 & -> & [W2 _ _ _ (evs2 & T2 & R2 & _) _ _ _ _]); [congruence|].
  cbn [obind].
  destruct (after_run_fields cfg w s2) as (_ & _ & W3 & T3).
  destruct (after_run cfg w s2) as [s3 stop]. simpl in W3, T3.
  assert (exists evs3,
            trace (outcome_state
                     (if stop then Done s3
                      else flushLoop cfg run before flushRec
                             (fuel - S (length ahead))
                             (set_index (S (index s3)) s3)))
            = trace s ++ (evs1 ++ evs2) ++ evs3) as (evs3 & T4).
  { destruct stop.
    - eexists. simpl. by rewrite T3, T2, T1, <- !app_assoc.
    - destruct (flushLoop_trace cfg run before flushRec
                  (fuel - S (length ahead)) (set_index (S (index s3)) s3))
        as (evs3 & T4); [simpl; congruence|].
      exists evs3. rewrite T4. simpl.
      by rewrite T3, T2, T1, app_nil_r, <- !app_assoc. }
  exists ((evs1 ++ evs2) ++ evs3). split; [exact T4|].
  rewrite !runs_of_app, R1, R2, <- app_assoc.
  replace (S (length ahead)) with (length ahead + 1)%nat by lia.
  by rewrite take_app_add.
Qed.

(** Where [queueWatcher] puts a watcher while the queue is being
    flushed. *)
Lemma queueWatcher_mid_flush w s :
  flushing s = true -> waiting s = true ->
  (index s < length (queue s))%nat ->
  is_nullish (has s !! id w) = true ->
  exists p s',
    queueWatcher cfg flushRec w s = Done s'
    /\ queue s' = take p (queue s) ++ w :: drop p (queue s)
    /\ index s' = index s
    /\ (index s < p <= length (queue s))%nat
    /\ (forall x, x ∈ drop p (queue s) -> (id w < id x)%Z)
    /\ (p = S (index s)
        \/ exists y, (index s < p - 1)%nat
                     /\ queue s !! (p - 1)%nat = Some y /\ (id y <= id w)%Z)
    /\ w ∈ drop (S (index s')) (queue s').
Proof.
  intros F W L N.
  set (p := scan_back (queue s) (index s) (id w) (length (queue s))).
  pose proof (scan_back_after_cursor (queue s) (index s) (id w) _ L) as P1.
  pose proof (scan_back_le (queue s) (index s) (id w) (length (queue s))) as P2.
  fold p in P1, P2.
  exists p. unfold queueWatcher. rewrite N. simpl. rewrite F. simpl.
  rewrite W. simpl. eexists. split; [reflexivity|]. simpl. fold p.
  split; [done|]. split; [done|]. split; [lia|]. split; [|split].
  - intros x Hx. apply list_elem_of_lookup in Hx as [j Hj].
    rewrite lookup_drop in Hj.
    apply (scan_back_passed (queue s) (index s) (id w)
             (length (queue s)) (p + j) x); [|done].
    apply lookup_lt_Some in Hj. fold p. lia.
  - apply scan_back_stop. lia.
  - apply list_elem_of_lookup. exists (p - S (index s))%nat.
    rewrite lookup_drop.
    replace (S (index s) + (p - S (index s)))%nat with p by lia.
    by apply splice_in_lookup.
Qed.
End Pending.

(** C1 (as stated, refuted): while the flush runs watcher 5, that watcher
    enqueues the watchers 2 and 8.  The claim has watcher 2 run in the next
    flush only.  It runs in the same flush, right after watcher 5 and before
    watcher 8, and the next flush runs nothing. *)
Lemma C1_counterexample :
  finished Scenarios.mid_flush_first = true
  /\ map id Scenarios.first_runs = [5; 2; 8]%Z
  /\ Scenarios.second_runs = []
  /\ ~ ((Scenarios.watcher 8 ∈ Scenarios.first_runs)
        /\ (Scenarios.watcher 2 ∉ Scenarios.first_runs)
        /\ (Scenarios.watcher 2 ∈ Scenarios.second_runs)).
Proof.
  split; [by vm_compute|]. split; [by vm_compute|]. split; [by vm_compute|].
  intros (_ & _ & H). vm_compute in H. by apply elem_of_nil in H.
Qed.

(** C1 (amended): a watcher enqueued while the queue is being flushed, its
    id not being in the presence set, is put in the queue behind the cursor,
    whatever its id: before the pending watchers with larger ids that the
    backward scan passes, directly behind the cursor or behind a watcher
    whose id is not larger; directly behind the cursor when all pending
    watchers have larger ids.  So it runs in the flush under way, not in the
    next one, once the loop gets to it.  When the loop goes on from the next
    position with the queue as this call left it, and the pending watchers
    now ahead of the new one enqueue nothing, the new watcher runs right
    after them, whatever it and the watchers behind it do (directly behind
    the cursor, it runs next); and whatever the watchers do, it has run
    whenever the loop comes to its end without the circular guard leaving
    it. *)
Theorem C1_mid_flush_enqueue_runs_in_same_flush cfg run before flushRec w s :
  flushing s = true -> waiting s = true ->
  (index s < length (queue s))%nat ->
  is_nullish (has s !! id w) = true ->
  exists p s',
    queueWatcher cfg flushRec w s = Done s'
    /\ queue s' = take p (queue s) ++ w :: drop p (queue s)
    /\ index s' = index s
    /\ (index s < p <= length (queue s))%nat
    /\ (forall x, x ∈ drop p (queue s) -> (id w < id x)%Z)
    /\ (p = S (index s)
        \/ exists y, (index s < p - 1)%nat
                     /\ queue s !! (p - 1)%nat = Some y /\ (id y <= id w)%Z)
    /\ ((forall x, x ∈ drop (S (index s)) (queue s) -> (id w < id x)%Z) ->
        p = S (index s))
    /\ (forall fuel,
          let ahead := take (p - S (index s)) (drop (S (index s)) (queue s)) in
          (forall x, x ∈ ahead -> enqueues_nothing run before x) ->
          (length ahead < fuel)%nat ->
          exists evs,
            trace (outcome_state
                     (flushLoop cfg run before flushRec fuel
                        (set_index (S (index s')) s')))
            = trace s' ++ evs
            /\ take (S (length ahead)) (runs_of evs) = ahead ++ [w])
    /\ (forall fuel s2,
          flushLoop cfg run before flushRec fuel (set_index (S (index s')) s')
          = Done s2 ->
          warnings_of (trace s2) = warnings_of (trace s') ->
          exists evs, trace s2 = trace s' ++ evs /\ w ∈ runs_of evs).
Proof.
  intros F W L N.
  destruct (queueWatcher_mid_flush cfg flushRec w s F W L N)
    as (p & s' & E & Q & I & P & G & St & Pe).
  exists p, s'. repeat (split; [done|]). split; [|split].
  - intros Hall. destruct St as [?|(y & Hi & Hy & Hle)]; [done|].
    exfalso. assert (id w < id y)%Z; [|lia].
    apply Hall. apply list_elem_of_lookup.
    exists (p - 1 - S (index s))%nat. rewrite lookup_drop. rewrite <- Hy.
    f_equal. lia.
  - intros fuel ahead Hq Hf.
    destruct (queueWatcher_extends cfg flushRec w s W) as (s'' & E' & X & _).
    rewrite E in E'. injection E' as <-.
    apply (flushLoop_reaches cfg run before flushRec ahead w
             (drop p (queue s)) fuel (set_index (S (index s')) s')); try done.
    + simpl. apply (ext_waiting _ _ X).
    + simpl. rewrite Q, I. apply (splice_in_drop (S (index s)) p w (queue s)).
      lia.
  - intros fuel s2 E2 Hw.
    destruct (queueWatcher_extends cfg flushRec w s W) as (s'' & E' & X & _).
    rewrite E in E'. injection E' as <-.
    destruct (flushLoop_runs_pending cfg run before flushRec fuel
                (set_index (S (index s')) s') s2) as (evs & T & H).
    + simpl. apply (ext_waiting _ _ X).
    + exact E2.
    + exact Hw.
    + exists evs. split; [exact T|]. by apply H.
Qed.

(** Watcher 2 is enqueued while watcher 5 runs, with watcher 9 pending: it
    is put directly behind watcher 5, and it is the next watcher to run. *)
Lemma C1_witness :
  exists p s',
    queueWatcher Scenarios.dev (fun s => Done s) (Scenarios.watcher 2)
      Scenarios.running_5 = Done s'
    /\ p = 2%nat
    /\ map id (queue s') = [3; 5; 2; 9]%Z
    /\ exists evs,
         trace (outcome_state
                  (flushLoop Scenarios.dev Scenarios.five_enqueues_2_and_8
                     Scenarios.no_before (fun s => Done s) 1
                     (set_index 2 s')))
         = trace s' ++ evs
         /\ take 1 (runs_of evs) = [Scenarios.watcher 2].
Proof.
  destruct (C1_mid_flush_enqueue_runs_in_same_flush
              Scenarios.dev Scenarios.five_enqueues_2_and_8
              Scenarios.no_before (fun s => Done s)
              (Scenarios.watcher 2) Scenarios.running_5)
    as (p & s' & E & Q & I & _ & _ & _ & Hp & Hr & _).
  - reflexivity.
  - reflexivity.
  - simpl. lia.
  - reflexivity.
  - assert (p = 2%nat) as ->.
    { apply Hp. intros x Hx. simpl in Hx.
      apply list_elem_of_singleton in Hx. subst x. simpl. lia. }
    exists 2%nat, s'. split; [exact E|]. split; [reflexivity|].
    split; [rewrite Q; reflexivity|].
    destruct (Hr 1%nat) as (evs & T & R).
    + intros x Hx. simpl in Hx. by apply elem_of_nil in Hx.
    + simpl. lia.
    + exists evs. rewrite I in T. split; [exact T|exact R].
Defined.

(** C5 (as stated, refuted): in the production build nothing counts the
    re-runs; with fuel for 199 iterations the watcher that enqueues itself
    has run 199 times, more than 101, no diagnostic was given, and the loop
    is still going on. *)
Lemma C5_counterexample :
  finished (Scenarios.self_loop_in_production 200) = false
  /\ times_run (Scenarios.watcher 1)
       (trace (outcome_state (Scenarios.self_loop_in_production 200)))
     = 199%nat
  /\ (101 < times_run (Scenarios.watcher 1)
             (trace (outcome_state (Scenarios.self_loop_in_production 200))))%nat
  /\ warnings_of (trace (outcome_state (Scenarios.self_loop_in_production 200)))
     = [].
Proof.
  assert (times_run (Scenarios.watcher 1)
            (trace (outcome_state (Scenarios.self_loop_in_production 200)))
          = 199%nat) as E by (by vm_compute).
  split; [by vm_compute|]. split; [exact E|]. split; [rewrite E; lia|].
  by vm_compute.
Qed.

(** C5 (amended): in a build that is not the production build, a watcher
    whose [run] always enqueues itself again runs at most 101 times in one
    flush (threshold 100, plus the first run), however long the flush goes
    on and whatever the other watchers do.  When it enqueues nothing but
    itself, its id being smaller than the ids of the watchers behind it in
    the sorted queue, and the watchers ahead of it enqueue nothing, the
    flush ends: the watchers ahead run, then the watcher runs 101 times,
    then the loop is left with the diagnostic that names the watcher; the
    watchers behind it are not run, and the scheduler state is reset. *)
Theorem C5_circular_guard cfg run before w s :
  production cfg = false ->
  (forall h, QueueWatcher w ∈ run w h) ->
  waiting s = true -> circular s !! id w = None ->
  (forall fuel, exists evs,
      trace (outcome_state (flushSchedulerQueue cfg run before fuel s))
      = trace s ++ evs
      /\ (times_run w evs <= 101)%nat)
  /\ (forall pre post,
        sort_by_id (queue s) = pre ++ w :: post ->
        (forall x, x ∈ post -> (id w < id x)%Z) ->
        (forall h, run w h = [QueueWatcher w]) ->
        (forall b h, before w = Some b -> b h = []) ->
        (forall x, x ∈ pre -> enqueues_nothing run before x) ->
        forall fuel, (length pre + 101 < fuel)%nat ->
        exists s' evs,
          flushSchedulerQueue cfg run before fuel s = Done s'
          /\ trace s' = trace s ++ evs
          /\ runs_of evs = pre ++ replicate 101 w
          /\ warnings_of evs = [loop_message w]
          /\ idle s' /\ waiting s' = false).
Proof.
  intros D S W C. split.
  - intros fuel. by apply flushSchedulerQueue_bound.
  - intros pre post Hs Hp Hr Hb Hq fuel Hf.
    destruct fuel as [|fuel]; [lia|]. simpl.
    destruct (flushBody_self_among cfg run before
                (flushSchedulerQueue cfg run before fuel) w pre post
                D Hr Hb Hp fuel s)
      as (s' & evs & E & Q' & H' & _ & W' & F' & T' & R' & N');
      try done.
    { unfold MAX_UPDATE_COUNT. lia. }
    exists s', evs. by repeat split.
Qed.

(** The watchers 3, 1 and 2 are enqueued, 2 enqueueing itself whenever it
    runs, in the development build: the flush runs 1, then 2 for 101 times,
    then gives the diagnostic and ends; 3 is not run. *)
Lemma C5_witness :
  exists s' evs,
    flushSchedulerQueue Scenarios.dev Scenarios.second_enqueues_itself
      Scenarios.no_before 103
      (Scenarios.enqueued Scenarios.dev
         [Scenarios.watcher 3; Scenarios.watcher 1; Scenarios.watcher 2])
    = Done s'
    /\ trace s' = [EvNextTick] ++ evs
    /\ runs_of evs = Scenarios.watcher 1 :: replicate 101 (Scenarios.watcher 2)
    /\ times_run (Scenarios.watcher 3) evs = 0%nat
    /\ warnings_of evs
       = ["You may have an infinite update loop in watcher with expression "
          +:+ dquote +:+ "count" +:+ dquote].
Proof.
  destruct (C5_circular_guard Scenarios.dev Scenarios.second_enqueues_itself
              Scenarios.no_before (Scenarios.watcher 2)
              (Scenarios.enqueued Scenarios.dev
                 [Scenarios.watcher 3; Scenarios.watcher 1;
                  Scenarios.watcher 2]))
    as [_ H].
  - reflexivity.
  - intros h. apply list_elem_of_singleton. reflexivity.
  - reflexivity.
  - reflexivity.
  - destruct (H [Scenarios.watcher 1] [Scenarios.watcher 3])
      with (fuel := 103%nat) as (s' & evs & E & T & R & N & _).
    + reflexivity.
    + intros x Hx. apply list_elem_of_singleton in Hx. subst x. simpl. lia.
    + reflexivity.
    + intros b h B. discriminate B.
    + intros x Hx. apply list_elem_of_singleton in Hx. subst x.
      split; [reflexivity|]. intros b h B. discriminate B.
    + simpl. lia.
    + exists s', evs. split; [exact E|]. split; [exact T|].
      split; [exact R|]. split; [|exact N].
      unfold times_run. rewrite R. reflexivity.
Defined.

(** The guard counts a watcher only when it is enqueued again during its own
    run.  Two watchers that enqueue each other are not counted: with fuel
    for 149 iterations the loop has run 149 watchers and is still going on,
    without a diagnostic, and the watcher behind the two has not run. *)
Lemma mutual_enqueue_is_not_counted :
  finished (Scenarios.ping_pong_flush 150) = false
  /\ length (runs_of (trace (outcome_state (Scenarios.ping_pong_flush 150))))
     = 149%nat
  /\ times_run (Scenarios.watcher 8)
       (trace (outcome_state (Scenarios.ping_pong_flush 150))) = 0%nat
  /\ warnings_of (trace (outcome_state (Scenarios.ping_pong_flush 150))) = [].
Proof. repeat split; by vm_compute. Qed.

End SchedulerProps.

(** * Properties of the intercepted array mutators *)

Module ArrayMethodsProps.
Import ArrayMethods.

Lemma methodsToPatch_complete (m : Method) : m ∈ methodsToPatch.
Proof. destruct m; unfold methodsToPatch; set_solver. Qed.

Section Mutator.
Variable Value : Type.
Variable original : Method -> list Value -> list Value -> list Value * Value.

(** The events of one intercepted call. *)
Definition call_events (method : Method) (args : list Value) : list (Event Value) :=
  EvOriginal method args
  :: match inserted_of Value method args with
     | Some ins => [EvObserveArray ins; EvNotify]
     | None => [EvNotify]
     end.

Lemma mutator_unfold method args this :
  mutator Value original method args this
  = ({| elements := (original method (elements this) args).1;
        events := events this ++ call_events method args |},
     (original method (elements this) args).2).
Proof.
  unfold mutator, call_events.
  destruct (original method (elements this) args) as [elems result].
  destruct (inserted_of Value method args); simpl; unfold emit; simpl;
    by rewrite <- !app_assoc.
Qed.

(** C8: every intercepted mutator calls the native operation first and
    returns its result as it is; the elements handed to [observeArray] are
    all the arguments for [push] and [unshift], the arguments from the
    third on for [splice], and none for the other methods; and the
    notifier of the array is notified exactly once, at the end. *)
Theorem C8_mutator method args this :
  method ∈ methodsToPatch
  /\ exists evs,
    mutator Value original method args this
    = ({| elements := (original method (elements this) args).1;
          events := events this ++ evs |},
       (original method (elements this) args).2)
    /\ head evs = Some (EvOriginal method args)
    /\ observed_elements evs
       = match method with
         | Push | Unshift => args
         | Splice => drop 2 args
         | Pop | Shift | Sort | Reverse => []
         end
    /\ notifications evs = 1%nat
    /\ last evs = Some EvNotify.
Proof.
  split; [apply methodsToPatch_complete|].
  exists (call_events method args). split; [apply mutator_unfold|].
  unfold call_events, observed_elements, notifications.
  destruct method; simpl; by rewrite ?app_nil_r.
Qed.

(** Appending [a] and [b] hands exactly [a] and [b] to [observeArray];
    inserting [x] at index 1 hands over [x]; a [splice] that only removes
    hands over nothing; each call notifies once. *)
Lemma mutator_examples (a b x start count : Value) this :
  let new_events method args :=
    drop (length (events this))
         (events (mutator Value original method args this).1) in
  (observed_elements (new_events Push [a; b]) = [a; b]
   /\ notifications (new_events Push [a; b]) = 1%nat)
  /\ (observed_elements (new_events Splice [start; count; x]) = [x]
      /\ notifications (new_events Splice [start; count; x]) = 1%nat)
  /\ (observed_elements (new_events Splice [start; count]) = []
      /\ notifications (new_events Splice [start; count]) = 1%nat).
Proof.
  intros new_events. subst new_events. cbv beta.
  rewrite !mutator_unfold. simpl. rewrite !drop_app_length. done.
Qed.
End Mutator.

End ArrayMethodsProps.

(** * Properties of the resolution of async components *)

Module AsyncComponentProps.
Import AsyncComponent.

(** ** Events *)

Lemma forced_app a b : forced (a ++ b) = forced a ++ forced b.
Proof. apply omap_app. Qed.

Lemma forced_force_updates cs : forced (map EvForceUpdate cs) = cs.
Proof.
  induction cs as [|c cs IH]; [done|]. unfold forced in *. simpl.
  f_equal. exact IH.
Qed.

Lemma invocations_app a b : invocations (a ++ b) = (invocations a + invocations b)%nat.
Proof. unfold invocations. by rewrite omap_app, length_app. Qed.

Lemma invocations_force_updates cs : invocations (map EvForceUpdate cs) = 0%nat.
Proof. by induction cs. Qed.

Lemma state_eta st : set_events (events st ++ []) st = st.
Proof. destruct st. unfold set_events. simpl. by rewrite app_nil_r. Qed.

Lemma force_updates_fold cs st :
  foldl (fun st c => emit (EvForceUpdate c) st) st cs
  = set_events (events st ++ map EvForceUpdate cs) st.
Proof.
  revert st. induction cs as [|c cs IH]; intros st; simpl.
  - by rewrite state_eta.
  - rewrite IH. unfold emit, set_events. simpl. by rewrite <- app_assoc.
Qed.

Section Resolver.
Context {NT : NumberText}.
Variable production : bool.
Variable factory : Producer.

(** [forceRender]: one request to each pending consumer, in order; the list
    of pending consumers is emptied when the render is completed. *)
Lemma forceRender_eq renderCompleted st :
  forceRender renderCompleted st
  = let st' := set_events (events st ++ map EvForceUpdate (default [] (contexts st))) st in
    if renderCompleted then set_contexts (Some []) st' else st'.
Proof. unfold AsyncComponent.forceRender. by rewrite force_updates_fold. Qed.

(** The diagnostic of a failure. *)
Definition diagnostic (reason : option string) : list Event :=
  if negb production then [EvWarn (fail_message (pname factory) reason)] else [].


(** ** The failure callback *)

Lemma reject_again reason st :
  rejectCalled st = true -> reject production factory reason st = st.
Proof. intros H. unfold reject, once. by rewrite H. Qed.

Lemma reject_first reason st :
  rejectCalled st = false ->
  let st' := reject production factory reason st in
  rejectCalled st' = true
  /\ resolveCalled st' = resolveCalled st
  /\ resolved st' = resolved st
  /\ loading st' = loading st
  /\ loadingComp st' = loadingComp st
  /\ errorComp st' = errorComp st
  /\ sync st' = sync st
  /\ baseCtor st' = baseCtor st
  /\ timers st' = timers st
  /\ match errorComp st with
     | Some _ =>
         error st' = true
         /\ contexts st' = Some []
         /\ events st'
            = events st ++ diagnostic reason
              ++ map EvForceUpdate (default [] (contexts st))
     | None =>
         error st' = error st
         /\ contexts st' = contexts st
         /\ events st' = events st ++ diagnostic reason
     end.
Proof.
  intros H. destruct st as [e ec r l lc cs sy b rc jc ts evs].
  simpl in H. subst jc. unfold reject, once, diagnostic.
  destruct ec, production; simpl; rewrite ?force_updates_fold; simpl;
    rewrite ?app_nil_r, <- ?app_assoc; done.
Qed.


(** ** The completion callback *)

Lemma resolve_again res st :
  resolveCalled st = true -> resolve res st = st.
Proof. intros H. unfold resolve, once. by rewrite H. Qed.

Lemma resolve_first res st :
  resolveCalled st = false ->
  let st' := resolve res st in
  resolveCalled st' = true
  /\ rejectCalled st' = rejectCalled st
  /\ resolved st' = ensureCtor res (baseCtor st)
  /\ contexts st' = Some []
  /\ error st' = error st
  /\ errorComp st' = errorComp st
  /\ loading st' = loading st
  /\ loadingComp st' = loadingComp st
  /\ sync st' = sync st
  /\ baseCtor st' = baseCtor st
  /\ timers st' = timers st
  /\ events st'
     = events st ++ (if sync st then []
                     else map EvForceUpdate (default [] (contexts st))).
Proof.
  intros H. destruct st as [e ec r l lc cs sy b rc jc ts evs].
  simpl in H. subst rc. unfold resolve, once.
  destruct sy; simpl; rewrite ?force_updates_fold; simpl;
    rewrite ?app_nil_r; done.
Qed.

(** ** The producer is called at most once *)

(** What an operation of the resolver other than the first request does:
    it appends events, none of them a call of the producer, and it leaves
    [contexts] defined. *)
Definition keeps (f : State -> State) : Prop :=
  forall st, exists evs,
    events (f st) = events st ++ evs
    /\ invocations evs = 0%nat
    /\ (isDef (contexts st) = true -> isDef (contexts (f st)) = true).

Lemma keeps_id : keeps (fun st => st).
Proof. intros st. exists []. by rewrite app_nil_r. Qed.

Lemma keeps_compose f g : keeps f -> keeps g -> keeps (fun st => g (f st)).
Proof.
  intros Hf Hg st. destruct (Hf st) as (e1 & E1 & I1 & C1).
  destruct (Hg (f st)) as (e2 & E2 & I2 & C2).
  exists (e1 ++ e2). rewrite E2, E1, app_assoc, invocations_app, I1, I2. auto.
Qed.

Lemma keeps_resolve res : keeps (resolve res).
Proof.
  intros st. destruct (resolveCalled st) eqn:H.
  - rewrite resolve_again by done. apply keeps_id.
  - destruct (resolve_first res st H)
      as (_ & _ & _ & C & _ & _ & _ & _ & _ & _ & _ & E).
    eexists. split; [exact E|]. rewrite C.
    split; [|done]. destruct (sync st); [done|apply invocations_force_updates].
Qed.

Lemma keeps_reject reason : keeps (reject production factory reason).
Proof.
  intros st. destruct (rejectCalled st) eqn:H.
  - rewrite reject_again by done. apply keeps_id.
  - destruct (reject_first reason st H)
      as (_ & _ & _ & _ & _ & _ & _ & _ & _ & X).
    destruct (errorComp st).
    + destruct X as (_ & C & E). eexists. split; [exact E|]. rewrite C.
      split; [|done]. rewrite invocations_app, invocations_force_updates.
      unfold diagnostic. by destruct production.
    + destruct X as (_ & C & E). eexists. split; [exact E|]. rewrite C.
      split; [|done]. unfold diagnostic. by destruct production.
Qed.

Lemma keeps_callback cb : keeps (callback production factory cb).
Proof. destruct cb; [apply keeps_resolve|apply keeps_reject]. Qed.

Lemma keeps_callbacks cbs :
  keeps (fun st => foldl (fun st cb => callback production factory cb st) st cbs).
Proof.
  induction cbs as [|cb cbs IH]; simpl; [apply keeps_id|].
  apply (keeps_compose (callback production factory cb) _
           (keeps_callback cb) IH).
Qed.

Lemma keeps_emit e : e <> EvInvoke -> keeps (emit e).
Proof.
  intros H st. exists [e]. split; [done|]. split; [|done].
  by destruct e.
Qed.

Lemma keeps_setTimeout t ms : keeps (setTimeout t ms).
Proof. intros st. exists [EvSetTimeout t ms]. by repeat split. Qed.

Lemma keeps_fields f :
  (forall st, events (f st) = events st /\ contexts (f st) = contexts st) ->
  keeps f.
Proof.
  intros H st. destruct (H st) as [E C]. exists [].
  rewrite E, C, app_nil_r. by repeat split.
Qed.

Lemma keeps_after_factory base : keeps (after_factory factory base).
Proof.
  unfold after_factory. destruct (returned factory) as [| |[de dl dd dt]].
  - apply keeps_id.
  - intros st. destruct (isUndef (resolved st)).
    + by apply keeps_emit.
    + apply keeps_id.
  - intros st. unfold setTimeout, emit.
    destruct de, dl, dd as [[| |]|], dt; simpl; rewrite <- ?app_assoc;
      (eexists; split; [reflexivity|]; split; [reflexivity|done]).
Qed.

Lemma keeps_fire t : keeps (fire production factory t).
Proof.
  intros st. unfold fire.
  destruct (take_timer t (timers st)) as [[ms ts]|]; [|apply keeps_id].
  destruct t.
  - unfold loading_timer. simpl.
    destruct (isUndef (resolved st) && negb (error st)).
    + rewrite force_updates_fold. simpl. eexists. split; [done|].
      split; [apply invocations_force_updates|done].
    + exists []. by rewrite app_nil_r.
  - unfold timeout_timer. simpl.
    destruct (isUndef (resolved st)).
    + destruct (keeps_reject (timeout_reason production ms) (set_timers ts st))
        as (evs & E & I & C). by exists evs.
    + exists []. by rewrite app_nil_r.
Qed.

(** The first request calls the producer; no other request does. *)
Lemma request_spec base ctx st :
  let st' := (resolveAsyncComponent production factory base ctx st).1 in
  exists evs,
    events st' = events st ++ evs
    /\ match contexts st with
       | Some _ => invocations evs = 0%nat /\ isDef (contexts st') = true
       | None => (st' = st /\ evs = [])
                 \/ (invocations evs = 1%nat /\ isDef (contexts st') = true)
       end.
Proof.
  assert (exists evs, events st = events st ++ evs
            /\ match contexts st with
               | Some _ => invocations evs = 0%nat /\ isDef (contexts st) = true
               | None => (st = st /\ evs = [])
                         \/ (invocations evs = 1%nat /\ isDef (contexts st) = true)
               end) as Same.
  { exists []. rewrite app_nil_r. split; [done|].
    destruct (contexts st); [done|by left]. }
  unfold resolveAsyncComponent.
  destruct (error st && isDef (errorComp st)); [exact Same|].
  destruct (isDef (resolved st)); [exact Same|].
  destruct (loading st && isDef (loadingComp st)); [exact Same|].
  clear Same. destruct (contexts st) as [cs|] eqn:C; simpl.
  - exists []. by rewrite app_nil_r.
  - set (st1 := emit EvInvoke _).
    destruct (keeps_callbacks (syncCalls factory) st1) as (e2 & E2 & I2 & C2).
    set (st2 := foldl _ st1 (syncCalls factory)) in *.
    destruct (keeps_after_factory base st2) as (e3 & E3 & I3 & C3).
    exists ([EvInvoke] ++ e2 ++ e3). rewrite E3, E2. subst st1. simpl.
    split; [by rewrite <- !app_assoc|]. right.
    split; [|by apply C3, C2].
    change (EvInvoke :: e2 ++ e3) with ([EvInvoke] ++ e2 ++ e3).
    by rewrite !invocations_app, I2, I3.
Qed.

Lemma step_invocations st a :
  (invocations (events st) <= 1)%nat ->
  (contexts st = None -> invocations (events st) = 0%nat) ->
  (invocations (events (step production factory st a)) <= 1)%nat
  /\ (contexts (step production factory st a) = None ->
      invocations (events (step production factory st a)) = 0%nat).
Proof.
  intros H1 H0.
  assert (forall f, keeps f ->
            (invocations (events (f st)) <= 1)%nat
            /\ (contexts (f st) = None -> invocations (events (f st)) = 0%nat))
    as K.
  { intros f Hf. destruct (Hf st) as (evs & E & I & C).
    rewrite E, invocations_app, I, Nat.add_0_r. split; [done|].
    intros N. apply H0. destruct (contexts st); [|done].
    rewrite N in C. by discriminate C. }
  destruct a as [base ctx|res|reason|t]; simpl.
  - destruct (request_spec base ctx st) as (evs & E & X).
    rewrite E, invocations_app. destruct (contexts st) as [cs|].
    + destruct X as [I C]. rewrite I, Nat.add_0_r. split; [done|].
      intros N. rewrite N in C. discriminate C.
    + rewrite (H0 eq_refl). destruct X as [[_ ->]|[I C]].
      * split; [cbn; lia|done].
      * rewrite I. split; [lia|]. intros N. rewrite N in C. discriminate C.
  - destruct (isDef (contexts st)); [|done]. by apply K, keeps_resolve.
  - destruct (isDef (contexts st)); [|done]. by apply K, keeps_reject.
  - by apply K, keeps_fire.
Qed.

Lemma steps_invocations actions st :
  (invocations (events st) <= 1)%nat ->
  (contexts st = None -> invocations (events st) = 0%nat) ->
  (invocations (events (steps production factory st actions)) <= 1)%nat.
Proof.
  revert st. induction actions as [|a actions IH]; intros st H1 H0; [done|].
  simpl. destruct (step_invocations st a H1 H0). by apply IH.
Qed.


(** ** Requests while the producer is pending *)

Lemma request_pending base ctx st cs :
  contexts st = Some cs ->
  error st && isDef (errorComp st) = false ->
  isDef (resolved st) = false ->
  loading st && isDef (loadingComp st) = false ->
  resolveAsyncComponent production factory base ctx st
  = (set_contexts (Some (cs ++ [ctx])) st, None).
Proof.
  intros C E R L. unfold resolveAsyncComponent. by rewrite E, R, L, C.
Qed.

Lemma request_settled base ctx st :
  isDef (resolved st) = true ->
  (resolveAsyncComponent production factory base ctx st).1 = st.
Proof.
  intros R. unfold resolveAsyncComponent. rewrite R.
  by destruct (error st && isDef (errorComp st)).
Qed.

(** ** The resolved value is written once *)

Lemma after_factory_fields base st :
  resolved (after_factory factory base st) = resolved st
  /\ resolveCalled (after_factory factory base st) = resolveCalled st
  /\ rejectCalled (after_factory factory base st) = rejectCalled st
  /\ contexts (after_factory factory base st) = contexts st
  /\ error (after_factory factory base st) = error st
  /\ sync (after_factory factory base st) = sync st.
Proof.
  unfold after_factory.
  destruct (returned factory) as [| |[de dl dd dt]]; simpl; [done| |].
  - by destruct (isUndef (resolved st)).
  - by destruct de, dl, dd as [[| |]|], dt.
Qed.

(** Once the producer was called: [contexts] is defined, and a resolved
    value is there only if the completion callback ran. *)
Definition called (st : State) : Prop :=
  isDef (contexts st) = true
  /\ (isDef (resolved st) = true -> resolveCalled st = true).

Lemma called_resolve res st : called st -> called (resolve res st).
Proof.
  intros [C R]. destruct (resolveCalled st) eqn:H.
  - by rewrite resolve_again.
  - destruct (resolve_first res st H) as (H' & _ & _ & C' & _).
    split; [by rewrite C'|done].
Qed.

Lemma called_reject reason st :
  called st -> called (reject production factory reason st).
Proof.
  intros [C R]. destruct (rejectCalled st) eqn:H.
  - by rewrite reject_again.
  - destruct (reject_first reason st H)
      as (_ & H' & R' & _ & _ & _ & _ & _ & _ & X).
    split; [|by rewrite H', R'].
    destruct (errorComp st); destruct X as (_ & -> & _); done.
Qed.

Lemma called_callbacks cbs st :
  called st ->
  called (foldl (fun st cb => callback production factory cb st) st cbs).
Proof.
  revert st. induction cbs as [|[res|reason] cbs IH]; intros st H; simpl;
    [done| |]; apply IH; [by apply called_resolve|by apply called_reject].
Qed.

Lemma called_fire t st : called st -> called (fire production factory t st).
Proof.
  intros [C R]. unfold fire.
  destruct (take_timer t (timers st)) as [[ms ts]|]; [|done]. destruct t.
  - unfold loading_timer. simpl.
    destruct (isUndef (resolved st) && negb (error st)); [|done].
    rewrite force_updates_fold. done.
  - unfold timeout_timer. simpl.
    destruct (isUndef (resolved st)); [|done]. by apply called_reject.
Qed.

Lemma fire_fields t st :
  resolved (fire production factory t st) = resolved st
  /\ resolveCalled (fire production factory t st) = resolveCalled st
  /\ (isDef (resolved st) = true ->
      loading (fire production factory t st) = loading st).
Proof.
  unfold fire.
  destruct (take_timer t (timers st)) as [[ms ts]|]; [|done]. destruct t.
  - unfold loading_timer. simpl.
    destruct (isDef (resolved st)) eqn:R; unfold isUndef; rewrite R; simpl.
    + done.
    + destruct (error st); simpl; rewrite ?force_updates_fold; done.
  - unfold timeout_timer. simpl.
    destruct (isUndef (resolved st)); [|done].
    destruct (rejectCalled (set_timers ts st)) eqn:H.
    + by rewrite reject_again.
    + destruct (reject_first (timeout_reason production ms) _ H)
        as (_ & -> & -> & -> & _). done.
Qed.

(** A state is well formed when a resolved value is there only after the
    producer was called and its completion callback ran; every state
    reached from the fresh one is. *)
Definition wf (st : State) : Prop :=
  isDef (resolved st) = true -> called st.

Lemma wf_called st : wf st -> isDef (contexts st) = true -> called st.
Proof. intros W C. split; [done|]. intros R. by apply W. Qed.

Lemma called_first_request base ctx st :
  contexts st = None ->
  error st && isDef (errorComp st) = false ->
  isDef (resolved st) = false ->
  loading st && isDef (loadingComp st) = false ->
  called (resolveAsyncComponent production factory base ctx st).1.
Proof.
  intros C E R L. unfold resolveAsyncComponent. rewrite E, R, L, C. simpl.
  set (st1 := emit EvInvoke _).
  assert (called st1) as H1.
  { subst st1. split; simpl; [done|]. by rewrite R. }
  apply (called_callbacks (syncCalls factory)) in H1.
  set (st2 := foldl _ st1 (syncCalls factory)) in *.
  destruct (after_factory_fields base st2) as (R3 & H3 & _ & C3 & _).
  destruct H1 as [C2 R2]. split; simpl; [by rewrite C3|].
  by rewrite R3, H3.
Qed.

Lemma wf_step st a : wf st -> wf (step production factory st a).
Proof.
  intros W. destruct a as [base ctx|res|reason|t]; simpl.
  - destruct (isDef (resolved st)) eqn:R.
    { by rewrite request_settled. }
    destruct (error st && isDef (errorComp st)) eqn:E.
    { unfold resolveAsyncComponent. by rewrite E. }
    destruct (loading st && isDef (loadingComp st)) eqn:L.
    { unfold resolveAsyncComponent. by rewrite E, R, L. }
    destruct (contexts st) as [cs|] eqn:C.
    + rewrite (request_pending base ctx st cs) by done.
      intros R'. simpl in R'. congruence.
    + intros _. by apply called_first_request.
  - destruct (isDef (contexts st)) eqn:C; [|done].
    intros _. by apply called_resolve, wf_called.
  - destruct (isDef (contexts st)) eqn:C; [|done].
    intros _. by apply called_reject, wf_called.
  - destruct (fire_fields t st) as (R & _ & _). intros R'. rewrite R in R'.
    by apply called_fire, W.
Qed.

Lemma wf_steps actions st : wf st -> wf (steps production factory st actions).
Proof.
  revert st. induction actions as [|a actions IH]; intros st W; [done|].
  simpl. by apply IH, wf_step.
Qed.

Lemma wf_fresh : wf fresh.
Proof. intros R. discriminate R. Qed.

(** After the completion callback ran, no step changes the resolved value;
    and if there is one, no step changes the loading flag. *)
Lemma step_settled st a :
  called st -> resolveCalled st = true ->
  called (step production factory st a)
  /\ resolveCalled (step production factory st a) = true
  /\ resolved (step production factory st a) = resolved st
  /\ (isDef (resolved st) = true ->
      loading (step production factory st a) = loading st).
Proof.
  intros K H. pose proof K as [C _].
  destruct a as [base ctx|res|reason|t]; simpl.
  - unfold resolveAsyncComponent.
    destruct (error st && isDef (errorComp st)); [done|].
    destruct (isDef (resolved st)) eqn:R; [done|].
    destruct (loading st && isDef (loadingComp st)); [done|].
    destruct (contexts st) as [cs|]; [|discriminate C]. simpl.
    repeat split; try done; simpl; by rewrite ?R.
  - rewrite C. by rewrite resolve_again.
  - rewrite C. split; [by apply called_reject|].
    destruct (rejectCalled st) eqn:J.
    + by rewrite reject_again.
    + destruct (reject_first reason st J) as (_ & -> & -> & -> & _). done.
  - split; [by apply called_fire|].
    destruct (fire_fields t st) as (-> & -> & L). done.
Qed.

Lemma steps_settled actions st :
  called st -> resolveCalled st = true ->
  resolved (steps production factory st actions) = resolved st
  /\ (isDef (resolved st) = true ->
      loading (steps production factory st actions) = loading st).
Proof.
  revert st. induction actions as [|a actions IH]; intros st K H; [done|].
  simpl. destruct (step_settled st a K H) as (K' & H' & R' & L').
  destruct (IH _ K' H') as (R'' & L''). rewrite R'', R'. split; [done|].
  intros R. rewrite L'' by (by rewrite R'). by apply L'.
Qed.

End Resolver.


(** The examples are about the producers of [AsyncScenarios], whose numbers
    are written with their decimal digits. *)
#[local] Existing Instance AsyncScenarios.digits.

(** ** The failure callback and the Errored state *)

(** C2 (as stated, refuted): the producer keeps its callbacks and supplies no
    error substitute; its failure callback is called for the first time.
    The claim has the unit become Errored.  The error flag stays unset, the
    pending consumer stays registered and is not asked to re-render, and the
    next request is treated as one for a pending producer. *)
Lemma C2_counterexample :
  let st := AsyncScenarios.run AsyncScenarios.plain
              [Request "Vue" 1%nat; Reject (Some "offline")] in
  error st = false
  /\ ~ (error st = true)
  /\ rejectCalled st = true
  /\ contexts st = Some [1%nat]
  /\ forced (events st) = []
  /\ resolveAsyncComponent false AsyncScenarios.plain "Vue" 2%nat st
     = (set_contexts (Some [1%nat; 2%nat]) st, None).
Proof. vm_compute. repeat split; try done. Qed.

(** C2 (amended): when the failure callback is called for the first time,
    the diagnostic is recorded (unless in the production build); if an error
    substitute was supplied, the unit becomes Errored, every pending consumer
    is asked to re-render and the pending list is emptied; if none was
    supplied, nothing else happens: the error flag is as before and the
    pending consumers stay registered, none being asked to re-render. *)
Theorem C2_first_failure production factory reason st :
  rejectCalled st = false ->
  let st' := reject production factory reason st in
  rejectCalled st' = true
  /\ resolved st' = resolved st
  /\ loading st' = loading st
  /\ match errorComp st with
     | Some _ =>
         error st' = true
         /\ contexts st' = Some []
         /\ events st'
            = events st ++ diagnostic production factory reason
              ++ map EvForceUpdate (default [] (contexts st))
     | None =>
         error st' = error st
         /\ contexts st' = contexts st
         /\ events st' = events st ++ diagnostic production factory reason
     end.
Proof.
  intros H.
  destruct (reject_first production factory reason st H)
    as (J & _ & R & L & _ & _ & _ & _ & _ & X).
  by repeat split.
Qed.

(** With the error substitute of the descriptor, the failure makes the unit
    Errored and asks the two pending consumers to re-render. *)
Lemma C2_witness :
  let st := AsyncScenarios.run AsyncScenarios.with_error
              [Request "Vue" 1%nat; Request "Vue" 2%nat] in
  let st' := reject false AsyncScenarios.with_error (Some "offline") st in
  error st' = true /\ contexts st' = Some [] /\ forced (events st') = [1%nat; 2%nat].
Proof.
  intros st st'.
  destruct (C2_first_failure false AsyncScenarios.with_error (Some "offline") st)
    as (_ & _ & _ & X).
  - reflexivity.
  - change (errorComp st) with (Some (Extend "Vue" AsyncScenarios.errorView)) in X.
    destruct X as (E & C & V). fold st' in E, C, V.
    split; [exact E|]. split; [exact C|]. rewrite V. reflexivity.
Defined.

(** ** One call of the producer, and the pending consumers *)

(** C3 (as stated, refuted): the descriptor has a loading substitute and
    [delay: 0], so the first request sets the loading flag.  The second
    request, by another consumer while the producer is unresolved, is
    answered with the loading substitute and that consumer is not put in the
    list of pending consumers; when the producer completes, only the first
    consumer is asked to re-render. *)
Lemma C3_counterexample :
  let st := AsyncScenarios.run (AsyncScenarios.with_loading (Some 0))
              [Request "Vue" 1%nat; Request "Vue" 2%nat] in
  let st' := AsyncScenarios.run (AsyncScenarios.with_loading (Some 0))
               [Request "Vue" 1%nat; Request "Vue" 2%nat;
                Resolve AsyncScenarios.compA] in
  resolved st = None
  /\ contexts st = Some [1%nat]
  /\ ~ (contexts st = Some [1%nat; 2%nat])
  /\ forced (events st') = [1%nat]
  /\ ~ (2%nat ∈ forced (events st')).
Proof.
  vm_compute. repeat split; try done.
  intros H. apply elem_of_cons in H as [H|H]; [done|].
  by apply elem_of_nil in H.
Qed.

(** C3 (amended): the producer is called at most once, whatever requests,
    callbacks and timers follow one another; a request for a producer that
    is pending, and for which neither the error substitute nor the loading
    substitute is returned, does not call the producer and puts the consumer
    at the end of the list of pending consumers; and when the completion
    callback runs after the first request returned, each pending consumer is
    asked to re-render once, in order, and the list is emptied. *)
Theorem C3_single_invocation {NT : NumberText} production factory :
  (forall actions,
      (invocations (events (steps production factory fresh actions)) <= 1)%nat)
  /\ (forall st base ctx cs,
        contexts st = Some cs ->
        isDef (resolved st) = false ->
        error st && isDef (errorComp st) = false ->
        loading st && isDef (loadingComp st) = false ->
        resolveAsyncComponent production factory base ctx st
        = (set_contexts (Some (cs ++ [ctx])) st, None)
        /\ events (set_contexts (Some (cs ++ [ctx])) st) = events st)
  /\ (forall st res cs,
        contexts st = Some cs -> sync st = false -> resolveCalled st = false ->
        events (resolve res st) = events st ++ map EvForceUpdate cs
        /\ forced (map EvForceUpdate cs) = cs
        /\ contexts (resolve res st) = Some []
        /\ resolved (resolve res st) = ensureCtor res (baseCtor st)).
Proof.
  split; [|split].
  - intros actions. apply steps_invocations; [cbn; lia|done].
  - intros st base ctx cs C R E L. split; [|done].
    by apply request_pending.
  - intros st res cs C S H.
    destruct (resolve_first res st H)
      as (_ & _ & R & C' & _ & _ & _ & _ & _ & _ & _ & E).
    rewrite S, C in E. simpl in E.
    split; [exact E|]. split; [apply forced_force_updates|]. by split.
Qed.

(** Two consumers ask for a producer that keeps its callbacks; it is called
    once, both are pending, and both are asked once when it completes. *)
Lemma C3_witness :
  let st := AsyncScenarios.run AsyncScenarios.plain [Request "Vue" 1%nat] in
  (invocations (events (AsyncScenarios.run AsyncScenarios.plain
                          [Request "Vue" 1%nat; Request "Vue" 2%nat;
                           Resolve AsyncScenarios.compA])) <= 1)%nat
  /\ resolveAsyncComponent false AsyncScenarios.plain "Vue" 2%nat st
     = (set_contexts (Some [1%nat; 2%nat]) st, None)
  /\ forced (events (resolve AsyncScenarios.compA
                       (set_contexts (Some [1%nat; 2%nat]) st)))
     = [1%nat; 2%nat].
Proof.
  intros st.
  destruct (C3_single_invocation false AsyncScenarios.plain) as (H1 & H2 & H3).
  split; [apply H1|]. split.
  - apply (H2 st "Vue" 2%nat [1%nat]); reflexivity.
  - destruct (H3 (set_contexts (Some [1%nat; 2%nat]) st) AsyncScenarios.compA
                [1%nat; 2%nat] eq_refl eq_refl eq_refl) as (E & _).
    rewrite E. reflexivity.
Defined.

(** ** The run-once guards of the two callbacks *)

(** C4 (as stated, refuted): the two callbacks have a guard each.  After the
    timeout made the unit Errored, the completion callback still stores a
    resolved value; and after a completion, the failure callback still makes
    the unit Errored, after which a request is answered with the error
    substitute and not with the resolved unit. *)
Lemma C4_counterexample :
  let errored := AsyncScenarios.run AsyncScenarios.with_error
                   [Request "Vue" 1%nat; Fire TimeoutTimer] in
  let completed := AsyncScenarios.run AsyncScenarios.with_error
                     [Request "Vue" 1%nat; Resolve AsyncScenarios.compA] in
  (error errored = true /\ resolved errored = None
   /\ resolve AsyncScenarios.compB errored <> errored
   /\ resolved (resolve AsyncScenarios.compB errored)
      = Some (Extend "Vue" AsyncScenarios.compB))
  /\ (resolved completed = Some (Extend "Vue" AsyncScenarios.compA)
      /\ error completed = false
      /\ reject false AsyncScenarios.with_error None completed <> completed
      /\ error (reject false AsyncScenarios.with_error None completed) = true
      /\ (resolveAsyncComponent false AsyncScenarios.with_error "Vue" 2%nat
            (reject false AsyncScenarios.with_error None completed)).2
         = Some (Extend "Vue" AsyncScenarios.errorView)).
Proof. vm_compute. repeat split; try done. Qed.

(** C4 (amended): the completion callback has an effect the first time it is
    called only, and the resolved value is written once: the value of the
    first call stays, whatever requests, callbacks and timers follow.  The
    failure callback likewise has an effect the first time only.  Each
    callback has its own guard: the first call of the completion callback
    stores its value whether or not the failure callback ran before, and the
    first call of the failure callback after a completion still records its
    diagnostic and, if there is an error substitute, sets the error flag. *)
Theorem C4_run_once_callbacks {NT : NumberText} production factory st res :
  isDef (contexts st) = true ->
  resolveCalled st = false ->
  let st1 := resolve res st in
  resolved st1 = ensureCtor res (baseCtor st)
  /\ (forall res', resolve res' st1 = st1)
  /\ (forall actions,
        resolved (steps production factory st1 actions)
        = ensureCtor res (baseCtor st))
  /\ (forall reason st', rejectCalled st' = true ->
        reject production factory reason st' = st')
  /\ (rejectCalled st = false -> forall reason,
        let st2 := reject production factory reason st1 in
        rejectCalled st2 = true
        /\ resolved st2 = resolved st1
        /\ (exists evs, events st2 = events st1
                          ++ diagnostic production factory reason ++ evs)
        /\ (isDef (errorComp st) = true -> error st2 = true)).
Proof.
  intros C H st1.
  destruct (resolve_first res st H)
    as (H1 & J1 & R1 & C1 & _ & EC1 & _ & _ & _ & _ & _ & _).
  fold st1 in H1, J1, R1, C1, EC1.
  split; [exact R1|]. split; [|split; [|split]].
  - intros res'. by apply resolve_again.
  - intros actions. rewrite <- R1.
    apply (steps_settled production factory actions st1); [|done].
    split; [by rewrite C1|done].
  - intros reason st' J. by apply reject_again.
  - intros J reason st2. rewrite <- J1 in J.
    destruct (reject_first production factory reason st1 J)
      as (J2 & _ & R2 & _ & _ & _ & _ & _ & _ & X).
    fold st2 in J2, R2, X. split; [exact J2|]. split; [exact R2|].
    rewrite EC1 in X. destruct (errorComp st) as [e|].
    + destruct X as (E & _ & V). split; [by eexists|done].
    + destruct X as (_ & _ & V). split; [|done].
      exists []. by rewrite app_nil_r.
Qed.

(** The completion callback is called with A and then with B: A stays. *)
Lemma C4_witness :
  let st := AsyncScenarios.run AsyncScenarios.plain [Request "Vue" 1%nat] in
  resolved (steps false AsyncScenarios.plain (resolve AsyncScenarios.compA st)
              [Resolve AsyncScenarios.compB; Request "Vue" 2%nat;
               Reject None; Resolve AsyncScenarios.compB])
  = Some (Extend "Vue" AsyncScenarios.compA).
Proof.
  intros st.
  destruct (C4_run_once_callbacks false AsyncScenarios.plain st
              AsyncScenarios.compA) as (_ & _ & H & _).
  - reflexivity.
  - reflexivity.
  - rewrite H. reflexivity.
Defined.

(** ** The loading substitute and its delay *)

Lemma callbacks_frame production factory cbs st :
  let st' := foldl (fun st cb => callback production factory cb st) st cbs in
  loading st' = loading st /\ loadingComp st' = loadingComp st
  /\ timers st' = timers st /\ errorComp st' = errorComp st.
Proof.
  revert st. induction cbs as [|cb cbs IH]; intros st; [done|]. simpl.
  destruct (IH (callback production factory cb st)) as (-> & -> & -> & ->).
  destruct cb as [res|reason]; simpl.
  - destruct (resolveCalled st) eqn:H; [by rewrite resolve_again|].
    by destruct (resolve_first res st H)
      as (_ & _ & _ & _ & _ & -> & -> & -> & _ & _ & -> & _).
  - destruct (rejectCalled st) eqn:H; [by rewrite reject_again|].
    by destruct (reject_first production factory reason st H)
      as (_ & _ & _ & -> & -> & -> & _ & _ & -> & _).
Qed.

(** What the first request leaves of the loading substitute of a
    descriptor. *)
Lemma first_request_loading production factory base ctx d l :
  returned factory = RetDescriptor d -> d_loading d = Some l ->
  let r := resolveAsyncComponent production factory base ctx fresh in
  loadingComp r.1 = ensureCtor l base
  /\ match d_delay d with
     | Some 0%Z =>
         loading r.1 = true /\ r.2 = ensureCtor l base
         /\ forall ms, (LoadingTimer, ms) ∉ timers r.1
     | delay =>
         loading r.1 = false
         /\ take_timer LoadingTimer (timers r.1)
            = Some (default 200%Z delay,
                    match d_timeout d with
                    | Some ms => [(TimeoutTimer, ms)]
                    | None => []
                    end)
     end.
Proof.
  intros Hd Hl r. subst r. unfold resolveAsyncComponent. simpl.
  set (st1 := emit EvInvoke _).
  destruct (callbacks_frame production factory (syncCalls factory) st1)
    as (L & LC & T & _).
  set (st2 := foldl _ st1 (syncCalls factory)) in *.
  simpl in L, LC, T.
  unfold after_factory. rewrite Hd, Hl.
  destruct d as [de dl dd dt]. simpl in *.
  unfold setTimeout, emit.
  destruct de, dd as [[| |]|], dt; simpl; rewrite ?L, ?T; simpl;
    repeat split; try done;
    intros ms H; try (by apply elem_of_nil in H);
    apply list_elem_of_singleton in H; discriminate H.
Qed.

(** When the loading timer fires. *)
Lemma loading_timer_fires {NT : NumberText} production factory st ms ts :
  take_timer LoadingTimer (timers st) = Some (ms, ts) ->
  let st' := fire production factory LoadingTimer st in
  timers st' = ts /\ contexts st' = contexts st
  /\ resolved st' = resolved st /\ error st' = error st
  /\ errorComp st' = errorComp st /\ sync st' = sync st
  /\ resolveCalled st' = resolveCalled st
  /\ rejectCalled st' = rejectCalled st
  /\ if isUndef (resolved st) && negb (error st)
     then loading st' = true
          /\ events st'
             = events st ++ map EvForceUpdate (default [] (contexts st))
     else loading st' = loading st /\ events st' = events st.
Proof.
  intros H. unfold fire. rewrite H. unfold loading_timer. simpl.
  destruct (isUndef (resolved st) && negb (error st)); simpl;
    rewrite ?force_updates_fold; done.
Qed.

(** C9: for a descriptor with a loading substitute: if [delay] is 0, the
    first request sets the loading flag before it returns, and returns the
    loading substitute; otherwise it sets a timer of [delay] (200 if [delay]
    is unset) and leaves the flag unset.  When that timer fires, the flag is
    set and the pending consumers are asked to re-render only if the unit is
    neither resolved nor errored by then.  So once a resolved unit is there
    with the flag unset, the flag stays unset whatever happens later. *)
Theorem C9_loading_delay {NT : NumberText} production factory d l :
  returned factory = RetDescriptor d -> d_loading d = Some l ->
  (forall base ctx,
      let r := resolveAsyncComponent production factory base ctx fresh in
      match d_delay d with
      | Some 0%Z =>
          loading r.1 = true /\ r.2 = ensureCtor l base
          /\ forall ms, (LoadingTimer, ms) ∉ timers r.1
      | delay =>
          loading r.1 = false
          /\ take_timer LoadingTimer (timers r.1)
             = Some (default 200%Z delay,
                     match d_timeout d with
                     | Some ms => [(TimeoutTimer, ms)]
                     | None => []
                     end)
      end)
  /\ (forall st ms ts,
        take_timer LoadingTimer (timers st) = Some (ms, ts) ->
        let st' := fire production factory LoadingTimer st in
        if isUndef (resolved st) && negb (error st)
        then loading st' = true
             /\ events st'
                = events st ++ map EvForceUpdate (default [] (contexts st))
        else loading st' = loading st /\ events st' = events st)
  /\ (forall earlier later,
        let st := steps production factory fresh earlier in
        isDef (resolved st) = true -> loading st = false ->
        loading (steps production factory st later) = false).
Proof.
  intros Hd Hl. split; [|split].
  - intros base ctx r.
    by destruct (first_request_loading production factory base ctx d l Hd Hl).
  - intros st ms ts H st'.
    by destruct (loading_timer_fires production factory st ms ts H)
      as (_ & _ & _ & _ & _ & _ & _ & _ & X).
  - intros earlier later st R L.
    assert (called st) as K.
    { by apply (wf_steps production factory earlier fresh (wf_fresh)). }
    destruct (steps_settled production factory later st K) as (_ & X).
    + destruct K as [_ K]. by apply K.
    + by rewrite X.
Qed.

(** The loading substitute is set to appear after 50; the producer completes
    before the timer fires, and the flag is never set. *)
Lemma C9_witness :
  take_timer LoadingTimer
    (timers (resolveAsyncComponent false (AsyncScenarios.with_loading (Some 50))
               "Vue" 1%nat fresh).1)
  = Some (50%Z, [])
  /\ loading (steps false (AsyncScenarios.with_loading (Some 50))
                (steps false (AsyncScenarios.with_loading (Some 50)) fresh
                   [Request "Vue" 1%nat; Resolve AsyncScenarios.compA])
                [Fire LoadingTimer; Request "Vue" 2%nat]) = false.
Proof.
  destruct (C9_loading_delay false (AsyncScenarios.with_loading (Some 50))
              {| d_error := None; d_loading := Some AsyncScenarios.loadingView;
                 d_delay := Some 50%Z; d_timeout := None |}
              AsyncScenarios.loadingView eq_refl eq_refl)
    as (H1 & _ & H3).
  split.
  - destruct (H1 "Vue" 1%nat) as [_ T]. exact T.
  - refine (H3 [Request "Vue" 1%nat; Resolve AsyncScenarios.compA]
               [Fire LoadingTimer; Request "Vue" 2%nat] _ _);
      vm_compute; reflexivity.
Defined.

(** ** The pending consumers after the loading timer *)

(** Which steps change the list of pending consumers, once the producer was
    called: a request may put its consumer at the end; the first call of the
    completion callback empties the list, and so does the first failure
    (by the callback or by the timeout) when there is an error substitute;
    nothing else changes it. *)
Lemma step_contexts {NT : NumberText} production factory st a cs :
  contexts st = Some cs ->
  contexts (step production factory st a) = Some cs
  \/ (exists base ctx, a = Request base ctx
        /\ contexts (step production factory st a) = Some (cs ++ [ctx]))
  \/ (contexts (step production factory st a) = Some []
      /\ ((exists res, a = Resolve res /\ resolveCalled st = false)
          \/ (rejectCalled st = false /\ isDef (errorComp st) = true
              /\ ((exists reason, a = Reject reason) \/ a = Fire TimeoutTimer)))).
Proof.
  intros C.
  assert (forall reason st0,
            contexts st0 = Some cs -> rejectCalled st0 = rejectCalled st ->
            errorComp st0 = errorComp st ->
            contexts (reject production factory reason st0) = Some cs
            \/ (contexts (reject production factory reason st0) = Some []
                /\ rejectCalled st = false /\ isDef (errorComp st) = true))
    as Rj.
  { intros reason st0 C0 J0 E0. destruct (rejectCalled st0) eqn:J.
    - left. by rewrite reject_again.
    - destruct (reject_first production factory reason st0 J)
        as (_ & _ & _ & _ & _ & _ & _ & _ & _ & X).
      rewrite <- J0, <- E0. destruct (errorComp st0).
      + right. by destruct X as (_ & -> & _).
      + left. destruct X as (_ & -> & _). done. }
  destruct a as [base ctx|res|reason|t]; simpl.
  - unfold resolveAsyncComponent.
    destruct (error st && isDef (errorComp st)); [by left|].
    destruct (isDef (resolved st)); [by left|].
    destruct (loading st && isDef (loadingComp st)); [by left|].
    rewrite C. simpl. right. left. by exists base, ctx.
  - rewrite C. simpl. destruct (resolveCalled st) eqn:H.
    + left. by rewrite resolve_again.
    + right. right.
      destruct (resolve_first res st H) as (_ & _ & _ & -> & _).
      split; [done|]. left. by exists res.
  - rewrite C. simpl. destruct (Rj reason st C eq_refl eq_refl) as [?|(? & ? & ?)].
    + by left.
    + right. right. split; [done|]. right. repeat split; try done.
      left. by exists reason.
  - unfold fire. destruct (take_timer t (timers st)) as [[ms ts]|]; [|by left].
    destruct t.
    + left. unfold loading_timer. simpl.
      destruct (isUndef (resolved st) && negb (error st)); [|done].
      by rewrite force_updates_fold.
    + unfold timeout_timer. simpl.
      destruct (isUndef (resolved st)); [|by left].
      destruct (Rj (timeout_reason production ms) (set_timers ts st))
        as [?|(? & ? & ?)]; try done.
      * by left.
      * right. right. split; [done|]. right. repeat split; try done.
        by right.
Qed.

(** C10 (as stated, refuted): two consumers are pending when the loading
    timer fires; both stay registered.  The producer then fails, there being
    no error substitute: neither consumer is asked to re-render again.  And
    the list of pending consumers is emptied also by a completion that comes
    before the producer returns. *)
Lemma C10_counterexample :
  let st := AsyncScenarios.run (AsyncScenarios.with_loading (Some 50))
              [Request "Vue" 1%nat; Request "Vue" 2%nat; Fire LoadingTimer] in
  let st' := step false (AsyncScenarios.with_loading (Some 50)) st
               (Reject (Some "offline")) in
  (contexts st = Some [1%nat; 2%nat]
   /\ rejectCalled st = false /\ rejectCalled st' = true
   /\ forced (drop (length (events st)) (events st')) = []
   /\ ~ (1%nat ∈ forced (drop (length (events st)) (events st'))))
  /\ (contexts (AsyncScenarios.run AsyncScenarios.immediate [Request "Vue" 1%nat])
      = Some []
      /\ sync (set_sync true fresh) = true
      /\ forced (events (AsyncScenarios.run AsyncScenarios.immediate
                           [Request "Vue" 1%nat])) = []).
Proof.
  vm_compute. repeat split; try done.
  intros H. by apply elem_of_nil in H.
Qed.

(** C10 (amended): when the loading timer fires, the list of pending
    consumers is as before, so the consumers registered before it are still
    registered; each of them is asked to re-render when the producer later
    completes, and when it later fails with an error substitute there; the
    list is emptied only by the first completion and by the first failure
    with an error substitute. *)
Theorem C10_loading_timer_keeps_consumers {NT : NumberText} production factory st ms ts cs :
  take_timer LoadingTimer (timers st) = Some (ms, ts) ->
  contexts st = Some cs ->
  let st1 := fire production factory LoadingTimer st in
  contexts st1 = Some cs
  /\ (sync st = false -> resolveCalled st = false -> forall res,
        events (resolve res st1) = events st1 ++ map EvForceUpdate cs
        /\ contexts (resolve res st1) = Some [])
  /\ (rejectCalled st = false -> isDef (errorComp st) = true -> forall reason,
        events (reject production factory reason st1)
        = events st1 ++ diagnostic production factory reason
          ++ map EvForceUpdate cs
        /\ contexts (reject production factory reason st1) = Some [])
  /\ (forall st2 a cs2,
        contexts st2 = Some cs2 ->
        contexts (step production factory st2 a) = Some cs2
        \/ (exists base ctx, a = Request base ctx
              /\ contexts (step production factory st2 a) = Some (cs2 ++ [ctx]))
        \/ (contexts (step production factory st2 a) = Some []
            /\ ((exists res, a = Resolve res /\ resolveCalled st2 = false)
                \/ (rejectCalled st2 = false /\ isDef (errorComp st2) = true
                    /\ ((exists reason, a = Reject reason)
                        \/ a = Fire TimeoutTimer))))).
Proof.
  intros T C st1.
  destruct (loading_timer_fires production factory st ms ts T)
    as (_ & C1 & _ & _ & E1 & S1 & H1 & J1 & _).
  fold st1 in C1, E1, S1, H1, J1. rewrite C in C1.
  split; [exact C1|]. split; [|split].
  - intros S H res. rewrite <- H1 in H.
    destruct (resolve_first res st1 H)
      as (_ & _ & _ & C2 & _ & _ & _ & _ & _ & _ & _ & E2).
    rewrite S1, S, C1 in E2. by split.
  - intros J E reason. rewrite <- J1 in J.
    destruct (reject_first production factory reason st1 J)
      as (_ & _ & _ & _ & _ & _ & _ & _ & _ & X).
    rewrite E1 in X. destruct (errorComp st); [|discriminate E].
    destruct X as (_ & C2 & E2). rewrite C1 in E2. by split.
  - intros st2 a cs2. apply step_contexts.
Qed.

(** Two consumers are pending when the loading timer fires; both are asked
    to re-render then, and again when the producer completes. *)
Lemma C10_witness :
  let st := AsyncScenarios.run (AsyncScenarios.with_loading (Some 50))
              [Request "Vue" 1%nat; Request "Vue" 2%nat] in
  let st1 := fire false (AsyncScenarios.with_loading (Some 50)) LoadingTimer st in
  contexts st1 = Some [1%nat; 2%nat]
  /\ forced (events st1) = [1%nat; 2%nat]
  /\ forced (events (resolve AsyncScenarios.compA st1))
     = [1%nat; 2%nat; 1%nat; 2%nat].
Proof.
  intros st st1.
  destruct (C10_loading_timer_keeps_consumers false
              (AsyncScenarios.with_loading (Some 50)) st 50%Z [] [1%nat; 2%nat]
              eq_refl eq_refl) as (C1 & H2 & _).
  fold st1 in C1, H2. split; [exact C1|]. split; [reflexivity|].
  destruct (H2 eq_refl eq_refl AsyncScenarios.compA) as [E _].
  rewrite E. reflexivity.
Defined.

End AsyncComponentProps.

(** * Further properties of the scheduler *)

Module SchedulerMore.
Import Scheduler SchedulerProps.

(** ** The events of a flush *)

(** The events of the loop for watchers that do not call back into the
    scheduler: [before], if there is one, then [run], watcher by watcher. *)
Definition loop_events (before : Watcher -> option Behaviour)
    (q : list Watcher) : list Event :=
  flat_map (fun w => match before w with
                     | Some _ => [EvBefore w; EvRun w]
                     | None => [EvRun w]
                     end) q.

(** [queue[i]._inactive = true], as [callActivatedHooks] sets it. *)
Definition reactivated (c : Component) : Component :=
  {| cname := cname c; _watcher := _watcher c; _isMounted := _isMounted c;
     _isDestroyed := _isDestroyed c; _inactive := true |}.

Definition activated_events (a : list Component) : list Event :=
  map (fun c => EvActivated (reactivated c)) a.

(** The watchers whose component gets its [updated] hook, in the order of
    the calls. *)
Definition updated_watchers (q : list Watcher) : list Watcher :=
  filter (fun w => is_render_watcher_of_live_vm w = true) (reverse q).

Definition updated_events (q : list Watcher) : list Event :=
  map (fun w => EvUpdated (vm w)) (updated_watchers q).

Definition ticks_of (evs : list Event) : nat :=
  length (filter (fun e => e = EvNextTick) evs).

Lemma callActivatedHooks_exact a s :
  trace (callActivatedHooks a s) = trace s ++ activated_events a
  /\ index (callActivatedHooks a s) = index s
  /\ activatedChildren (callActivatedHooks a s) = activatedChildren s.
Proof.
  unfold callActivatedHooks, activated_events. revert s.
  induction a as [|c a IH]; intros s; simpl.
  - by rewrite app_nil_r.
  - destruct (IH (emit (EvActivated (reactivated c)) s)) as (T & I & A).
    unfold reactivated in T, I, A. rewrite T, I, A. simpl.
    by rewrite <- app_assoc.
Qed.

Lemma callUpdatedHooks_exact q s :
  trace (callUpdatedHooks q s) = trace s ++ updated_events q
  /\ index (callUpdatedHooks q s) = index s
  /\ activatedChildren (callUpdatedHooks q s) = activatedChildren s.
Proof.
  unfold callUpdatedHooks, updated_events, updated_watchers.
  generalize (reverse q) as l. intros l. revert s.
  induction l as [|w l IH]; intros s; simpl.
  - by rewrite app_nil_r.
  - rewrite filter_cons.
    destruct (is_render_watcher_of_live_vm w) eqn:E.
    + rewrite decide_True by done.
      destruct (IH (emit (EvUpdated (vm w)) s)) as (T & I & A).
      rewrite T, I, A. simpl. by rewrite <- app_assoc.
    + rewrite decide_False by done. apply IH.
Qed.

Section QuietTrace.
Variable cfg : Config.
Variable run : Watcher -> Behaviour.
Variable before : Watcher -> option Behaviour.
Variable flushRec : Sched -> Outcome Sched.
Hypothesis run_quiet : forall w h, run w h = [].
Hypothesis before_quiet : forall w b h, before w = Some b -> b h = [].

Lemma run_watcher_quiet_exact w s :
  exists s', run_watcher cfg run before flushRec w s = Done s'
    /\ queue s' = queue s /\ index s' = index s
    /\ activatedChildren s' = activatedChildren s
    /\ has s' !! id w = Some HasNull
    /\ trace s' = trace s ++ loop_events before [w].
Proof.
  unfold run_watcher, loop_events. simpl. destruct (before w) as [b|] eqn:B.
  - cbn [obind]. rewrite (before_quiet w b _ B). cbn [callAll obind].
    rewrite run_quiet. cbn [callAll].
    eexists. split; [done|]. simpl. repeat split.
    + apply lookup_insert_eq.
    + by rewrite <- app_assoc.
  - cbn [obind]. rewrite run_quiet. cbn [callAll].
    eexists. split; [done|]. simpl. repeat split.
    apply lookup_insert_eq.
Qed.

Lemma flushLoop_quiet_exact fuel s :
  (length (queue s) - index s <= fuel)%nat ->
  exists s', flushLoop cfg run before flushRec fuel s = Done s'
    /\ queue s' = queue s
    /\ activatedChildren s' = activatedChildren s
    /\ trace s' = trace s ++ loop_events before (drop (index s) (queue s)).
Proof.
  revert s. induction fuel as [|fuel IH]; intros s Hf;
    rewrite flushLoop_unfold;
    destruct (queue s !! index s) as [w|] eqn:Hw.
  - apply lookup_lt_Some in Hw. lia.
  - exists s. repeat split.
    apply lookup_ge_None in Hw. rewrite drop_ge by done.
    by rewrite app_nil_r.
  - destruct (run_watcher_quiet_exact w s)
      as (s1 & -> & Q1 & I1 & A1 & H1 & T1).
    cbn [obind]. rewrite (after_run_null cfg w s1 H1).
    destruct (IH (set_index (S (index s1)) s1)) as (s2 & -> & Q2 & A2 & T2).
    { simpl. rewrite Q1, I1. lia. }
    simpl in *. exists s2. split; [done|].
    split; [congruence|]. split; [congruence|].
    rewrite T2, T1, Q1, I1, (drop_S _ _ _ Hw), <- app_assoc.
    f_equal. unfold loop_events. simpl. by rewrite app_nil_r.
  - exists s. repeat split.
    apply lookup_ge_None in Hw. rewrite drop_ge by done.
    by rewrite app_nil_r.
Qed.

Lemma flushBody_quiet_exact fuel s :
  (length (queue s) <= fuel)%nat ->
  exists s', flushBody cfg run before flushRec fuel s = Done s'
    /\ trace s'
       = trace s
         ++ loop_events before (sort_by_id (queue s))
         ++ activated_events (activatedChildren s)
         ++ updated_events (sort_by_id (queue s))
         ++ (if devtools cfg then [EvDevtoolsFlush] else []).
Proof.
  intros Hf. unfold flushBody.
  destruct (flushLoop_quiet_exact fuel
              (set_index 0 (set_queue
                              (sort_by_id (queue (set_flushing true s)))
                              (set_flushing true s))))
    as (s1 & -> & Q1 & A1 & T1).
  { simpl. rewrite sort_by_id_length. lia. }
  cbn [obind]. simpl in Q1, A1, T1. rewrite drop_0 in T1.
  set (s2 := resetSchedulerState cfg s1).
  destruct (callActivatedHooks_exact (activatedChildren s1) s2) as (T2 & _).
  set (s3 := callActivatedHooks (activatedChildren s1) s2) in *.
  destruct (callUpdatedHooks_exact (queue s1) s3) as (T3 & _).
  set (s4 := callUpdatedHooks (queue s1) s3) in *.
  eexists. split; [reflexivity|].
  assert (trace s4 = trace s ++ loop_events before (sort_by_id (queue s))
                     ++ activated_events (activatedChildren s)
                     ++ updated_events (sort_by_id (queue s))) as T4.
  { rewrite T3, T2. subst s2. simpl. rewrite T1, Q1, A1.
    by rewrite <- !app_assoc. }
  destruct (devtools cfg); simpl; rewrite T4.
  - by rewrite <- !app_assoc.
  - by rewrite app_nil_r.
Qed.
End QuietTrace.

(** ** Sorted lists *)

Lemma ssorted_app {A} (R : A -> A -> Prop) l1 l2 :
  StronglySorted R (l1 ++ l2) <->
  StronglySorted R l1 /\ StronglySorted R l2
  /\ forall a b, a ∈ l1 -> b ∈ l2 -> R a b.
Proof.
  induction l1 as [|x l1 IH]; simpl.
  - split.
    + intros H. repeat split; [constructor|done|].
      intros a b Ha. by apply elem_of_nil in Ha.
    + by intros (_ & H & _).
  - split.
    + intros H. apply StronglySorted_inv in H as [H F].
      apply IH in H as (H1 & H2 & H12).
      rewrite Forall_app in F. destruct F as [F1 F2].
      split; [by constructor|]. split; [done|].
      intros a b Ha Hb. apply elem_of_cons in Ha as [->|Ha]; [|by apply H12].
      rewrite Forall_forall in F2. by apply F2.
    + intros (H1 & H2 & H12). apply StronglySorted_inv in H1 as [H1 F1].
      constructor.
      * apply IH. repeat split; try done.
        intros a b Ha Hb. apply H12; [|done]. apply elem_of_cons. by right.
      * rewrite Forall_app. split; [done|].
        rewrite Forall_forall. intros b Hb. apply H12; [|done].
        apply elem_of_cons. by left.
Qed.

Lemma id_le_trans : Transitive id_le.
Proof. intros a b c. unfold id_le. lia. Qed.

Lemma ssorted_lookup q j k a b :
  StronglySorted id_le q -> (j <= k)%nat ->
  q !! j = Some a -> q !! k = Some b -> id_le a b.
Proof.
  intros Hs Hjk Ha Hb.
  destruct (decide (j = k)) as [->|Hne].
  { rewrite Ha in Hb. injection Hb as <-. unfold id_le. lia. }
  rewrite <- (take_drop k q) in Hs. apply ssorted_app in Hs as (_ & _ & Hs).
  apply Hs.
  - apply list_elem_of_lookup. exists j. rewrite lookup_take_lt by lia. done.
  - apply list_elem_of_lookup. exists 0%nat. rewrite lookup_drop.
    by rewrite Nat.add_0_r.
Qed.

(** ** Watchers that enqueue watchers created after them

    A component is created after its parent, and its watchers after those of
    the parent.  When the watchers that run enqueue only watchers whose id
    is not smaller than their own, the queue stays sorted while it is
    flushed, and the watchers run in ascending order of their ids. *)

Section Ascending.
Variable cfg : Config.
Variable run : Watcher -> Behaviour.
Variable before : Watcher -> option Behaviour.
Variable flushRec : Sched -> Outcome Sched.
Hypothesis run_ascending :
  forall x h c, QueueWatcher c ∈ run x h -> (id x <= id c)%Z.
Hypothesis before_ascending :
  forall x b h c, before x = Some b -> QueueWatcher c ∈ b h -> (id x <= id c)%Z.

(** [queueWatcher] keeps a sorted queue sorted, when the id of the watcher
    is not smaller than the id at the cursor. *)
Lemma queueWatcher_keeps_sorted w s x :
  flushing s = true -> waiting s = true ->
  queue s !! index s = Some x -> (id x <= id w)%Z ->
  StronglySorted id_le (queue s) ->
  exists s', queueWatcher cfg flushRec w s = Done s'
             /\ extends s s' /\ StronglySorted id_le (queue s').
Proof.
  intros F W Hx Hle Hs.
  destruct (queueWatcher_extends cfg flushRec w s W) as (s' & E & X & _).
  exists s'. split; [done|]. split; [done|].
  unfold queueWatcher in E.
  destruct (is_nullish (has s !! id w)); [|by injection E as <-].
  simpl in E. rewrite F in E. simpl in E. rewrite W in E. simpl in E.
  injection E as <-. simpl.
  pose proof (lookup_lt_Some _ _ _ Hx) as L.
  set (p := scan_back (queue s) (index s) (id w) (length (queue s))).
  pose proof (scan_back_after_cursor (queue s) (index s) (id w) _ L) as P1.
  pose proof (scan_back_le (queue s) (index s) (id w) (length (queue s))) as P2.
  fold p in P1, P2.
  assert (exists y, queue s !! (p - 1)%nat = Some y /\ (id y <= id w)%Z)
    as (y & Hy & Hyw).
  { destruct (scan_back_stop (queue s) (index s) (id w) (length (queue s)))
      as [E|(y & _ & Hy & Hle')]; [lia| |].
    - exists x. fold p in E. rewrite E. simpl. rewrite Nat.sub_0_r. done.
    - exists y. done. }
  unfold splice_in.
  rewrite <- (take_drop p (queue s)) in Hs.
  apply ssorted_app in Hs as (S1 & S2 & S12).
  apply ssorted_app. split; [done|]. split.
  - constructor; [done|]. rewrite Forall_forall. intros b Hb.
    apply list_elem_of_lookup in Hb as [j Hj]. rewrite lookup_drop in Hj.
    assert (id w < id b)%Z; [|unfold id_le; lia].
    apply (scan_back_passed (queue s) (index s) (id w)
             (length (queue s)) (p + j) b); [|done].
    apply lookup_lt_Some in Hj. fold p. lia.
  - intros a b Ha Hb. apply elem_of_cons in Hb as [->|Hb]; [|by apply S12].
    apply list_elem_of_lookup in Ha as [j Hj].
    pose proof (lookup_lt_Some _ _ _ Hj) as Lj. rewrite length_take in Lj.
    rewrite lookup_take_lt in Hj by lia.
    assert (id_le a y); [|unfold id_le in *; lia].
    rewrite <- (take_drop p (queue s)) in Hj, Hy.
    apply (ssorted_lookup (take p (queue s) ++ drop p (queue s)) j (p - 1) a y);
      try done; [|lia].
    apply ssorted_app. by repeat split.
Qed.

Lemma callAll_keeps_sorted cs s x :
  flushing s = true -> waiting s = true ->
  queue s !! index s = Some x ->
  (forall c, QueueWatcher c ∈ cs -> (id x <= id c)%Z) ->
  StronglySorted id_le (queue s) ->
  exists s', callAll cfg flushRec cs s = Done s'
             /\ extends s s' /\ StronglySorted id_le (queue s').
Proof.
  revert s. induction cs as [|c cs IH]; intros s F W Hx Hc Hs; simpl.
  - exists s. split; [done|]. split; [by apply extends_refl|done].
  - assert (exists s1, call cfg flushRec c s = Done s1
                       /\ extends s s1 /\ StronglySorted id_le (queue s1))
      as (s1 & -> & X1 & S1).
    { destruct c as [w|c]; simpl.
      - apply (queueWatcher_keeps_sorted w s x); try done.
        apply Hc. apply elem_of_cons. by left.
      - eexists. split; [done|]. split; [by split|done]. }
    simpl. pose proof (lookup_lt_Some _ _ _ Hx) as L.
    destruct (IH s1) as (s2 & -> & X2 & S2); try done.
    + rewrite (ext_flushing _ _ X1). done.
    + apply (ext_waiting _ _ X1).
    + rewrite (ext_index _ _ X1).
      rewrite <- (lookup_take_lt _ (S (index s))) by lia.
      rewrite (ext_prefix _ _ X1 L). rewrite lookup_take_lt by lia. done.
    + intros c' Hc'. apply Hc. apply elem_of_cons. by right.
    + exists s2. split; [done|]. split; [by eapply extends_trans|done].
Qed.

Lemma run_watcher_keeps_sorted x s :
  flushing s = true -> waiting s = true ->
  queue s !! index s = Some x ->
  StronglySorted id_le (queue s) ->
  exists s', run_watcher cfg run before flushRec x s = Done s'
             /\ ran run x s s' /\ StronglySorted id_le (queue s').
Proof.
  intros F W Hx Hs.
  destruct (run_watcher_ran cfg run before flushRec x s W) as (s' & E & R).
  exists s'. split; [done|]. split; [done|].
  pose proof (lookup_lt_Some _ _ _ Hx) as L.
  unfold run_watcher in E.
  match type of E with context [obind ?m _] => set (mm := m) in E end.
  assert (exists s1, mm = Done s1
            /\ flushing s1 = true /\ waiting s1 = true
            /\ queue s1 !! index s1 = Some x
            /\ StronglySorted id_le (queue s1)) as (s1 & E1 & F1 & W1 & X1 & S1).
  { subst mm. destruct (before x) as [b|] eqn:B.
    - destruct (callAll_keeps_sorted (b (trace (emit (EvBefore x) s)))
                  (emit (EvBefore x) s) x) as (s1 & E1 & X1 & S1); try done.
      { intros c Hc. eapply before_ascending; eauto. }
      exists s1. split; [done|].
      split; [by rewrite (ext_flushing _ _ X1)|].
      split; [apply (ext_waiting _ _ X1)|]. split; [|done].
      rewrite (ext_index _ _ X1). simpl.
      rewrite <- (lookup_take_lt _ (S (index s))) by lia.
      pose proof (ext_prefix _ _ X1) as P. simpl in P. rewrite (P L).
      rewrite lookup_take_lt by lia. done.
    - by exists s. }
  rewrite E1 in E. cbn [obind] in E.
  set (s2 := emit (EvRun x) (set_has (<[id x:=HasNull]> (has s1)) s1)) in *.
  destruct (callAll_keeps_sorted (run x (trace s2)) s2 x)
    as (s3 & E3 & _ & S3); try done.
  { intros c Hc. eapply run_ascending; eauto. }
  rewrite E3 in E. by injection E as <-.
Qed.

Lemma flushLoop_ascending fuel s :
  flushing s = true -> waiting s = true ->
  StronglySorted id_le (queue s) ->
  exists evs,
    trace (outcome_state (flushLoop cfg run before flushRec fuel s))
    = trace s ++ evs
    /\ StronglySorted id_le (take (index s) (queue s) ++ runs_of evs).
Proof.
  revert s. induction fuel as [|fuel IH]; intros s F W Hs;
    rewrite flushLoop_unfold; destruct (queue s !! index s) as [x|] eqn:Hx;
    try (exists []; rewrite !app_nil_r; split; [done|];
         rewrite <- (take_drop (index s) (queue s)) in Hs;
         by apply ssorted_app in Hs as (S1 & _)).
  destruct (run_watcher_keeps_sorted x s F W Hx Hs)
    as (s1 & -> & [W1 F1 I1 C1 (evs1 & T1 & R1 & N1) _ L1 P1 _] & S1).
  cbn [obind]. pose proof (lookup_lt_Some _ _ _ Hx) as L.
  destruct (after_run_fields cfg x s1) as (Q2 & I2 & W2 & T2).
  assert (flushing (after_run cfg x s1).1 = flushing s1) as F2.
  { unfold after_run.
    destruct (negb (production cfg) && negb (is_nullish (has s1 !! id x)));
      [|done].
    by destruct (MAX_UPDATE_COUNT <? _)%nat. }
  destruct (after_run cfg x s1) as [s2 stop]. simpl in Q2, I2, W2, T2, F2.
  assert (StronglySorted id_le (take (S (index s)) (queue s))) as Spre.
  { rewrite <- (take_drop (S (index s)) (queue s)) in Hs.
    by apply ssorted_app in Hs as (S' & _). }
  destruct stop.
  - exists (evs1 ++ [EvWarn (loop_message x) (vm x)]). simpl.
    rewrite T2, T1, app_assoc. split; [done|].
    rewrite runs_of_app, R1. simpl.
    by rewrite <- (take_S_r _ _ _ Hx).
  - rewrite app_nil_r in T2.
    destruct (IH (set_index (S (index s2)) s2)) as (evs2 & T3 & S3).
    { simpl. congruence. }
    { simpl. congruence. }
    { simpl. by rewrite Q2. }
    simpl in T3, S3. exists (evs1 ++ evs2). rewrite T3, T2, T1, app_assoc.
    split; [done|]. rewrite runs_of_app, R1.
    rewrite Q2, I2, I1, (P1 L), (take_S_r _ _ _ Hx), <- app_assoc in S3.
    exact S3.
Qed.
End Ascending.

Lemma ssorted_reverse {A} (R : A -> A -> Prop) l :
  StronglySorted R l -> StronglySorted (flip R) (reverse l).
Proof.
  induction 1 as [|a l H IH F]; [rewrite reverse_nil; constructor|].
  rewrite reverse_cons. apply ssorted_app. split; [done|].
  split; [repeat constructor|].
  intros x y Hx Hy. apply list_elem_of_singleton in Hy as ->.
  rewrite elem_of_reverse in Hx. rewrite Forall_forall in F. by apply F.
Qed.

Lemma ssorted_filter {A} (R : A -> A -> Prop) (P : A -> Prop)
    `{!forall x, Decision (P x)} l :
  StronglySorted R l -> StronglySorted R (filter P l).
Proof.
  induction 1 as [|a l Hl IH F]; [constructor|].
  rewrite filter_cons. destruct (decide (P a)); [|done].
  constructor; [done|]. rewrite Forall_forall in *.
  intros x Hx. apply list_elem_of_filter in Hx as [_ Hx]. by apply F.
Qed.

(** ** Concrete watchers *)

(** A mounted component whose render watcher has the id [i], and that
    watcher. *)
Definition mounted (i : Z) : Component :=
  {| cname := "child"; _watcher := Some i; _isMounted := true;
     _isDestroyed := false; _inactive := false |}.

Definition render_watcher (i : Z) : Watcher :=
  {| id := i; user := false; expression := EmptyString; vm := mounted i |}.

(** The render watcher of a component that was destroyed meanwhile. *)
Definition destroyed_watcher (i : Z) : Watcher :=
  {| id := i; user := false; expression := EmptyString;
     vm := {| cname := "gone"; _watcher := Some i; _isMounted := true;
              _isDestroyed := true; _inactive := false |} |}.

(** The development build with [config.async] off. *)
Definition dev_sync : Config :=
  {| production := false; async := false; devtools := false |}.

(** The watcher 1 enqueues the watchers 4 and 2 (in that order) when it
    runs, and the watcher 2 enqueues the watcher 3. *)
Definition parent_enqueues_children : Watcher -> Behaviour :=
  fun w _ =>
    if bool_decide (id w = 1) then
      [QueueWatcher (Scenarios.watcher 4); QueueWatcher (Scenarios.watcher 2)]
    else if bool_decide (id w = 2) then [QueueWatcher (Scenarios.watcher 3)]
    else [].

(** ** What a flush does, in order *)

(** A flush in which no watcher calls back into the scheduler does, in this
    order: for each watcher in ascending order of the ids its [before] hook,
    if any, and its [run]; the activation of each component queued by
    [queueActivatedComponent], in the order of queueing, marked inactive
    first; the [updated] hook of each component that is mounted and not
    destroyed and whose render watcher was flushed, in descending order of
    the ids (children before parents); the devtools notification, if it is
    on. *)
Theorem flush_events_in_order cfg run before fuel s :
  (forall w h, run w h = []) ->
  (forall w b h, before w = Some b -> b h = []) ->
  (length (queue s) < fuel)%nat ->
  exists s',
    flushSchedulerQueue cfg run before fuel s = Done s'
    /\ trace s'
       = trace s
         ++ loop_events before (sort_by_id (queue s))
         ++ activated_events (activatedChildren s)
         ++ updated_events (sort_by_id (queue s))
         ++ (if devtools cfg then [EvDevtoolsFlush] else [])
    /\ StronglySorted (flip id_le) (updated_watchers (sort_by_id (queue s)))
    /\ (forall w, w ∈ updated_watchers (sort_by_id (queue s)) <->
                  w ∈ queue s /\ _watcher (vm w) = Some (id w)
                  /\ _isMounted (vm w) = true /\ _isDestroyed (vm w) = false).
Proof.
  intros Hr Hb Hf. destruct fuel as [|fuel]; [lia|]. simpl.
  destruct (flushBody_quiet_exact cfg run before
              (flushSchedulerQueue cfg run before fuel) Hr Hb fuel s)
    as (s' & E & T); [lia|].
  exists s'. split; [done|]. split; [done|]. split.
  - unfold updated_watchers. apply ssorted_filter, ssorted_reverse.
    apply Sorted_StronglySorted; [apply id_le_trans|apply sort_by_id_sorted].
  - intros w. unfold updated_watchers.
    rewrite list_elem_of_filter, elem_of_reverse, (sort_by_id_perm (queue s)).
    unfold is_render_watcher_of_live_vm.
    rewrite !andb_true_iff, bool_decide_eq_true, negb_true_iff. tauto.
Qed.

(** Three render watchers enqueued as 2, 3, 1, the component of 3 being
    destroyed: they run as 1, 2, 3 and the [updated] hooks are those of 2
    and then 1. *)
Lemma flush_events_in_order_witness :
  exists s',
    flushSchedulerQueue Scenarios.dev Scenarios.quiet Scenarios.no_before 4
      (Scenarios.enqueued Scenarios.dev
         [render_watcher 2; destroyed_watcher 3; render_watcher 1]) = Done s'
    /\ trace s'
       = [EvNextTick;
          EvRun (render_watcher 1); EvRun (render_watcher 2);
          EvRun (destroyed_watcher 3);
          EvUpdated (mounted 2); EvUpdated (mounted 1)].
Proof.
  destruct (flush_events_in_order Scenarios.dev Scenarios.quiet
              Scenarios.no_before 4
              (Scenarios.enqueued Scenarios.dev
                 [render_watcher 2; destroyed_watcher 3; render_watcher 1]))
    as (s' & E & T & _).
  - reflexivity.
  - intros w b h B. discriminate B.
  - vm_compute. lia.
  - exists s'. split; [exact E|]. rewrite T. reflexivity.
Defined.

(** ** Parents before children, also for watchers enqueued during the flush *)

(** When the watchers, as they run, enqueue only watchers whose id is not
    smaller than their own (a component is created after its parent), the
    watchers run in ascending order of their ids throughout the flush,
    however long it goes on: also the watchers enqueued during the flush
    run at their sorted position. *)
Theorem flush_runs_ascending cfg run before fuel s :
  (forall x h c, QueueWatcher c ∈ run x h -> (id x <= id c)%Z) ->
  (forall x b h c, before x = Some b -> QueueWatcher c ∈ b h -> (id x <= id c)%Z) ->
  waiting s = true ->
  exists evs,
    trace (outcome_state (flushSchedulerQueue cfg run before fuel s))
    = trace s ++ evs
    /\ StronglySorted id_le (runs_of evs).
Proof.
  intros Hr Hb W. destruct fuel as [|fuel]; simpl.
  { exists []. rewrite app_nil_r. split; [done|constructor]. }
  unfold flushBody.
  set (s0 := set_index 0 _).
  destruct (flushLoop_ascending cfg run before
              (flushSchedulerQueue cfg run before fuel) Hr Hb fuel s0)
    as (evs1 & T1 & S1); try done.
  { subst s0. simpl. apply Sorted_StronglySorted;
      [apply id_le_trans|apply sort_by_id_sorted]. }
  subst s0. simpl in T1, S1.
  set (s0 := set_index 0 _) in *.
  destruct (flushLoop cfg run before _ fuel s0) as [s1|s1];
    cbn [obind outcome_state] in *.
  - set (s2 := resetSchedulerState cfg s1).
    destruct (callActivatedHooks_trace (activatedChildren s1) s2)
      as (evs2 & T2 & R2 & _).
    set (s3 := callActivatedHooks (activatedChildren s1) s2) in *.
    destruct (callUpdatedHooks_trace (queue s1) s3) as (evs3 & T3 & R3 & _).
    set (s4 := callUpdatedHooks (queue s1) s3) in *.
    assert (trace s4 = trace s ++ evs1 ++ evs2 ++ evs3) as T4.
    { rewrite T3, T2. subst s2. simpl. rewrite T1.
      by rewrite <- !app_assoc. }
    destruct (devtools cfg).
    + exists ((evs1 ++ evs2 ++ evs3) ++ [EvDevtoolsFlush]). simpl.
      rewrite T4. split; [by rewrite <- !app_assoc|].
      rewrite !runs_of_app, R2, R3. simpl. by rewrite !app_nil_r.
    + exists (evs1 ++ evs2 ++ evs3). split; [done|].
      rewrite !runs_of_app, R2, R3. by rewrite !app_nil_r.
  - by exists evs1.
Qed.

(** Watcher 1 enqueues 4 and 2, watcher 2 enqueues 3: the flush runs
    1, 2, 3, 4. *)
Lemma flush_runs_ascending_witness :
  exists evs,
    trace (outcome_state
             (flushSchedulerQueue Scenarios.dev parent_enqueues_children
                Scenarios.no_before 10
                (Scenarios.enqueued Scenarios.dev [Scenarios.watcher 1])))
    = [EvNextTick] ++ evs
    /\ StronglySorted id_le (runs_of evs)
    /\ map id (runs_of evs) = [1; 2; 3; 4]%Z.
Proof.
  destruct (flush_runs_ascending Scenarios.dev parent_enqueues_children
              Scenarios.no_before 10
              (Scenarios.enqueued Scenarios.dev [Scenarios.watcher 1]))
    as (evs & T & H).
  - intros x h c. unfold parent_enqueues_children.
    repeat case_bool_decide; intros Hc;
      repeat (apply elem_of_cons in Hc as [Hc|Hc];
              [injection Hc as ->; simpl; lia|]);
      by apply elem_of_nil in Hc.
  - intros x b h c B. discriminate B.
  - reflexivity.
  - exists evs. split; [exact T|]. split; [exact H|].
    apply (f_equal (drop 1)) in T. vm_compute in T. subst evs. reflexivity.
Defined.

(** While the sorted queue is being flushed, [queueWatcher] puts a watcher
    whose id is not in the presence set and not smaller than the id at the
    cursor at a place that leaves the queue sorted. *)
Theorem mid_flush_insertion_keeps_queue_sorted cfg flushRec w s x :
  flushing s = true -> waiting s = true ->
  queue s !! index s = Some x -> (id x <= id w)%Z ->
  is_nullish (has s !! id w) = true ->
  StronglySorted id_le (queue s) ->
  exists s', queueWatcher cfg flushRec w s = Done s'
             /\ StronglySorted id_le (queue s')
             /\ Permutation (queue s') (w :: queue s)
             /\ take (S (index s)) (queue s') = take (S (index s)) (queue s).
Proof.
  intros F W Hx Hle N Hs.
  destruct (queueWatcher_keeps_sorted cfg flushRec w s x F W Hx Hle Hs)
    as (s' & E & X & S').
  exists s'. split; [done|]. split; [done|].
  pose proof (lookup_lt_Some _ _ _ Hx) as L.
  split; [|by apply (ext_prefix _ _ X)].
  unfold queueWatcher in E. rewrite N in E. simpl in E.
  rewrite F in E. simpl in E. rewrite W in E. simpl in E.
  injection E as <-. simpl. unfold splice_in.
  rewrite <- Permutation_middle. by rewrite take_drop.
Qed.

(** Watcher 7 is enqueued while 5 runs, with 6 and 9 pending. *)
Lemma mid_flush_insertion_keeps_queue_sorted_witness :
  exists s',
    queueWatcher Scenarios.dev (fun s => Done s) (Scenarios.watcher 7)
      {| queue := [Scenarios.watcher 3; Scenarios.watcher 5;
                   Scenarios.watcher 6; Scenarios.watcher 9];
         activatedChildren := [];
         has := {[ 3 := HasNull; 5 := HasNull; 6 := HasTrue; 9 := HasTrue ]};
         circular := ∅; waiting := true; flushing := true; index := 1;
         trace := [] |} = Done s'
    /\ map id (queue s') = [3; 5; 6; 7; 9]%Z.
Proof.
  destruct (mid_flush_insertion_keeps_queue_sorted Scenarios.dev
              (fun s => Done s) (Scenarios.watcher 7)
              {| queue := [Scenarios.watcher 3; Scenarios.watcher 5;
                           Scenarios.watcher 6; Scenarios.watcher 9];
                 activatedChildren := [];
                 has := {[ 3 := HasNull; 5 := HasNull; 6 := HasTrue;
                           9 := HasTrue ]};
                 circular := ∅; waiting := true; flushing := true; index := 1;
                 trace := [] |} (Scenarios.watcher 5))
    as (s' & E & _).
  - reflexivity.
  - reflexivity.
  - reflexivity.
  - simpl. lia.
  - reflexivity.
  - repeat constructor; unfold id_le; simpl; lia.
  - exists s'. split; [exact E|].
    vm_compute in E. injection E as <-. reflexivity.
Defined.

(** ** One flush per batch *)

(** With the flush deferred to the next tick, the first [queueWatcher] of a
    batch registers the flush with [nextTick] and no later one of the batch
    does: a batch of enqueues registers the flush exactly once, and issues
    no other event. *)
Theorem one_tick_per_batch cfg run before fuel w ws s0 :
  production cfg || async cfg = true ->
  idle s0 -> waiting s0 = false ->
  exists s1,
    enqueueAll cfg run before fuel (w :: ws) s0 = Done s1
    /\ trace s1 = trace s0 ++ [EvNextTick]
    /\ waiting s1 = true /\ flushing s1 = false.
Proof.
  intros Hd (Q0 & H0 & F0) W0. unfold enqueueAll. simpl.
  unfold queueWatcher at 1. rewrite H0, lookup_empty. simpl.
  rewrite F0. simpl. rewrite W0. simpl.
  assert (negb (production cfg) && negb (async cfg) = false) as ->.
  { destruct (production cfg), (async cfg); done. }
  cbn [obind].
  match goal with
  | |- context [callAll _ _ _ ?st] =>
      destruct (callAll_extends cfg (flushSchedulerQueue cfg run before fuel)
                  (map QueueWatcher ws) st) as (s1 & E & X & _); [done|]
  end.
  exists s1. split; [exact E|].
  rewrite (ext_trace _ _ X), (ext_flushing _ _ X). simpl.
  split; [done|]. split; [apply (ext_waiting _ _ X)|done].
Qed.

Lemma one_tick_per_batch_witness :
  exists s1,
    enqueueAll Scenarios.dev Scenarios.quiet Scenarios.no_before 0
      [Scenarios.watcher 3; Scenarios.watcher 1; Scenarios.watcher 3;
       Scenarios.watcher 2] initial = Done s1
    /\ trace s1 = [EvNextTick]
    /\ waiting s1 = true /\ flushing s1 = false.
Proof.
  apply (one_tick_per_batch Scenarios.dev Scenarios.quiet Scenarios.no_before
           0 (Scenarios.watcher 3) _ initial).
  - reflexivity.
  - repeat split.
  - reflexivity.
Defined.

(** ** The synchronous configuration *)

(** In the development build with [config.async] off, [queueWatcher] on an
    idle scheduler flushes at once: when it returns, the watcher has run,
    the hooks of the flush were called, nothing was registered with
    [nextTick], and the scheduler is idle again. *)
Theorem synchronous_flush cfg run before fuel w s0 :
  production cfg = false -> async cfg = false ->
  (forall w h, run w h = []) ->
  (forall w b h, before w = Some b -> b h = []) ->
  idle s0 -> waiting s0 = false ->
  (1 < fuel)%nat ->
  exists s1,
    enqueueAll cfg run before fuel [w] s0 = Done s1
    /\ trace s1
       = trace s0
         ++ loop_events before [w]
         ++ activated_events (activatedChildren s0)
         ++ updated_events [w]
         ++ (if devtools cfg then [EvDevtoolsFlush] else [])
    /\ idle s1 /\ waiting s1 = false.
Proof.
  intros Hp Ha Hr Hb (Q0 & H0 & F0) W0 Hf. unfold enqueueAll. simpl.
  unfold queueWatcher. rewrite H0, lookup_empty. simpl.
  rewrite F0. simpl. rewrite W0, Hp, Ha. simpl.
  match goal with
  | |- context [flushSchedulerQueue _ _ _ _ ?st] => set (s := st)
  end.
  destruct (flushSchedulerQueue_quiet cfg run before fuel s Hr Hb)
    as (s1 & E & Q1 & H1 & W1 & F1 & _).
  { subst s. simpl. rewrite Q0. simpl. lia. }
  destruct fuel as [|fuel']; [lia|].
  destruct (flushBody_quiet_exact cfg run before
              (flushSchedulerQueue cfg run before fuel') Hr Hb fuel' s)
    as (s1' & E' & T1).
  { subst s. simpl. rewrite Q0. simpl. lia. }
  simpl in E. rewrite E' in E. injection E as ->.
  simpl. rewrite E'. cbn [obind]. exists s1. split; [done|].
  split; [|by repeat split].
  rewrite T1. subst s. simpl. by rewrite Q0.
Qed.

Lemma synchronous_flush_witness :
  exists s1,
    enqueueAll dev_sync Scenarios.quiet Scenarios.no_before 2
      [render_watcher 1] initial = Done s1
    /\ trace s1 = [EvRun (render_watcher 1); EvUpdated (mounted 1)]
    /\ idle s1 /\ waiting s1 = false.
Proof.
  destruct (synchronous_flush dev_sync Scenarios.quiet Scenarios.no_before 2
              (render_watcher 1) initial)
    as (s1 & E & T & I & W).
  - reflexivity.
  - reflexivity.
  - reflexivity.
  - intros w b h B. discriminate B.
  - repeat split.
  - reflexivity.
  - lia.
  - exists s1. split; [exact E|]. split; [|by split]. rewrite T. reflexivity.
Defined.

(** ** The state after a flush *)

(** A flush that comes to its end leaves the scheduler as
    [resetSchedulerState] makes it, whatever the watchers did (the hooks
    called after the reset being events here, they do not enqueue): the
    queue, the activated components and the presence set are empty, no flush
    is scheduled or running, the cursor is at 0 and, unless in the
    production build, the counters are gone. *)
Theorem flush_resets_state cfg run before fuel s s' :
  flushSchedulerQueue cfg run before fuel s = Done s' ->
  queue s' = [] /\ activatedChildren s' = [] /\ has s' = ∅
  /\ waiting s' = false /\ flushing s' = false /\ index s' = 0%nat
  /\ (production cfg = false -> circular s' = ∅).
Proof.
  destruct fuel as [|fuel]; [discriminate|]. simpl. unfold flushBody.
  destruct (flushLoop _ _ _ _ _ _) as [s1|s1]; cbn [obind]; [|discriminate].
  set (s2 := resetSchedulerState cfg s1).
  destruct (callActivatedHooks_fields (activatedChildren s1) s2)
    as (Q2 & H2 & W2 & F2 & C2).
  destruct (callActivatedHooks_exact (activatedChildren s1) s2) as (_ & I2 & A2).
  set (s3 := callActivatedHooks (activatedChildren s1) s2) in *.
  destruct (callUpdatedHooks_fields (queue s1) s3) as (Q3 & H3 & W3 & F3 & C3).
  destruct (callUpdatedHooks_exact (queue s1) s3) as (_ & I3 & A3).
  set (s4 := callUpdatedHooks (queue s1) s3) in *.
  intros [= <-].
  assert (queue s4 = [] /\ activatedChildren s4 = [] /\ has s4 = ∅
          /\ waiting s4 = false /\ flushing s4 = false /\ index s4 = 0%nat
          /\ (production cfg = false -> circular s4 = ∅)) as H.
  { rewrite Q3, Q2, A3, A2, H3, H2, W3, W2, F3, F2, I3, I2, C3, C2.
    subst s2. simpl. repeat split. by intros ->. }
  by destruct (devtools cfg).
Qed.

(** After the flush of a watcher that enqueues itself again and again, cut
    short by the circular guard, the scheduler is reset all the same. *)
Lemma flush_resets_state_witness :
  exists s',
    flushSchedulerQueue Scenarios.dev Scenarios.self_enqueue
      Scenarios.no_before 102
      (Scenarios.enqueued Scenarios.dev [Scenarios.watcher 1]) = Done s'
    /\ queue s' = [] /\ has s' = ∅ /\ waiting s' = false /\ circular s' = ∅.
Proof.
  assert (exists s',
            flushSchedulerQueue Scenarios.dev Scenarios.self_enqueue
              Scenarios.no_before 102
              (Scenarios.enqueued Scenarios.dev [Scenarios.watcher 1]) = Done s')
    as [s' E].
  { vm_compute. by eexists. }
  exists s'. split; [exact E|].
  destruct (flush_resets_state _ _ _ _ _ _ E) as (Q & _ & H & W & _ & _ & C).
  split; [exact Q|]. split; [exact H|]. split; [exact W|].
  apply C. reflexivity.
Defined.

(** ** The production build has no guard *)

Section Unguarded.
Variable cfg : Config.
Variable run : Watcher -> Behaviour.
Variable before : Watcher -> option Behaviour.
Variable flushRec : Sched -> Outcome Sched.
Variable w : Watcher.
Hypothesis production_build : production cfg = true.
Hypothesis run_self : forall h, run w h = [QueueWatcher w].
Hypothesis before_quiet : forall b h, before w = Some b -> b h = [].

Lemma flushLoop_unguarded fuel k s :
  queue s = replicate (S k) w -> index s = k ->
  waiting s = true -> flushing s = true ->
  exists s' evs,
    flushLoop cfg run before flushRec fuel s = OutOfFuel s'
    /\ trace s' = trace s ++ evs
    /\ runs_of evs = replicate fuel w
    /\ warnings_of evs = [].
Proof.
  revert k s. induction fuel as [|fuel IH]; intros k s Q I W F;
    rewrite flushLoop_unfold, Q, I, lookup_replicate_2 by lia.
  - exists s, []. by rewrite app_nil_r.
  - destruct (run_watcher_self cfg run before flushRec w run_self before_quiet
                k s Q I W F)
      as (s1 & evs1 & -> & Q1 & I1 & W1 & F1 & C1 & A1 & H1 & T1 & R1 & N1).
    cbn [obind]. unfold after_run. rewrite production_build. cbn [negb andb].
    destruct (IH (S k) (set_index (S (index s1)) s1))
      as (s2 & evs2 & -> & T2 & R2 & N2); simpl; try done.
    { by rewrite I1. }
    exists s2, (evs1 ++ evs2). split; [done|]. simpl in T2.
    rewrite T2, T1, app_assoc. split; [done|].
    by rewrite runs_of_app, warnings_of_app, R1, R2, N1, N2.
Qed.
End Unguarded.

(** In the production build nothing ends the flush of a watcher that
    enqueues itself whenever it runs: however much fuel the flush is given,
    it uses it all running the watcher, and no diagnostic is given. *)
Theorem production_build_has_no_guard cfg run before w fuel s :
  production cfg = true ->
  (forall h, run w h = [QueueWatcher w]) ->
  (forall b h, before w = Some b -> b h = []) ->
  queue s = [w] -> waiting s = true ->
  exists s' evs,
    flushSchedulerQueue cfg run before (S fuel) s = OutOfFuel s'
    /\ trace s' = trace s ++ evs
    /\ runs_of evs = replicate fuel w
    /\ warnings_of evs = [].
Proof.
  intros P Hr Hb Q W. simpl. unfold flushBody.
  set (s0 := set_index 0 _).
  destruct (flushLoop_unguarded cfg run before
              (flushSchedulerQueue cfg run before fuel) w P Hr Hb fuel 0 s0)
    as (s' & evs & -> & T & R & N); try done.
  { subst s0. simpl. by rewrite Q. }
  exists s', evs. by repeat split.
Qed.

Lemma production_build_has_no_guard_witness :
  exists s' evs,
    flushSchedulerQueue Scenarios.prod Scenarios.self_enqueue
      Scenarios.no_before 301
      (Scenarios.enqueued Scenarios.prod [Scenarios.watcher 1]) = OutOfFuel s'
    /\ trace s' = [EvNextTick] ++ evs
    /\ runs_of evs = replicate 300 (Scenarios.watcher 1)
    /\ warnings_of evs = [].
Proof.
  apply (production_build_has_no_guard Scenarios.prod Scenarios.self_enqueue
           Scenarios.no_before (Scenarios.watcher 1) 300
           (Scenarios.enqueued Scenarios.prod [Scenarios.watcher 1])).
  - reflexivity.
  - reflexivity.
  - intros b h B. discriminate B.
  - reflexivity.
  - reflexivity.
Defined.

End SchedulerMore.

(** * Further properties of the intercepted array mutators *)

Module ArrayMethodsMore.
Import ArrayMethods ArrayMethodsProps.

(** The native calls, in order, among a list of events. *)
Definition native_calls {Value} (evs : list (Event Value))
  : list (Method * list Value) :=
  omap (fun e => match e with
                 | EvOriginal m args => Some (m, args)
                 | _ => None
                 end) evs.

Section Calls.
Variable Value : Type.
Variable original : Method -> list Value -> list Value -> list Value * Value.

(** A series of intercepted calls on one array: the array afterwards and
    the values returned, in order. *)
Fixpoint mutate_all (calls : list (Method * list Value))
    (this : ObservedArray Value) : ObservedArray Value * list Value :=
  match calls with
  | [] => (this, [])
  | (method, args) :: calls =>
      let '(this, result) := mutator Value original method args this in
      let '(this, results) := mutate_all calls this in
      (this, result :: results)
  end.

(** The same series of native calls on the bare elements. *)
Fixpoint native_all (calls : list (Method * list Value))
    (elems : list Value) : list Value * list Value :=
  match calls with
  | [] => (elems, [])
  | (method, args) :: calls =>
      let '(elems, result) := original method elems args in
      let '(elems, results) := native_all calls elems in
      (elems, result :: results)
  end.

Lemma notifications_app (a b : list (Event Value)) :
  notifications (a ++ b) = (notifications a + notifications b)%nat.
Proof. unfold notifications. by rewrite omap_app, length_app. Qed.

Lemma native_calls_app (a b : list (Event Value)) :
  native_calls (a ++ b) = native_calls a ++ native_calls b.
Proof. apply omap_app. Qed.

Lemma call_events_notifications method args :
  notifications (call_events Value method args) = 1%nat
  /\ native_calls (call_events Value method args) = [(method, args)].
Proof.
  unfold call_events. by destruct (inserted_of Value method args).
Qed.

(** A series of intercepted calls changes the elements and returns the
    values as the same series of native calls does; each call is passed to
    the native operation with its arguments, in order, and notifies once. *)
Theorem mutate_all_as_native calls this :
  elements (mutate_all calls this).1 = (native_all calls (elements this)).1
  /\ (mutate_all calls this).2 = (native_all calls (elements this)).2
  /\ exists evs,
      events (mutate_all calls this).1 = events this ++ evs
      /\ notifications evs = length calls
      /\ native_calls evs = calls.
Proof.
  revert this. induction calls as [|[method args] calls IH]; intros this.
  - simpl. repeat split. exists []. by rewrite app_nil_r.
  - simpl. rewrite mutator_unfold.
    set (this1 := {| elements := _; events := _ |}).
    destruct (IH this1) as (E & R & evs & V & N & C).
    subst this1. simpl in E, R, V.
    destruct (original method (elements this) args) as [elems result].
    simpl in *.
    destruct (mutate_all calls _) as [this2 results].
    destruct (native_all calls elems) as [elems2 results2].
    simpl in *. split; [done|]. split; [by rewrite R|].
    exists (call_events Value method args ++ evs).
    rewrite V, <- app_assoc. split; [done|].
    destruct (call_events_notifications method args) as [N1 C1].
    by rewrite notifications_app, native_calls_app, N, C, N1, C1.
Qed.
End Calls.

End ArrayMethodsMore.

(** * Further properties of the resolution of async components *)

Module AsyncComponentMore.
Import AsyncComponent AsyncComponentProps.

(** The number of times [then] was called on a promise. *)
Definition thens (evs : list Event) : nat :=
  length (omap (fun e => match e with EvThen => Some tt | _ => None end) evs).

Section Resolver.
Context {NT : NumberText}.
Variable production : bool.
Variable factory : Producer.

(** ** What stays as it is once the producer was called *)

(** After the first request the substitutes and the base constructor are
    fixed, [contexts] stays defined, and the error flag, once set, stays
    set; it stays unset if there is no error substitute or the failure
    callback ran already. *)
Lemma step_frame st a :
  isDef (contexts st) = true ->
  let st' := step production factory st a in
  isDef (contexts st') = true
  /\ errorComp st' = errorComp st
  /\ loadingComp st' = loadingComp st
  /\ (error st = true -> error st' = true)
  /\ (rejectCalled st = true -> rejectCalled st' = true)
  /\ (error st = false -> errorComp st = None \/ rejectCalled st = true ->
      error st' = false).
Proof.
  intros C.
  assert (forall reason st0,
            isDef (contexts st0) = true ->
            let st' := reject production factory reason st0 in
            isDef (contexts st') = true
            /\ errorComp st' = errorComp st0
            /\ loadingComp st' = loadingComp st0
            /\ (error st0 = true -> error st' = true)
            /\ (rejectCalled st0 = true -> rejectCalled st' = true)
            /\ (error st0 = false ->
                errorComp st0 = None \/ rejectCalled st0 = true ->
                error st' = false)) as Rj.
  { intros reason st0 C0 st'. subst st'. destruct (rejectCalled st0) eqn:J.
    - by rewrite reject_again.
    - destruct (reject_first production factory reason st0 J)
        as (J' & _ & _ & _ & LC & EC & _ & _ & _ & X).
      rewrite LC, EC. destruct (errorComp st0) as [e|].
      + destruct X as (E & -> & _). repeat split; try done.
        intros _ [?|?]; done.
      + destruct X as (-> & -> & _). done. }
  destruct a as [base ctx|res|reason|t]; simpl.
  - unfold resolveAsyncComponent.
    destruct (error st && isDef (errorComp st)); [by repeat split|].
    destruct (isDef (resolved st)); [by repeat split|].
    destruct (loading st && isDef (loadingComp st)); [by repeat split|].
    destruct (contexts st) as [cs|]; [|discriminate C]. by repeat split.
  - rewrite C. destruct (resolveCalled st) eqn:H.
    + rewrite resolve_again by done. by repeat split.
    + destruct (resolve_first res st H)
        as (_ & -> & _ & -> & -> & -> & _ & -> & _).
      by repeat split.
  - rewrite C. by apply Rj.
  - unfold fire. destruct (take_timer t (timers st)) as [[ms ts]|];
      [|by repeat split].
    destruct t.
    + unfold loading_timer. simpl.
      destruct (isUndef (resolved st) && negb (error st)); [|by repeat split].
      rewrite force_updates_fold. by repeat split.
    + unfold timeout_timer. simpl.
      destruct (isUndef (resolved st)); [|by repeat split].
      by apply (Rj _ (set_timers ts st)).
Qed.

(** ** Answers that are final *)

(** Once the unit is Errored and there is an error substitute, every request
    is answered with that substitute and changes nothing, whatever happened
    in between, a late completion included. *)
Theorem errored_is_final st e actions base ctx :
  isDef (contexts st) = true ->
  error st = true -> errorComp st = Some e ->
  resolveAsyncComponent production factory base ctx
    (steps production factory st actions)
  = (steps production factory st actions, Some e).
Proof.
  revert st. induction actions as [|a actions IH]; intros st C E EC.
  - simpl. unfold resolveAsyncComponent. by rewrite E, EC.
  - simpl. destruct (step_frame st a C) as (C' & EC' & _ & E' & _).
    apply IH; [done|by apply E'|by rewrite EC'].
Qed.

Lemma resolved_stays st c actions :
  isDef (contexts st) = true -> resolveCalled st = true ->
  resolved st = Some c -> error st = false ->
  errorComp st = None \/ rejectCalled st = true ->
  resolved (steps production factory st actions) = Some c
  /\ error (steps production factory st actions) = false.
Proof.
  revert st. induction actions as [|a actions IH]; intros st C H R E X.
  - done.
  - simpl. destruct (step_frame st a C) as (C' & EC' & _ & _ & J' & E').
    destruct (step_settled production factory st a) as (_ & H' & R' & _);
      [by split|done|].
    apply IH; try done.
    + by rewrite R'.
    + by apply E'.
    + destruct X as [X|X]; [left; by rewrite EC'|right; by apply J'].
Qed.

(** Once a resolved unit is there, the error flag being unset, and no
    failure can set it any more (there is no error substitute, or the
    failure callback ran already), every request is answered with the
    resolved unit and changes nothing, whatever happened in between. *)
Theorem resolved_is_final st c actions base ctx :
  isDef (contexts st) = true -> resolveCalled st = true ->
  resolved st = Some c -> error st = false ->
  errorComp st = None \/ rejectCalled st = true ->
  resolveAsyncComponent production factory base ctx
    (steps production factory st actions)
  = (steps production factory st actions, Some c).
Proof.
  intros C H R E X.
  destruct (resolved_stays st c actions C H R E X) as (R' & E').
  unfold resolveAsyncComponent. by rewrite E', R'.
Qed.

(** ** Requests while the producer is pending *)

Lemma set_contexts_twice a b st :
  set_contexts a (set_contexts b st) = set_contexts a st.
Proof. by destruct st. Qed.

Lemma set_contexts_same st cs :
  contexts st = Some cs -> set_contexts (Some (cs ++ [])) st = st.
Proof. destruct st. simpl. intros ->. by rewrite app_nil_r. Qed.

(** While the producer is pending and no substitute is returned, the
    requests register their consumers in the order of the requests, a
    consumer as often as it asks; when the producer then completes, each
    registration is asked to re-render once, in that order. *)
Theorem pending_requests_register_in_order st cs (reqs : list (Base * Context)) :
  contexts st = Some cs ->
  isDef (resolved st) = false ->
  error st && isDef (errorComp st) = false ->
  loading st && isDef (loadingComp st) = false ->
  let st' := steps production factory st
               (map (fun r => Request r.1 r.2) reqs) in
  st' = set_contexts (Some (cs ++ map snd reqs)) st
  /\ events st' = events st
  /\ (sync st = false -> resolveCalled st = false -> forall res,
        events (resolve res st')
        = events st ++ map EvForceUpdate (cs ++ map snd reqs)).
Proof.
  intros C R E L st'.
  assert (st' = set_contexts (Some (cs ++ map snd reqs)) st) as ->.
  { subst st'. revert st cs C R E L.
    induction reqs as [|[b c] reqs IH]; intros st cs C R E L; simpl.
    - by rewrite set_contexts_same.
    - rewrite (request_pending production factory b c st cs) by done. simpl.
      rewrite (IH _ (cs ++ [c])) by done.
      by rewrite set_contexts_twice, <- app_assoc. }
  split; [done|]. split; [done|].
  intros S H res.
  destruct (resolve_first res (set_contexts (Some (cs ++ map snd reqs)) st))
    as (_ & _ & _ & _ & _ & _ & _ & _ & _ & _ & _ & V); [done|].
  simpl in V. by rewrite S in V.
Qed.

(** ** The timeout *)

(** When the timeout timer fires and a resolved unit is there, nothing
    happens; otherwise the failure callback is called with the timeout as
    its reason: if it did not run before, the diagnostic names the timeout,
    with the number of milliseconds as the engine writes it (unless in the
    production build) and, if there is an error substitute, the unit
    becomes Errored and the pending consumers are asked to re-render. *)
Theorem timeout_is_a_failure st ms ts :
  take_timer TimeoutTimer (timers st) = Some (ms, ts) ->
  let st' := fire production factory TimeoutTimer st in
  timers st' = ts
  /\ (isDef (resolved st) = true -> st' = set_timers ts st)
  /\ (isDef (resolved st) = false ->
      st' = reject production factory (timeout_reason production ms)
              (set_timers ts st))
  /\ (isDef (resolved st) = false -> rejectCalled st = false ->
      events st'
      = events st
        ++ (if production then []
            else [EvWarn ("Failed to resolve async component: "
                          +:+ pname factory +:+ newline
                          +:+ "Reason: timeout (" +:+ number_text ms +:+ "ms)")])
        ++ (if isDef (errorComp st)
            then map EvForceUpdate (default [] (contexts st)) else [])
      /\ error st' = (if isDef (errorComp st) then true else error st)
      /\ contexts st' = (if isDef (errorComp st) then Some [] else contexts st)).
Proof.
  intros T st'. subst st'. unfold fire. rewrite T. unfold timeout_timer. simpl.
  unfold isUndef. destruct (isDef (resolved st)) eqn:R; simpl.
  - repeat split; try done.
  - split.
    { destruct (rejectCalled (set_timers ts st)) eqn:J.
      - by rewrite reject_again.
      - by destruct (reject_first production factory
                       (timeout_reason production ms) _ J)
          as (_ & _ & _ & _ & _ & _ & _ & _ & -> & _). }
    split; [done|]. split; [done|]. intros _ J.
    destruct (reject_first production factory (timeout_reason production ms)
                (set_timers ts st) J)
      as (_ & _ & _ & _ & _ & _ & _ & _ & _ & X).
    simpl in X.
    destruct (errorComp st); destruct X as (E1 & C1 & V1);
      rewrite V1, E1, C1; unfold diagnostic, timeout_reason, fail_message;
      destruct production; simpl; by rewrite ?app_nil_r.
Qed.

(** ** Producers that return no descriptor *)

(** No substitute, no flag, no timer. *)
Definition bare (st : State) : Prop :=
  error st = false /\ loading st = false /\ errorComp st = None
  /\ loadingComp st = None /\ timers st = [].

Lemma bare_resolve res st : bare st -> bare (resolve res st).
Proof.
  intros (E & L & EC & LC & T). destruct (resolveCalled st) eqn:H.
  - by rewrite resolve_again.
  - destruct (resolve_first res st H)
      as (_ & _ & _ & _ & E' & EC' & L' & LC' & _ & _ & T' & _).
    unfold bare. by rewrite E', EC', L', LC', T'.
Qed.

Lemma bare_reject reason st :
  bare st -> bare (reject production factory reason st).
Proof.
  intros (E & L & EC & LC & T). destruct (rejectCalled st) eqn:H.
  - by rewrite reject_again.
  - destruct (reject_first production factory reason st H)
      as (_ & _ & _ & L' & LC' & EC' & _ & _ & T' & X).
    rewrite EC in X. destruct X as (E' & _).
    unfold bare. by rewrite E', EC', L', LC', T'.
Qed.

Lemma bare_callbacks cbs st :
  bare st ->
  bare (foldl (fun st cb => callback production factory cb st) st cbs).
Proof.
  revert st. induction cbs as [|[res|reason] cbs IH]; intros st B; simpl;
    [done| |]; apply IH; [by apply bare_resolve|by apply bare_reject].
Qed.

Hypothesis no_descriptor : forall d, returned factory <> RetDescriptor d.

Lemma bare_after_factory base st :
  bare st -> bare (after_factory factory base st).
Proof.
  intros B. unfold after_factory.
  destruct (returned factory) as [| |d] eqn:R; [done| |].
  - by destruct (isUndef (resolved st)).
  - by destruct (no_descriptor d).
Qed.

Lemma bare_request base ctx st :
  bare st ->
  bare (resolveAsyncComponent production factory base ctx st).1
  /\ (resolveAsyncComponent production factory base ctx st).2
     = resolved (resolveAsyncComponent production factory base ctx st).1.
Proof.
  intros B. pose proof B as (E & L & EC & LC & T).
  unfold resolveAsyncComponent. rewrite E, L. simpl.
  destruct (isDef (resolved st)) eqn:R; [done|].
  destruct (contexts st) as [cs|]; simpl.
  - split; [done|]. by destruct (resolved st).
  - set (st1 := emit EvInvoke _).
    assert (bare st1) as B1 by done.
    apply (bare_callbacks (syncCalls factory)) in B1.
    apply (bare_after_factory base) in B1.
    destruct B1 as (E' & L' & EC' & LC' & T'). by rewrite L'.
Qed.

Lemma bare_step st a : bare st -> bare (step production factory st a).
Proof.
  intros B. destruct a as [base ctx|res|reason|t]; simpl.
  - by apply bare_request.
  - destruct (isDef (contexts st)); [by apply bare_resolve|done].
  - destruct (isDef (contexts st)); [by apply bare_reject|done].
  - unfold fire. pose proof B as (_ & _ & _ & _ & T). by rewrite T.
Qed.

Lemma bare_steps actions st :
  bare st -> bare (steps production factory st actions).
Proof.
  revert st. induction actions as [|a actions IH]; intros st B; [done|].
  simpl. by apply IH, bare_step.
Qed.

(** A producer that returns no descriptor (a plain function, or one that
    returns a promise) never becomes Errored or Loading and sets no timer,
    whatever happens: a failure is only reported, and every request is
    answered with the resolved unit, if there is one, and with nothing
    otherwise. *)
Theorem no_descriptor_no_substitutes actions base ctx :
  let st := steps production factory fresh actions in
  error st = false /\ loading st = false /\ timers st = []
  /\ (resolveAsyncComponent production factory base ctx st).2
     = resolved (resolveAsyncComponent production factory base ctx st).1.
Proof.
  intros st. assert (bare st) as B by (by apply bare_steps).
  destruct (bare_request base ctx st B) as [_ A].
  destruct B as (E & L & _ & _ & T). done.
Qed.

(** The events that are neither a request to re-render, nor a call of
    [then], nor a call of the producer. *)
Definition silent (evs : list Event) : Prop :=
  forced evs = [] /\ thens evs = 0%nat /\ invocations evs = 0%nat.

Lemma silent_app a b : silent a -> silent b -> silent (a ++ b).
Proof.
  intros (F1 & T1 & I1) (F2 & T2 & I2). unfold silent, thens in *.
  rewrite forced_app, invocations_app, omap_app, length_app, F1, F2, T1, T2,
    I1, I2. done.
Qed.

(** A producer that completes before it returns, and returns no descriptor:
    the first request is answered with the resolved unit; no consumer is
    asked to re-render, no promise is waited for, and the unit is the answer
    to every later request, whatever happens. *)
Theorem synchronous_completion res rest base ctx c :
  syncCalls factory = CbResolve res :: rest ->
  ensureCtor res base = Some c ->
  let r := resolveAsyncComponent production factory base ctx fresh in
  r.2 = Some c
  /\ contexts r.1 = Some []
  /\ forced (events r.1) = []
  /\ thens (events r.1) = 0%nat
  /\ invocations (events r.1) = 1%nat
  /\ forall actions base' ctx',
       resolveAsyncComponent production factory base' ctx'
         (steps production factory r.1 actions)
       = (steps production factory r.1 actions, Some c).
Proof.
  intros Hs Hc r.
  assert (r.2 = Some c /\ contexts r.1 = Some []
          /\ forced (events r.1) = [] /\ thens (events r.1) = 0%nat
          /\ invocations (events r.1) = 1%nat
          /\ resolved r.1 = Some c /\ resolveCalled r.1 = true
          /\ error r.1 = false /\ errorComp r.1 = None) as K.
  2: { destruct K as (K1 & K2 & K3 & K4 & K5 & K6 & K7 & K8 & K9).
       repeat (split; [done|]). intros actions base' ctx'.
       destruct (resolved_stays r.1 c actions) as (R' & E');
         try done; [by rewrite K2|by left|].
       unfold resolveAsyncComponent. by rewrite E', R'. }
  subst r. unfold resolveAsyncComponent. simpl.
  rewrite Hs. simpl. clear Hs.
  set (st1 := resolve res _).
  assert (resolved st1 = Some c /\ resolveCalled st1 = true
          /\ contexts st1 = Some [] /\ bare st1
          /\ exists evs, events st1 = EvInvoke :: evs /\ silent evs)
    as K1.
  { subst st1. unfold resolve, once. simpl. rewrite Hc.
    repeat split. exists []. by repeat split. }
  clearbody st1.
  assert (let st2 := foldl (fun st cb => callback production factory cb st)
                       st1 rest in
          resolved st2 = Some c /\ resolveCalled st2 = true
          /\ contexts st2 = Some [] /\ bare st2
          /\ exists evs, events st2 = EvInvoke :: evs /\ silent evs) as K2.
  { revert st1 K1. induction rest as [|cb rest' IH];
      intros st1 (R & H & C & B & evs & V & S); cbn [foldl].
    - split; [done|]. split; [done|]. split; [done|]. split; [done|].
      by exists evs.
    - apply IH. destruct cb as [res'|reason]; cbn [callback].
      + rewrite resolve_again by done.
        split; [done|]. split; [done|]. split; [done|]. split; [done|].
        by exists evs.
      + destruct (rejectCalled st1) eqn:J.
        * rewrite reject_again by done.
          split; [done|]. split; [done|]. split; [done|]. split; [done|].
          by exists evs.
        * pose proof (bare_reject reason st1 B) as B'.
          destruct (reject_first production factory reason st1 J)
            as (_ & H' & R' & _ & _ & _ & _ & _ & _ & X).
          destruct B as (_ & _ & EC & _). rewrite EC in X.
          destruct X as (_ & C' & V').
          rewrite R', H', C', V'.
          split; [done|]. split; [done|]. split; [done|]. split; [done|].
          exists (evs ++ diagnostic production factory reason).
          rewrite V. split; [done|]. apply silent_app; [done|].
          unfold diagnostic. by destruct production. }
  simpl in K2.
  set (st2 := foldl _ st1 rest) in *. clearbody st2.
  destruct K2 as (R & H & C & B & evs & V & S).
  assert (after_factory factory base st2 = st2) as ->.
  { unfold after_factory. destruct (returned factory) as [| |d] eqn:Rt.
    - done.
    - unfold isUndef. by rewrite R.
    - by destruct (no_descriptor d). }
  simpl. destruct B as (E & L & EC & LC & T). rewrite L.
  destruct S as (F & Th & I).
  split; [done|]. split; [done|]. rewrite V.
  split; [exact F|]. split; [exact Th|].
  split; [|done].
  change (EvInvoke :: evs) with ([EvInvoke] ++ evs).
  by rewrite invocations_app, I.
Qed.

End Resolver.

#[local] Existing Instance AsyncScenarios.digits.

(** The descriptor has an error substitute and [timeout: 100]; the timer
    fires with two consumers pending. *)
Lemma timeout_is_a_failure_witness :
  let st := AsyncScenarios.run AsyncScenarios.with_error
              [Request "Vue" 1%nat; Request "Vue" 2%nat] in
  let st' := fire false AsyncScenarios.with_error TimeoutTimer st in
  error st' = true
  /\ forced (events st') = [1%nat; 2%nat]
  /\ warnings (events st')
     = ["Failed to resolve async component: AsyncComp" +:+ newline
        +:+ "Reason: timeout (100ms)"].
Proof.
  intros st st'.
  destruct (timeout_is_a_failure false AsyncScenarios.with_error st 100%Z [])
    as (_ & _ & _ & H).
  - reflexivity.
  - destruct (H eq_refl eq_refl) as (V & E & _). fold st' in V, E.
    split; [exact E|]. rewrite V. split; reflexivity.
Defined.

Lemma errored_is_final_witness :
  let st := AsyncScenarios.run AsyncScenarios.with_error
              [Request "Vue" 1%nat; Fire TimeoutTimer] in
  (resolveAsyncComponent false AsyncScenarios.with_error "Vue" 3%nat
     (steps false AsyncScenarios.with_error st
        [Resolve AsyncScenarios.compA; Request "Vue" 2%nat])).2
  = Some (Extend "Vue" AsyncScenarios.errorView).
Proof.
  intros st.
  rewrite (errored_is_final false AsyncScenarios.with_error st
             (Extend "Vue" AsyncScenarios.errorView)); reflexivity.
Defined.

Lemma resolved_is_final_witness :
  let st := AsyncScenarios.run AsyncScenarios.plain
              [Request "Vue" 1%nat; Resolve AsyncScenarios.compA] in
  (resolveAsyncComponent false AsyncScenarios.plain "Vue" 3%nat
     (steps false AsyncScenarios.plain st
        [Reject None; Resolve AsyncScenarios.compB; Request "Vue" 2%nat])).2
  = Some (Extend "Vue" AsyncScenarios.compA).
Proof.
  intros st.
  rewrite (resolved_is_final false AsyncScenarios.plain st
             (Extend "Vue" AsyncScenarios.compA)); try reflexivity.
  by left.
Defined.

Lemma pending_requests_register_in_order_witness :
  let st := AsyncScenarios.run AsyncScenarios.plain [Request "Vue" 1%nat] in
  let st' := steps false AsyncScenarios.plain st
               [Request "Vue" 2%nat; Request "Vue" 1%nat] in
  contexts st' = Some [1%nat; 2%nat; 1%nat]
  /\ forced (events (resolve AsyncScenarios.compA st')) = [1%nat; 2%nat; 1%nat].
Proof.
  intros st st'.
  destruct (pending_requests_register_in_order false AsyncScenarios.plain st
              [1%nat] [("Vue", 2%nat); ("Vue", 1%nat)]
              eq_refl eq_refl eq_refl eq_refl) as (E & _ & H).
  change (steps false AsyncScenarios.plain st
            (map (fun r : Base * Context => Request r.1 r.2)
               [("Vue", 2%nat); ("Vue", 1%nat)])) with st' in E, H.
  split; [by rewrite E|].
  rewrite (H eq_refl eq_refl AsyncScenarios.compA). reflexivity.
Defined.

Lemma synchronous_completion_witness :
  let r := resolveAsyncComponent false AsyncScenarios.immediate "Vue" 1%nat
             fresh in
  r.2 = Some (Extend "Vue" AsyncScenarios.compA)
  /\ events r.1 = [EvInvoke]
  /\ (resolveAsyncComponent false AsyncScenarios.immediate "Vue" 2%nat
        (steps false AsyncScenarios.immediate r.1 [Reject None])).2
     = Some (Extend "Vue" AsyncScenarios.compA).
Proof.
  intros r.
  destruct (synchronous_completion false AsyncScenarios.immediate
              ltac:(intros d H; discriminate H)
              AsyncScenarios.compA [] "Vue" 1%nat
              (Extend "Vue" AsyncScenarios.compA) eq_refl eq_refl)
    as (A & _ & _ & _ & _ & H).
  fold r in A, H. split; [exact A|]. split; [reflexivity|].
  by rewrite H.
Defined.

Lemma no_descriptor_no_substitutes_witness :
  let st := AsyncScenarios.run AsyncScenarios.plain
              [Request "Vue" 1%nat; Reject (Some "offline");
               Request "Vue" 2%nat; Fire TimeoutTimer] in
  error st = false /\ loading st = false /\ timers st = []
  /\ (resolveAsyncComponent false AsyncScenarios.plain "Vue" 3%nat st).2 = None.
Proof.
  intros st.
  destruct (no_descriptor_no_substitutes false AsyncScenarios.plain
              ltac:(intros d H; discriminate H)
              [Request "Vue" 1%nat; Reject (Some "offline");
               Request "Vue" 2%nat; Fire TimeoutTimer] "Vue" 3%nat)
    as (E & L & T & A).
  split; [exact E|]. split; [exact L|]. split; [exact T|].
  exact A.
Defined.

End AsyncComponentMore.
